(** * mcp-neo4j-semantic-memory: the graph store adapter, the write
      policy and the ontology orchestrator, embedded in Rocq.

    Sources embedded here:
    - utils/cypher-utils.js   ([containsWriteOperations], [wrapWithSecurityCheck])
    - neo4j-memory.js         (class Neo4jMemory)
    - tools/base-ontology.js  ([handleCreateBaseOntology] and its helpers)
    - the server entry point  (the [safe_cypher_query] case of the tool
                               dispatcher)
    - utils/uuid-utils.js     ([generateUUID], [generateSecurityNodeName])

    JavaScript strings are sequences of code units; they are modelled as
    [list ascii], the code units below 256. *)

From Stdlib Require Import List String Ascii Bool Arith Lia.
From Stdlib Require Import Sorted.
From Stdlib Require Import NArith.
From Stdlib Require DecimalString HexadecimalString.
Import ListNotations.

(* ================================================================== *)
(** * Strings *)
(* ================================================================== *)

Definition jsstring := list ascii.

Definition lit (s : string) : jsstring := list_ascii_of_string s.

Definition jsstring_dec : forall a b : jsstring, {a = b} + {a <> b} :=
  list_eq_dec ascii_dec.

(** [a === b] on two strings. *)
Definition streq (a b : jsstring) : bool :=
  if jsstring_dec a b then true else false.

Definition in_range (lo hi : nat) (c : ascii) : bool :=
  (lo <=? nat_of_ascii c) && (nat_of_ascii c <=? hi).

(** The class [\w] of a regular expression without the [u] flag:
    [A-Za-z0-9_]. *)
Definition is_word_char (c : ascii) : bool :=
  in_range 48 57 c || in_range 65 90 c || in_range 97 122 c
  || (nat_of_ascii c =? 95).

(** Canonicalize of a regular expression with the [i] flag and without
    the [u] flag: a code unit is compared through its upper case, and a
    code unit of 128 or more is never identified with one below 128. *)
Definition canonicalize (c : ascii) : ascii :=
  if in_range 97 122 c then ascii_of_nat (nat_of_ascii c - 32) else c.

(** [String.prototype.toLowerCase], on one code unit below 256: the
    letters A to Z, and the accented capitals from 192 to 222 but for
    the multiplication sign 215, are moved 32 up. *)
Definition lower_char (c : ascii) : ascii :=
  if in_range 65 90 c
     || (in_range 192 222 c && negb (nat_of_ascii c =? 215))
  then ascii_of_nat (nat_of_ascii c + 32) else c.

Definition toLowerCase (s : jsstring) : jsstring := map lower_char s.

(** [s.startsWith(t)]. *)
Fixpoint starts_with (t s : jsstring) : bool :=
  match t, s with
  | [], _ => true
  | _ :: _, [] => false
  | a :: t', b :: s' => Ascii.eqb a b && starts_with t' s'
  end.

(** [s.includes(t)]: [t] occurs in [s] as a contiguous run. *)
Fixpoint includes (s t : jsstring) : bool :=
  starts_with t s ||
  match s with
  | [] => false
  | _ :: s' => includes s' t
  end.

(** The declarative reading of [includes]. *)
Definition Substring (t s : jsstring) : Prop :=
  exists pre post, s = pre ++ t ++ post.

(* ================================================================== *)
(** * A backtracking matcher for the fragment of regular expressions
      that [containsWriteOperations] builds *)
(* ================================================================== *)

Inductive regex : Type :=
| Empty : regex                       (* the empty pattern *)
| Chr : ascii -> regex                (* one pattern character *)
| WordBoundary : regex                (* \b *)
| Cat : regex -> regex -> regex       (* concatenation *)
| Alt : regex -> regex -> regex.      (* r1|r2 *)

(** A position in the subject string: the code unit just before it, if
    any, and the code units from it on. *)
Definition position := (option ascii * jsstring)%type.

Definition word_before (p : option ascii) : bool :=
  match p with Some c => is_word_char c | None => false end.

Definition word_after (s : jsstring) : bool :=
  match s with c :: _ => is_word_char c | [] => false end.

(** All the positions at which a match of [r] started at [(prev, rest)]
    can end, in the order in which backtracking tries them. *)
Fixpoint rmatch (r : regex) (prev : option ascii) (rest : jsstring)
  : list position :=
  match r with
  | Empty => [(prev, rest)]
  | Chr c =>
      match rest with
      | x :: xs =>
          if Ascii.eqb (canonicalize x) (canonicalize c)
          then [(Some x, xs)] else []
      | [] => []
      end
  | WordBoundary =>
      if xorb (word_before prev) (word_after rest)
      then [(prev, rest)] else []
  | Cat r1 r2 =>
      flat_map (fun p => rmatch r2 (fst p) (snd p)) (rmatch r1 prev rest)
  | Alt r1 r2 => rmatch r1 prev rest ++ rmatch r2 prev rest
  end.

(** [regex.test(s)] from position [(prev, rest)] on: the first start
    position with a match decides. *)
Fixpoint search (r : regex) (prev : option ascii) (rest : jsstring) : bool :=
  match rmatch r prev rest with
  | _ :: _ => true
  | [] =>
      match rest with
      | [] => false
      | x :: xs => search r (Some x) xs
      end
  end.

Definition regex_test (r : regex) (s : jsstring) : bool := search r None s.

(** A pattern made of literal characters. *)
Fixpoint literal (s : jsstring) : regex :=
  match s with
  | [] => Empty
  | c :: s' => Cat (Chr c) (literal s')
  end.

(** [words.join('|')] read as a pattern. *)
Fixpoint alternation (words : list jsstring) : regex :=
  match words with
  | [] => Empty
  | [w] => literal w
  | w :: ws => Alt (literal w) (alternation ws)
  end.

(* ================================================================== *)
(** * utils/cypher-utils.js *)
(* ================================================================== *)

Definition writeOperators : list jsstring :=
  [lit "CREATE"; lit "SET"; lit "DELETE"; lit "REMOVE"; lit "MERGE"].

(** [new RegExp('\\b(' + writeOperators.join('|') + ')\\b', 'i')] *)
Definition write_regex : regex :=
  Cat WordBoundary (Cat (alternation writeOperators) WordBoundary).

Definition containsWriteOperations (query : jsstring) : bool :=
  regex_test write_regex query.

Definition newline : jsstring := [ascii_of_nat 10].

(** The template literal of [wrapWithSecurityCheck], line by line. *)
Definition wrapWithSecurityCheck (query securityNodeName : jsstring)
  : jsstring :=
  newline
  ++ lit "    // Security check to ensure only authorized operations are performed"
  ++ newline
  ++ lit "    MATCH (security:SecurityNode {name: " ++ [ascii_of_nat 34]
  ++ securityNodeName ++ [ascii_of_nat 34] ++ lit "})" ++ newline
  ++ lit "    WITH security" ++ newline
  ++ lit "    WHERE security IS NOT NULL" ++ newline
  ++ lit "    // Original query follows" ++ newline
  ++ lit "    " ++ query ++ newline
  ++ lit "  ".

(** The claim's reading of the classifier: a write operator occurs in
    the query as a token of its own, in any letter case. *)
Definition ends_in_word (s : jsstring) : bool :=
  match rev s with c :: _ => is_word_char c | [] => false end.

Definition same_ignoring_case (a b : jsstring) : Prop :=
  map canonicalize a = map canonicalize b.

Definition standalone_write_token (q : jsstring) : Prop :=
  exists pre w post op,
    q = pre ++ w ++ post /\
    In op writeOperators /\
    same_ignoring_case w op /\
    ends_in_word pre = false /\
    word_after post = false.

(* ================================================================== *)
(** * The data model *)
(* ================================================================== *)

(** An entity object: [{name, entityType, observations}].  The creation
    and update timestamps that the store adds are not modelled. *)
Record Entity := mkEntity {
  name : jsstring;
  entityType : jsstring;
  observations : list jsstring
}.

(** A relation object.  A caller supplies all three properties; an
    object read back from the store has the properties of the stored
    relationship, among which [from] and [to] can be missing
    ([None] is [undefined]). *)
Record Relation := mkRelation {
  from : option jsstring;
  to : option jsstring;
  relationType : jsstring
}.

Record KnowledgeGraph := mkGraph {
  entities : list Entity;
  relations : list Relation
}.

(** [a === b] where either side can be [undefined]. *)
Definition opt_streq (a b : option jsstring) : bool :=
  match a, b with
  | Some x, Some y => streq x y
  | None, None => true
  | _, _ => false
  end.

(** [r.from === d.from && r.to === d.to && r.relationType === d.relationType] *)
Definition same_relation (r d : Relation) : bool :=
  opt_streq (from r) (from d) && opt_streq (to r) (to d)
  && streq (relationType r) (relationType d).

(** [list.includes(x)] on strings. *)
Definition str_mem (x : jsstring) (l : list jsstring) : bool :=
  existsb (streq x) l.

(* ================================================================== *)
(** * The backing store *)
(* ================================================================== *)

(** A node labelled [Memory].  [saveGraph] keeps the property
    [entityID] of such a node equal to its [name]; the model keeps the
    one field [name] for both. *)
Record MemoryNode := mkNode {
  node_id : nat;
  properties : Entity
}.

(** A relationship of the store, with the properties that [loadGraph]
    hands out as a relation object. *)
Record Relationship := mkRelationship {
  rel_start : nat;
  rel_end : nat;
  rel_type : jsstring;
  rel_properties : Relation
}.

(** The part of the database that the adapter and the security check address:
    the [Memory] nodes, the relationships that leave them, and the names
    of the [SecurityNode] nodes. *)
Record Store := mkStore {
  nodes : list MemoryNode;
  relationships : list Relationship;
  tokens : list jsstring
}.

Definition empty_store : Store := mkStore [] [] [].

(** ** The statements of neo4j-memory.js, as functions on the store *)

(** [MATCH (entity:Memory) OPTIONAL MATCH (entity)-[r]->(other)
     RETURN entity, collect(r) as relations]:
    one row per [Memory] node, with the relationships that leave it. *)
Definition load_rows (st : Store) : list (Entity * list Relation) :=
  map (fun n =>
         (properties n,
          map rel_properties
            (filter (fun r => rel_start r =? node_id n) (relationships st))))
      (nodes st).

(** An identifier that no node of the store carries. *)
Definition fresh_id (st : Store) : nat :=
  S (fold_right Nat.max 0
       (map node_id (nodes st)
        ++ map rel_start (relationships st)
        ++ map rel_end (relationships st))).

(** [MERGE (entityMemory:Memory { entityID: entity.name })
     ON CREATE SET entityMemory += entity, ...
     ON MATCH SET entityMemory += entity, ...] for one entity. *)
Definition merge_entity (st : Store) (e : Entity) : Store :=
  if existsb (fun n => streq (name (properties n)) (name e)) (nodes st)
  then mkStore
         (map (fun n => if streq (name (properties n)) (name e)
                        then mkNode (node_id n) e else n)
              (nodes st))
         (relationships st) (tokens st)
  else mkStore (nodes st ++ [mkNode (fresh_id st) e])
         (relationships st) (tokens st).

(** [UNWIND $memoryGraph.entities as entity MERGE ...] *)
Definition merge_entities (es : list Entity) (st : Store) : Store :=
  fold_left merge_entity es st.

Definition memory_type : jsstring := lit "Memory".

(** [MERGE (from)-[r:Memory {relationType:relation.relationType}]->(to)]
    for one pair of matched nodes. *)
Definition merge_relationship (ty : jsstring) (st : Store)
    (ends : MemoryNode * MemoryNode) : Store :=
  let a := node_id (fst ends) in
  let b := node_id (snd ends) in
  if existsb (fun r => (rel_start r =? a) && (rel_end r =? b)
                       && streq (rel_type r) memory_type
                       && streq (relationType (rel_properties r)) ty)
             (relationships st)
  then st
  else mkStore (nodes st)
         (relationships st
          ++ [mkRelationship a b memory_type (mkRelation None None ty)])
         (tokens st).

(** [MATCH (from:Memory),(to:Memory)
     WHERE from.entityID = relation.from AND to.entityID = relation.to
     MERGE ...] for one relation; a comparison with a missing property
    matches nothing. *)
Definition merge_relation (st : Store) (r : Relation) : Store :=
  match from r, to r with
  | Some f, Some t =>
      let froms := filter (fun n => streq (name (properties n)) f) (nodes st) in
      let tos := filter (fun n => streq (name (properties n)) t) (nodes st) in
      fold_left (merge_relationship (relationType r))
        (list_prod froms tos) st
  | _, _ => st
  end.

(** [UNWIND $memoryGraph.relations as relation MATCH ... MERGE ...] *)
Definition merge_relations (rs : list Relation) (st : Store) : Store :=
  fold_left merge_relation rs st.

(** [MATCH (entity:Memory) WHERE entity.name IN $entityNames
     DETACH DELETE entity RETURN count(entity) as deletedCount] *)
Definition detach_delete (names : list jsstring) (st : Store) : Store * nat :=
  let doomed := filter (fun n => str_mem (name (properties n)) names)
                  (nodes st) in
  let ids := map node_id doomed in
  let gone (i : nat) := existsb (Nat.eqb i) ids in
  (mkStore
     (filter (fun n => negb (str_mem (name (properties n)) names)) (nodes st))
     (filter (fun r => negb (gone (rel_start r) || gone (rel_end r)))
        (relationships st))
     (tokens st),
   List.length doomed).

(* ================================================================== *)
(** * Effects: exceptions, the driver, the collaborators *)
(* ================================================================== *)

(** A thrown [Error]: its [message] and, for a store error, its [code]. *)
Record JsError := mkError {
  message : jsstring;
  code : option jsstring
}.

Inductive Result (A : Type) : Type :=
| Ok (a : A)
| Throw (e : JsError).
Arguments Ok {A} a.
Arguments Throw {A} e.

(** A generated statement: [{description, query}]. *)
Record GeneratedQuery := mkGenerated {
  description : jsstring;
  gquery : jsstring
}.

(** A candidate connection; [high_confidence] is [confidence > 0.7]. *)
Record Connection := mkConnection {
  existingOntology : jsstring;
  high_confidence : bool
}.

(** The JSON object found in an answer of the text generator, with the
    properties that the orchestrator reads. *)
Record LLMJson := mkJson {
  isRepresented : bool;
  representedBy : option (list jsstring);
  queries : option (list GeneratedQuery);
  connections : option (list Connection)
}.

(** An answer of [callLLM]: [{json, text}]; [fenced] is the [JSON.parse]
    of the block fenced as json in [text], when there is one and it
    parses. *)
Record LLMResponse := mkResponse {
  json : option LLMJson;
  text : option jsstring;
  fenced : option LLMJson
}.

(** [ontologyResponse.json || createDefaultOntology(subject)] *)
Inductive OntologyStructure : Type :=
| GeneratedStructure (j : LLMJson)
| DefaultOntology (subject : jsstring).

(** The value bound to a query parameter: a string, or the ontology
    structure handed over as JSON text. *)
Inductive ParamValue : Type :=
| PText (s : jsstring)
| PJson (o : OntologyStructure).

Definition Params := list (jsstring * ParamValue).

(** A record of a query result: a value per column, or per path into a
    column that holds an object. *)
Inductive Value : Type :=
| VText (s : jsstring)
| VNumber (n : nat).

Definition Row := list (jsstring * Value).

Fixpoint lookup {V : Type} (k : jsstring) (l : list (jsstring * V))
  : option V :=
  match l with
  | [] => None
  | (k', v) :: l' => if streq k' k then Some v else lookup k l'
  end.

(** What is sent to the store inside a unit of work. *)
Inductive Statement : Type :=
| LoadGraphStatement
| MergeEntitiesStatement (es : list Entity)
| MergeRelationsStatement (rs : list Relation)
| DetachDeleteStatement (names : list jsstring)
| CypherStatement (text : jsstring) (params : Params).

(** The instructions sent to the text generator, by purpose and by the
    values interpolated into them. *)
Inductive Prompt : Type :=
| ExistsPrompt (subject : jsstring) (existing : list Row)
| OntologyPrompt (subject : jsstring) (parent : option jsstring)
| CypherPrompt (structure : OntologyStructure) (securityNodeName : jsstring)
| ConnectionsPrompt (subject : jsstring) (existing : list Row)
| ConnectionsCypherPrompt (subject : jsstring) (candidates : list Connection)
    (securityNodeName : jsstring).

Inductive Event : Type :=
| SessionOpened (id : nat)
| SessionClosed (id : nat)
| Ran (write : bool) (stmt : Statement) (failed : bool)
| AskedLLM (p : Prompt).

(** Everything outside the program: the process environment, the
    failures of the backing store, what the Cypher engine does with a
    query text, the text generator, and the clock and random source
    behind [generateSecurityNodeName].  Each collaborator sees the
    history of the interaction so far. *)
Record Environment := mkEnv {
  NEO4J_UNSAFE_MEMORY_CYPHERS : option jsstring;
  ALLOW_CYPHER_QUERY_USER_INSISTS : option jsstring;
  store_fault : list Event -> Statement -> option JsError;
  cypher_engine : list Event -> jsstring -> Params -> Store
                  -> Store * list Row;
  text_generator : list Event -> Prompt -> Result LLMResponse;
  fresh_security_name : list Event -> jsstring
}.

Record World := mkWorld {
  store : Store;
  log : list Event
}.

(** A computation: it reads the environment, changes the world, and
    returns or throws. *)
Definition M (A : Type) : Type := Environment -> World -> Result A * World.

Definition ret {A : Type} (a : A) : M A := fun _ w => (Ok a, w).

Definition throw {A : Type} (e : JsError) : M A := fun _ w => (Throw e, w).

Definition bind {A B : Type} (m : M A) (k : A -> M B) : M B :=
  fun env w =>
    match m env w with
    | (Ok a, w') => k a env w'
    | (Throw e, w') => (Throw e, w')
    end.

Notation "x <- m ;; k" := (bind m (fun x => k))
  (at level 61, m at next level, right associativity).
Notation "m ;;; k" := (bind m (fun _ => k))
  (at level 61, right associativity).

(** [try { body } catch (error) { handler }] *)
Definition try_catch {A : Type} (body : M A) (handler : JsError -> M A)
  : M A :=
  fun env w =>
    match body env w with
    | (Ok a, w') => (Ok a, w')
    | (Throw e, w') => handler e env w'
    end.

(** [try { body } finally { finalizer }]: the finalizer runs on every
    outcome of the body, and an error of the finalizer replaces it. *)
Definition try_finally {A : Type} (body : M A) (finalizer : M unit) : M A :=
  fun env w =>
    match body env w with
    | (r, w1) =>
        match finalizer env w1 with
        | (Ok _, w2) => (r, w2)
        | (Throw e, w2) => (Throw e, w2)
        end
    end.

Definition record_event (e : Event) (w : World) : World :=
  mkWorld (store w) (log w ++ [e]).

(** [this.neo4jDriver.session({database})] *)
Definition session : M nat :=
  fun _ w =>
    let id := List.length (log w) in
    (Ok id, record_event (SessionOpened id) w).

(** [await session.close()], taken never to fail. *)
Definition session_close (id : nat) : M unit :=
  fun _ w => (Ok tt, record_event (SessionClosed id) w).

(** [tx.run(statement)]: the store fails the statement, or runs it. *)
Definition tx_run {A : Type} (write : bool) (stmt : Statement)
    (sem : Environment -> World -> Store * A) : M A :=
  fun env w =>
    match store_fault env (log w) stmt with
    | Some e => (Throw e, record_event (Ran write stmt true) w)
    | None =>
        let (st, a) := sem env w in
        (Ok a, mkWorld st (log w ++ [Ran write stmt false]))
    end.

(** A managed unit of work: committed when [work] returns, rolled back
    when it throws. *)
Definition transaction {A : Type} (write : bool) (work : bool -> M A)
  : M A :=
  fun env w =>
    match work write env w with
    | (Ok a, w') => (Ok a, w')
    | (Throw e, w') => (Throw e, mkWorld (store w) (log w'))
    end.

Definition executeRead {A : Type} (work : bool -> M A) : M A :=
  transaction false work.

Definition executeWrite {A : Type} (work : bool -> M A) : M A :=
  transaction true work.

(* ================================================================== *)
(** * neo4j-memory.js: class Neo4jMemory *)
(* ================================================================== *)

Definition loadGraph : M KnowledgeGraph :=
  s <- session ;;
  try_finally
    (try_catch
       (res <- executeRead (fun tx =>
                  tx_run tx LoadGraphStatement
                    (fun _ w => (store w, load_rows (store w)))) ;;
        ret (fold_left
               (fun kg row =>
                  mkGraph (entities kg ++ [fst row])
                          (relations kg ++ snd row))
               res (mkGraph [] [])))
       (fun error => throw error))
    (session_close s).

Definition saved_message : jsstring := lit "Graph saved successfully".

(** The session that [saveGraph] opens is used for the unit of work and
    is not mentioned again. *)
Definition saveGraph (graph : KnowledgeGraph) : M jsstring :=
  s <- session ;;
  try_catch
    (executeWrite (fun txc =>
       tx_run txc (MergeEntitiesStatement (entities graph))
         (fun _ w => (merge_entities (entities graph) (store w), tt)) ;;;
       tx_run txc (MergeRelationsStatement (relations graph))
         (fun _ w => (merge_relations (relations graph) (store w), tt)) ;;;
       ret saved_message))
    (fun error => throw error).

(** [observations] is a list in the model, so the step of
    [createEntities] that replaces a missing [observations] by [[]]
    leaves every entity as it is. *)
Definition createEntities (es : list Entity) : M (list Entity) :=
  graph <- loadGraph ;;
  let processedEntities := map (fun entity => entity) es in
  let newEntities :=
    filter (fun e =>
              negb (existsb (fun existingEntity =>
                               streq (name existingEntity) (name e))
                      (entities graph)))
      processedEntities in
  saveGraph (mkGraph (entities graph ++ newEntities) (relations graph)) ;;;
  ret newEntities.

Definition createRelations (rels : list Relation) : M (list Relation) :=
  graph <- loadGraph ;;
  let newRelations :=
    filter (fun r =>
              negb (existsb (fun existingRelation =>
                               same_relation existingRelation r)
                      (relations graph)))
      rels in
  saveGraph (mkGraph (entities graph) (relations graph ++ newRelations)) ;;;
  ret newRelations.

Record ObservationRequest := mkRequest {
  entityName : jsstring;
  contents : list jsstring
}.

Record ObservationResult := mkAdded {
  added_to : jsstring;
  addedObservations : list jsstring
}.

(** The first element that satisfies [p] is replaced by its image: the
    mutation of the object that [find] returned. *)
Fixpoint update_first (p : Entity -> bool) (f : Entity -> Entity)
    (l : list Entity) : list Entity :=
  match l with
  | [] => []
  | e :: l' => if p e then f e :: l' else e :: update_first p f l'
  end.

Definition not_found (entity_name : jsstring) : JsError :=
  mkError (lit "Entity with name " ++ entity_name ++ lit " not found") None.

(** The callback of [observations.map] in [addObservations], run over
    the requests in order on the loaded entities. *)
Fixpoint add_each (ents : list Entity) (reqs : list ObservationRequest)
  : Result (list Entity * list ObservationResult) :=
  match reqs with
  | [] => Ok (ents, [])
  | o :: rest =>
      let is_target := fun e => streq (name e) (entityName o) in
      match find is_target ents with
      | None => Throw (not_found (entityName o))
      | Some entity =>
          let newObservations :=
            filter (fun content =>
                      negb (str_mem content (observations entity)))
              (contents o) in
          let ents' :=
            update_first is_target
              (fun e => mkEntity (name e) (entityType e)
                          (observations e ++ newObservations))
              ents in
          match add_each ents' rest with
          | Ok (final, results) =>
              Ok (final, mkAdded (entityName o) newObservations :: results)
          | Throw e => Throw e
          end
      end
  end.

Definition addObservations (reqs : list ObservationRequest)
  : M (list ObservationResult) :=
  graph <- loadGraph ;;
  match add_each (entities graph) reqs with
  | Throw e => throw e
  | Ok (ents, results) =>
      saveGraph (mkGraph ents (relations graph)) ;;;
      ret results
  end.

Definition deleteEntities (entityNames : list jsstring) : M unit :=
  match entityNames with
  | [] => ret tt
  | _ :: _ =>
      s <- session ;;
      try_finally
        (try_catch
           (executeWrite (fun tx =>
              tx_run tx (DetachDeleteStatement entityNames)
                (fun _ w => detach_delete entityNames (store w))) ;;;
            ret tt)
           (fun error => throw error))
        (session_close s)
  end.

Definition deleteRelations (rels : list Relation) : M unit :=
  graph <- loadGraph ;;
  let kept :=
    filter (fun r => negb (existsb (fun delRelation =>
                                      same_relation r delRelation) rels))
      (relations graph) in
  saveGraph (mkGraph (entities graph) kept) ;;;
  ret tt.

(** The filter of [searchNodes]. *)
Definition matches_query (query : jsstring) (e : Entity) : bool :=
  includes (toLowerCase query) (toLowerCase (name e))
  || includes (toLowerCase query) (toLowerCase (entityType e))
  || existsb (fun o => includes (toLowerCase o) (toLowerCase query))
       (observations e).

(** [filteredEntityNames.has(x)], where [x] can be [undefined]. *)
Definition has_name (names : list jsstring) (x : option jsstring) : bool :=
  match x with
  | Some n => str_mem n names
  | None => false
  end.

Definition searchNodes (query : jsstring) : M KnowledgeGraph :=
  graph <- loadGraph ;;
  let filteredEntities := filter (matches_query query) (entities graph) in
  let filteredEntityNames := map name filteredEntities in
  let filteredRelations :=
    filter (fun r => has_name filteredEntityNames (from r)
                     && has_name filteredEntityNames (to r))
      (relations graph) in
  ret (mkGraph filteredEntities filteredRelations).

Definition createSecurityNode_query : jsstring := lit "
      CREATE (s:SecurityNode {
        name: $name,
        createdAt: datetime(),
        expiresAt: datetime() + duration({minutes: 5})
      })
      RETURN s
    ".

Definition removeSecurityNode_query : jsstring := lit "
      MATCH (s:SecurityNode {name: $name})
      DELETE s
      RETURN count(*) as nodesDeleted
    ".

(** What the store does with a query text in a unit of work.  The two
    statements of the security node act on the [SecurityNode] names when
    they run with write access and their parameter; every other text is
    left to the Cypher engine of the environment. *)
Definition run_cypher (write : bool) (query : jsstring) (params : Params)
    (env : Environment) (w : World) : Store * list Row :=
  let st := store w in
  match write, lookup (lit "name") params with
  | true, Some (PText n) =>
      if streq query createSecurityNode_query then
        (mkStore (nodes st) (relationships st) (tokens st ++ [n]),
         [[(lit "s.name", VText n)]])
      else if streq query removeSecurityNode_query then
        (mkStore (nodes st) (relationships st)
           (filter (fun t => negb (streq t n)) (tokens st)),
         [[(lit "nodesDeleted",
            VNumber (List.length (filter (fun t => streq t n) (tokens st))))]])
      else cypher_engine env (log w) query params st
  | _, _ => cypher_engine env (log w) query params st
  end.

(** The rows are taken as the engine of the model hands them out; the
    conversion of driver values into plain objects is not modelled. *)
Definition executeCypherQuery (query : jsstring) (params : Params)
    (isWrite : bool) : M (list Row) :=
  s <- session ;;
  try_finally
    (try_catch
       (result <-
          (if isWrite
           then executeWrite (fun tx =>
                  tx_run tx (CypherStatement query params)
                    (run_cypher tx query params))
           else executeRead (fun tx =>
                  tx_run tx (CypherStatement query params)
                    (run_cypher tx query params))) ;;
        ret result)
       (fun error => throw error))
    (session_close s).

Definition createSecurityNode (n : jsstring) : M (list Row) :=
  executeCypherQuery createSecurityNode_query [(lit "name", PText n)] true.

Definition removeSecurityNode (n : jsstring) : M (list Row) :=
  executeCypherQuery removeSecurityNode_query [(lit "name", PText n)] true.

(* ================================================================== *)
(** * tools/base-ontology.js *)
(* ================================================================== *)

(** A value used as a condition: a missing or empty string is falsy. *)
Definition truthy (x : option jsstring) : option jsstring :=
  match x with
  | Some [] => None
  | other => other
  end.

(** [parent.replace(/^\(BO\): /, '')] *)
Definition normalizeParentName (parent : jsstring) : jsstring :=
  if starts_with (lit "(BO): ") parent then skipn 6 parent else parent.

(** [await callLLM(prompt, context)] *)
Definition callLLM (p : Prompt) : M LLMResponse :=
  fun env w => (text_generator env (log w) p, record_event (AskedLLM p) w).

(** [generateSecurityNodeName()]: a name made from the clock and the
    random source. *)
Definition generateSecurityNodeName : M jsstring :=
  fun env w => (Ok (fresh_security_name env (log w)), w).

Definition existingOntologies_query : jsstring := lit "
      MATCH (bo:BaseOntology)
      RETURN bo
    ".

Definition otherOntologies_query : jsstring := lit "
      MATCH (bo:BaseOntology)
      WHERE bo.subject <> $subject
      RETURN bo
    ".

Definition parentCheck_query : jsstring :=
  lit "MATCH (p:BaseOntology {subject: $parentName}) RETURN p".

Definition parentLink_query : jsstring := lit "
        MATCH (security:SecurityNode {name: $securityNodeName})
        WITH security
        WHERE security IS NOT NULL
        MATCH (child:BaseOntology {subject: $subject})
        MATCH (parentBo:BaseOntology {subject: $parentName})
        MERGE (parentBo)-[:PARENT_OF]->(child)
        MERGE (child)-[:CHILD_OF]->(parentBo)
      ".

Record ExistsResult := mkExists {
  exists_ : bool;
  baseOntologies : list Row
}.

(** [o.bo.name || o.bo.subject] *)
Definition ontology_name (o : Row) : option jsstring :=
  match lookup (lit "bo.name") o with
  | Some (VText (c :: n)) => Some (c :: n)
  | _ =>
      match lookup (lit "bo.subject") o with
      | Some (VText n) => Some n
      | _ => None
      end
  end.

Definition checkBaseOntologyExists (subject : jsstring) : M ExistsResult :=
  try_catch
    (existingOntologies <-
       executeCypherQuery existingOntologies_query [] false ;;
     llmResponse <- callLLM (ExistsPrompt subject existingOntologies) ;;
     let result :=
       match json llmResponse with
       | Some j => j
       | None => mkJson false None None None
       end in
     ret (mkExists (isRepresented result)
            match representedBy result with
            | Some names =>
                filter (fun o => has_name names (ontology_name o))
                  existingOntologies
            | None => []
            end))
    (fun error => throw error).

(** The loop of [createBaseOntology] over the generated statements. *)
Fixpoint execute_generated (subject : jsstring)
    (ontologyStructure : OntologyStructure) (qs : list GeneratedQuery)
  : M (list (jsstring * list Row)) :=
  match qs with
  | [] => ret []
  | queryObj :: rest =>
      result <-
        executeCypherQuery (gquery queryObj)
          [(lit "subject", PText subject);
           (lit "ontologyStructureJson", PJson ontologyStructure)]
          true ;;
      results <- execute_generated subject ontologyStructure rest ;;
      ret ((description queryObj, result) :: results)
  end.

Definition createOntologyConnections (subject securityNodeName : jsstring)
  : M unit :=
  try_catch
    (existingOntologies <-
       executeCypherQuery otherOntologies_query
         [(lit "subject", PText subject)] false ;;
     match existingOntologies with
     | [] => ret tt
     | _ :: _ =>
         connectionsResponse <-
           callLLM (ConnectionsPrompt subject existingOntologies) ;;
         let found :=
           match json connectionsResponse with
           | Some j =>
               match connections j with Some cs => cs | None => [] end
           | None => []
           end in
         let highConfidenceConnections := filter high_confidence found in
         match highConfidenceConnections with
         | [] => ret tt
         | _ :: _ =>
             connectionsCypherResponse <-
               callLLM (ConnectionsCypherPrompt subject
                      highConfidenceConnections securityNodeName) ;;
             match truthy (text connectionsCypherResponse) with
             | Some connectionsQuery =>
                 if includes connectionsQuery (lit "MATCH")
                    && includes connectionsQuery (lit "CREATE")
                 then executeCypherQuery connectionsQuery
                        [(lit "subject", PText subject)] true ;;;
                      ret tt
                 else ret tt
             | None => ret tt
             end
         end
     end)
    (fun _ => ret tt).

Record CreationDetails := mkDetails {
  ontologyStructure : OntologyStructure;
  executionResults : list (jsstring * list Row)
}.

Definition createBaseOntology (subject : jsstring) (parent : option jsstring)
    (securityNodeName : jsstring) : M CreationDetails :=
  try_catch
    (ontologyResponse <-
       callLLM (OntologyPrompt subject
              (option_map normalizeParentName (truthy parent))) ;;
     let structure :=
       match json ontologyResponse with
       | Some j => GeneratedStructure j
       | None => DefaultOntology subject
       end in
     cypherResponse <- callLLM (CypherPrompt structure securityNodeName) ;;
     let parsedCypherResponse :=
       match json cypherResponse with
       | Some j => Some j
       | None =>
           match truthy (text cypherResponse) with
           | Some _ => fenced cypherResponse
           | None => None
           end
       end in
     let queriesToExecute :=
       match option_map queries parsedCypherResponse with
       | Some (Some qs) => qs
       | _ =>
           match option_map queries (json cypherResponse) with
           | Some (Some qs) => qs
           | _ => []
           end
       end in
     results <- execute_generated subject structure queriesToExecute ;;
     results' <-
       match truthy parent with
       | Some p =>
           relationshipResult <-
             executeCypherQuery parentLink_query
               [(lit "securityNodeName", PText securityNodeName);
                (lit "subject", PText subject);
                (lit "parentName", PText (normalizeParentName p))]
               true ;;
           ret (results
                ++ [(lit "Create parent-child relationship",
                     relationshipResult)])
       | None => ret results
       end ;;
     createOntologyConnections subject securityNodeName ;;;
     ret (mkDetails structure results'))
    (fun error => throw error).

Record OntologyArgs := mkOntologyArgs {
  subject : option jsstring;
  parent : option jsstring;
  force_it : bool
}.

(** The objects that [handleCreateBaseOntology] returns. *)
Inductive OntologyReply : Type :=
| MissingSubject
| ParentMissing (parent : jsstring)
| AlreadyRepresented (subject : jsstring) (found : list Row)
| Created (subject : jsstring) (details : CreationDetails)
| CreationFailed (message : jsstring).

(** [handleCreateBaseOntology] from the creation of the security node
    on. *)
Definition guarded_creation (subj : jsstring) (args : OntologyArgs)
  : M OntologyReply :=
  securityNodeName <- generateSecurityNodeName ;;
  createSecurityNode securityNodeName ;;;
  try_finally
    (existsResult <- checkBaseOntologyExists subj ;;
     if exists_ existsResult && negb (force_it args)
     then ret (AlreadyRepresented subj (baseOntologies existsResult))
     else
       createResult <-
         createBaseOntology subj (parent args) securityNodeName ;;
       ret (Created subj createResult))
    (removeSecurityNode securityNodeName ;;; ret tt).

Definition handleCreateBaseOntology (args : OntologyArgs) : M OntologyReply :=
  match truthy (subject args) with
  | None => ret MissingSubject
  | Some subj =>
      try_catch
        (match truthy (parent args) with
         | Some p =>
             parentResult <-
               executeCypherQuery parentCheck_query
                 [(lit "parentName", PText (normalizeParentName p))]
                 false ;;
             match parentResult with
             | [] => ret (ParentMissing p)
             | _ :: _ => guarded_creation subj args
             end
         | None => guarded_creation subj args
         end)
        (fun error =>
           ret (CreationFailed
                  (lit "Error creating Base Ontology: " ++ message error)))
  end.

(* ================================================================== *)
(** * The tool dispatcher: the case [safe_cypher_query] *)
(* ================================================================== *)

Record SafeCypherArgs := mkSafeArgs {
  query : jsstring;
  securityNodeName : option jsstring;
  params : option Params
}.

(** The payloads that the tool returns as text. *)
Inductive ToolResponse : Type :=
| SecurityRefusal (hasWriteOps : bool) (securityNodeName : option jsstring)
    (allowUnsafeQueries userInsists : bool)
| QueryResponse (result : list Row) (rowCount : nat) (queryType : jsstring)
    (note : option jsstring)
| ErrorResponse (error message code : jsstring).

(** [process.env.X === 'true'] *)
Definition is_true (v : option jsstring) : bool :=
  match v with
  | Some s => streq s (lit "true")
  | None => false
  end.

(** [args.params.force === 'true'], for a [params] that is there. *)
Definition force_is_true (p : Params) : bool :=
  match lookup (lit "force") p with
  | Some (PText v) => streq v (lit "true")
  | _ => false
  end.

(** The [TypeError] of reading a property of [undefined]. *)
Definition undefined_force : JsError :=
  mkError (lit "Cannot read properties of undefined (reading 'force')") None.

(** The first part of the handler: [user_insists]. *)
Definition read_user_insists (args : SafeCypherArgs) : M bool :=
  fun env w =>
    if is_true (ALLOW_CYPHER_QUERY_USER_INSISTS env)
    then match params args with
         | Some p => (Ok (force_is_true p), w)
         | None => (Throw undefined_force, w)
         end
    else (Ok false, w).

Definition not_found_note : jsstring :=
  lit "The write operation did not affect any records. This could be because the security node was not found or has expired.".

Definition no_effect_note : jsstring :=
  lit "The write operation completed but did not affect any records.".

Definition is_some {A : Type} (x : option A) : bool :=
  match x with Some _ => true | None => false end.

Definition safe_cypher_query (args : SafeCypherArgs) : M ToolResponse :=
  try_catch
    (fun env =>
       (let token := truthy (securityNodeName args) in
        let hasWriteOps := containsWriteOperations (query args) in
        let allowUnsafeQueries := is_true (NEO4J_UNSAFE_MEMORY_CYPHERS env) in
        user_insists <- read_user_insists args ;;
        if hasWriteOps && negb (is_some token) && negb allowUnsafeQueries
           && negb user_insists
        then ret (SecurityRefusal hasWriteOps token allowUnsafeQueries
                    user_insists)
        else
          let isWrite := hasWriteOps in
          let preparedQuery :=
            match token with
            | Some n =>
                if hasWriteOps && negb allowUnsafeQueries
                then wrapWithSecurityCheck (query args) n
                else query args
            | None => query args
            end in
          result <-
            executeCypherQuery preparedQuery
              match params args with Some p => p | None => [] end
              isWrite ;;
          let note :=
            if isWrite && (List.length result =? 0)
            then if is_some token && negb allowUnsafeQueries
                 then Some not_found_note
                 else Some no_effect_note
            else None in
          ret (QueryResponse result (List.length result)
                 (if hasWriteOps then lit "write" else lit "read")
                 note)) env)
    (fun error =>
       ret (ErrorResponse (lit "Error executing Cypher query")
              (message error)
              match truthy (code error) with
              | Some c => c
              | None => lit "UNKNOWN"
              end)).

(* ================================================================== *)
(** * Notions used to state the properties *)
(* ================================================================== *)

(** The events that a computation added to the log. *)
Definition new_events (w w' : World) : list Event :=
  skipn (List.length (log w)) (log w').

(** The sessions that a sequence of events leaves open. *)
Definition open_after (opened : list nat) (e : Event) : list nat :=
  match e with
  | SessionOpened id => opened ++ [id]
  | SessionClosed id => filter (fun i => negb (i =? id)) opened
  | _ => opened
  end.

Definition open_sessions (evs : list Event) : list nat :=
  fold_left open_after evs [].

(** The statement of [createSecurityNode] for the name [n], run with
    success, and the statement of [removeSecurityNode] for [n]. *)
Definition token_created (n : jsstring) : Event :=
  Ran true (CypherStatement createSecurityNode_query [(lit "name", PText n)])
    false.

Definition token_removal (n : jsstring) (failed : bool) : Event :=
  Ran true (CypherStatement removeSecurityNode_query [(lit "name", PText n)])
    failed.

(** The graph that [loadGraph] builds from a store. *)
Definition graph_of (st : Store) : KnowledgeGraph :=
  mkGraph (map properties (nodes st))
    (flat_map (fun n =>
                 map rel_properties
                   (filter (fun r => rel_start r =? node_id n)
                      (relationships st)))
       (nodes st)).

(** No entity of the stored graph lists an observation twice. *)
Definition no_duplicate_observations (st : Store) : Prop :=
  forall e, In e (entities (graph_of st)) -> NoDup (observations e).

(** A request to the adapter that adds entities or observations. *)
Inductive AdapterCall : Type :=
| CallCreateEntities (es : list Entity)
| CallAddObservations (reqs : list ObservationRequest).

Definition perform (c : AdapterCall) : M unit :=
  match c with
  | CallCreateEntities es => createEntities es ;;; ret tt
  | CallAddObservations reqs => addObservations reqs ;;; ret tt
  end.

(** The requests are served one after the other, whatever the outcome
    of each. *)
Fixpoint perform_all (cs : list AdapterCall) (env : Environment)
    (w : World) : World :=
  match cs with
  | [] => w
  | c :: cs' => perform_all cs' env (snd (perform c env w))
  end.

(** A request that itself repeats no observation. *)
Definition repeats_nothing (c : AdapterCall) : Prop :=
  match c with
  | CallCreateEntities es => Forall (fun e => NoDup (observations e)) es
  | CallAddObservations reqs => Forall (fun o => NoDup (contents o)) reqs
  end.

(** An environment in which the store never fails, the engine leaves
    the store alone and answers no row, and the text generator
    answers [answer]. *)
Definition quiet (answer : Prompt -> LLMResponse) : Environment :=
  mkEnv None None
    (fun _ _ => None)
    (fun _ _ _ st => (st, []))
    (fun _ p => Ok (answer p))
    (fun _ => lit "security-node-0").

Definition no_answer : Prompt -> LLMResponse :=
  fun _ => mkResponse None None None.

(** The reading of [searchNodes] in which a field matches when it
    contains the query or the query contains it, whatever the field. *)
Definition matches_either_way (q field : jsstring) : Prop :=
  Substring (toLowerCase field) (toLowerCase q)
  \/ Substring (toLowerCase q) (toLowerCase field).

Definition search_matches_either_way : Prop :=
  forall q env w loaded w1,
    loadGraph env w = (Ok loaded, w1) ->
    exists g,
      searchNodes q env w = (Ok g, w1) /\
      (forall e,
          In e (entities g) <->
          In e (entities loaded) /\
          (matches_either_way q (name e)
           \/ matches_either_way q (entityType e)
           \/ exists o, In o (observations e) /\ matches_either_way q o)) /\
      (forall r,
          In r (relations g) <->
          In r (relations loaded) /\
          (exists a, In a (entities g) /\ from r = Some (name a)) /\
          (exists b, In b (entities g) /\ to r = Some (name b))).

(** The reading of the invariant on observations in which it survives
    every sequence of requests. *)
Definition observations_never_duplicated : Prop :=
  forall env cs w,
    no_duplicate_observations (store w) ->
    no_duplicate_observations (store (perform_all cs env w)).

(** The reading of the ontology workflow in which a request refused
    because its subject exists has created no security node. *)
Definition token_issued_only_after_check : Prop :=
  forall args env w subj found,
    fst (handleCreateBaseOntology args env w)
    = Ok (AlreadyRepresented subj found) ->
    forall n,
      ~ In (token_created n)
          (new_events w (snd (handleCreateBaseOntology args env w))).

(** ** Sample inputs *)

Definition alice : Entity := mkEntity (lit "Alice") (lit "person") [].
Definition bob : Entity := mkEntity (lit "Bob") (lit "person") [].

Definition alice_likes_bob : Relation :=
  mkRelation (Some (lit "Alice")) (Some (lit "Bob")) (lit "LIKES").

(** Two entities and a relationship between them that carries its
    [from], [to] and [relationType]. *)
Definition liked_store : Store :=
  mkStore [mkNode 1 alice; mkNode 2 bob]
    [mkRelationship 1 2 memory_type alice_likes_bob] [].

(** An environment like [quiet] in which
    ALLOW_CYPHER_QUERY_USER_INSISTS is 'true'. *)
Definition insisting : Environment :=
  mkEnv None (Some (lit "true"))
    (fun _ _ => None)
    (fun _ _ _ st => (st, []))
    (fun _ p => Ok (no_answer p))
    (fun _ => lit "security-node-0").

(** A text generator that finds every subject represented. *)
Definition represented : Prompt -> LLMResponse :=
  fun _ => mkResponse (Some (mkJson true None None None)) None None.

(** A request for a base ontology on the subject AI, not forced. *)
Definition ai_request : OntologyArgs :=
  mkOntologyArgs (Some (lit "AI")) None false.

(** ** Devices of the proofs *)

(** The code unit before the position reached after reading [w] from a
    position whose previous code unit is [p]. *)
Fixpoint last_seen (p : option ascii) (w : jsstring) : option ascii :=
  match w with
  | [] => p
  | x :: w' => last_seen (Some x) w'
  end.

(** Entities none of which lists an observation twice. *)
Definition nodup_entities (es : list Entity) : Prop :=
  Forall (fun e => NoDup (observations e)) es.

(** In the environment [env], from a world that satisfies [P] the
    computation [m] ends, returning or throwing, in a world that
    satisfies [Q] with its outcome. *)
Definition hoare {A : Type} (env : Environment) (P : World -> Prop)
    (m : M A) (Q : Result A -> World -> Prop) : Prop :=
  forall w, P w -> Q (fst (m env w)) (snd (m env w)).

(** Every event that the computation [m] adds to the log satisfies
    [P], in every environment and from every world. *)
Definition emits {A : Type} (P : Event -> Prop) (m : M A) : Prop :=
  forall env w,
    exists evs, log (snd (m env w)) = log w ++ evs /\ Forall P evs.

(** An event that is not the creation of a security node. *)
Definition foreign (e : Event) : Prop :=
  forall n, e <> token_created n.

(* ================================================================== *)
(** * neo4j-memory.js: the remaining operations *)
(* ================================================================== *)

Definition readGraph : M KnowledgeGraph := loadGraph.

Definition openNodes (names : list jsstring) : M KnowledgeGraph :=
  graph <- loadGraph ;;
  let filteredEntities :=
    filter (fun e => str_mem (name e) names) (entities graph) in
  let filteredEntityNames := map name filteredEntities in
  let filteredRelations :=
    filter (fun r => has_name filteredEntityNames (from r)
                     && has_name filteredEntityNames (to r))
      (relations graph) in
  ret (mkGraph filteredEntities filteredRelations).

(** A request of [deleteObservations]: [{entityName, observations}]. *)
Record DeletionRequest := mkDeletion {
  deletion_entity : jsstring;
  deletion_observations : list jsstring
}.

(** [list.indexOf(x)]; [None] is -1. *)
Fixpoint indexOf (x : jsstring) (l : list jsstring) : option nat :=
  match l with
  | [] => None
  | y :: l' => if streq y x then Some 0 else option_map S (indexOf x l')
  end.

(** The indices pushed by the inner [forEach] of [deleteObservations],
    all of them taken in the list as it is before any removal. *)
Definition indicesToRemove (obs requested : list jsstring) : list nat :=
  flat_map (fun obsToDelete =>
              match indexOf obsToDelete obs with
              | Some index => [index]
              | None => []
              end)
    requested.

(** [indicesToRemove.sort((a, b) => b - a)] *)
Fixpoint insert_desc (i : nat) (l : list nat) : list nat :=
  match l with
  | [] => [i]
  | j :: l' => if j <=? i then i :: l else j :: insert_desc i l'
  end.

Definition sort_desc (l : list nat) : list nat :=
  fold_right insert_desc [] l.

(** [list.splice(index, 1)] *)
Fixpoint splice_one (index : nat) (l : list jsstring) : list jsstring :=
  match l with
  | [] => []
  | x :: l' =>
      match index with
      | 0 => l'
      | S i => x :: splice_one i l'
      end
  end.

(** What one request does to the observations of its entity. *)
Definition remove_observations (obs requested : list jsstring)
  : list jsstring :=
  fold_left (fun l index => splice_one index l)
    (sort_desc (indicesToRemove obs requested)) obs.

(** The callback of [deletions.forEach], run over the requests in order
    on the loaded entities; a request for an entity that is not there
    changes nothing. *)
Fixpoint delete_each (ents : list Entity) (ds : list DeletionRequest)
  : list Entity :=
  match ds with
  | [] => ents
  | d :: rest =>
      delete_each
        (update_first (fun e => streq (name e) (deletion_entity d))
           (fun e => mkEntity (name e) (entityType e)
                       (remove_observations (observations e)
                          (deletion_observations d)))
           ents)
        rest
  end.

Definition deleteObservations (deletions : list DeletionRequest) : M unit :=
  graph <- loadGraph ;;
  saveGraph (mkGraph (delete_each (entities graph) deletions)
               (relations graph)) ;;;
  ret tt.

(** ** More sample inputs *)

(** Alice and Bob, not related. *)
Definition two_nodes : Store := mkStore [mkNode 1 alice; mkNode 2 bob] [] [].

(** The name of a Memory node. *)
Definition node_name (n : MemoryNode) : jsstring := name (properties n).

(** The entity [e'] is the entity [e] with observations appended. *)
Definition grows (e e' : Entity) : Prop :=
  name e' = name e /\ entityType e' = entityType e /\
  exists extra, observations e' = observations e ++ extra.

(** The nodes [ns] with the entities [es] as their properties, one by
    one. *)
Definition write_back (ns : list MemoryNode) (es : list Entity)
  : list MemoryNode :=
  map (fun p => mkNode (node_id (fst p)) (snd p)) (combine ns es).

(** The observations of the entity named [s] that the requests [ds]
    ask to delete are those for which this answers true. *)
Definition asked_to_delete (ds : list DeletionRequest) (s o : jsstring)
  : bool :=
  existsb (fun d => streq (deletion_entity d) s
                    && str_mem o (deletion_observations d)) ds.

(** The statements that a sequence of events sent to the store, each
    with the mode of its transaction and with whether the store failed
    it. *)
Definition statements_sent (evs : list Event)
  : list (bool * Statement * bool) :=
  flat_map (fun e => match e with
                     | Ran write stmt failed => [(write, stmt, failed)]
                     | _ => []
                     end) evs.

(** The statement that [createBaseOntology] sends for a generated
    query. *)
Definition generated_statement (subj : jsstring) (o : OntologyStructure)
    (q : GeneratedQuery) : Statement :=
  CypherStatement (gquery q)
    [(lit "subject", PText subj); (lit "ontologyStructureJson", PJson o)].

(** A store that fails every statement with the same error. *)
Definition unreachable : Environment :=
  mkEnv None None
    (fun _ _ => Some (mkError (lit "down") (Some (lit "E1"))))
    (fun _ _ _ st => (st, []))
    (fun _ p => Ok (no_answer p))
    (fun _ => lit "security-node-0").

(** A request for a base ontology on AI under a parent, and the same
    request forced. *)
Definition ai_under_science : OntologyArgs :=
  mkOntologyArgs (Some (lit "AI")) (Some (lit "(BO): Science")) false.

Definition ai_forced : OntologyArgs :=
  mkOntologyArgs (Some (lit "AI")) None true.

(* ================================================================== *)
(** * utils/uuid-utils.js *)
(* ================================================================== *)

Module uuid_utils.

(** [v.toString(16)] *)
Definition toString16 (v : nat) : jsstring :=
  lit (HexadecimalString.NilZero.string_of_uint (Nat.to_hex_uint v)).

(** The callback of [replace], for the character [c] of the template;
    [r] is the value of [Math.random() * 16 | 0]. *)
Definition replacement (c : ascii) (r : nat) : jsstring :=
  let v := if Ascii.eqb c "x" then r else Nat.lor (Nat.land r 3) 8 in
  toString16 v.

(** [template.replace(/[xy]/g, callback)]: the callback is called for
    each x and y from left to right; [draw k] is the value of
    [Math.random() * 16 | 0] at the call number [k]. *)
Fixpoint replace_xy (template : jsstring) (draw : nat -> nat) (k : nat)
  : jsstring :=
  match template with
  | [] => []
  | c :: rest =>
      if Ascii.eqb c "x" || Ascii.eqb c "y"
      then replacement c (draw k) ++ replace_xy rest draw (S k)
      else c :: replace_xy rest draw k
  end.

Definition generateUUID (draw : nat -> nat) : jsstring :=
  replace_xy (lit "xxxxxxxx-xxxx-4xxx-yxxx-xxxxxxxxxxxx") draw 0.

(** [`security-node-${Date.now()}-${generateUUID()}`]; [now] is the
    value of [Date.now()]. *)
Definition generateSecurityNodeName (now : N) (draw : nat -> nat)
  : jsstring :=
  lit "security-node-"
  ++ lit (DecimalString.NilZero.string_of_uint (N.to_uint now))
  ++ lit "-" ++ generateUUID draw.

End uuid_utils.

(** A digit, a letter from a to z, or a hyphen. *)
Definition plain_char (c : ascii) : bool :=
  in_range 48 57 c || in_range 97 122 c || (nat_of_ascii c =? 45).

(** The one character that the callback of [generateUUID] returns for a
    value below 16. *)
Definition digit_for (c : ascii) (r : nat) : ascii :=
  hd " "%char (uuid_utils.replacement c r).

(** The template with one character for each x and y. *)
Fixpoint fill (template : jsstring) (draw : nat -> nat) (k : nat)
  : jsstring :=
  match template with
  | [] => []
  | c :: rest =>
      if Ascii.eqb c "x" || Ascii.eqb c "y"
      then digit_for c (draw k) :: fill rest draw (S k)
      else c :: fill rest draw k
  end.

(** A random source that always draws 10, and a time. *)
Definition always_ten : nat -> nat := fun _ => 10.

Definition some_time : N := 1730505600000%N.

(* ================================================================== *)
(** * Theorems *)
(* ================================================================== *)

(** ** Strings *)

Lemma streq_true (a b : jsstring) : streq a b = true <-> a = b.
Proof.
  unfold streq. destruct (jsstring_dec a b); split; congruence.
Qed.

Lemma streq_refl (a : jsstring) : streq a a = true.
Proof. now apply streq_true. Qed.

(** ** The classifier *)

Lemma canonicalize_word (c : ascii) :
  is_word_char (canonicalize c) = is_word_char c.
Proof.
  destruct c as [[] [] [] [] [] [] [] []]; reflexivity.
Qed.

Lemma last_seen_app (p : option ascii) (u v : jsstring) :
  last_seen p (u ++ v) = last_seen (last_seen p u) v.
Proof.
  revert p. induction u as [|x u IH]; intros p; simpl; auto.
Qed.

Lemma ends_in_word_last_seen (s : jsstring) :
  word_before (last_seen None s) = ends_in_word s.
Proof.
  unfold ends_in_word.
  destruct s as [|x s] using rev_ind; [reflexivity|].
  rewrite last_seen_app, rev_app_distr. reflexivity.
Qed.

Lemma rmatch_literal (k : jsstring) :
  forall p s q,
    In q (rmatch (literal k) p s) <->
    exists w, s = w ++ snd q /\ same_ignoring_case w k /\
              fst q = last_seen p w.
Proof.
  unfold same_ignoring_case.
  induction k as [|c k IH]; intros p s q; simpl.
  - split.
    + intros [<-|[]]. exists []. auto.
    + intros (w & Hs & Hw & Hq). destruct w; [|discriminate].
      left. destruct q; simpl in *; subst; reflexivity.
  - destruct s as [|x xs]; simpl.
    + split; [intros []|].
      intros (w & Hs & Hw & _). destruct w; discriminate.
    + destruct (Ascii.eqb (canonicalize x) (canonicalize c)) eqn:E; simpl.
      * rewrite app_nil_r, IH. apply Ascii.eqb_eq in E.
        split.
        -- intros (w & Hs & Hw & Hq). exists (x :: w); simpl.
           repeat split; congruence.
        -- intros (w & Hs & Hw & Hq). destruct w as [|y w]; [discriminate|].
           simpl in *. injection Hs as -> ->. injection Hw as _ Hw.
           exists w. auto.
      * split; [intros []|].
        intros (w & Hs & Hw & _). destruct w as [|y w]; [discriminate|].
        simpl in *. injection Hs as -> ->. injection Hw as Hc _.
        apply Ascii.eqb_neq in E. contradiction.
Qed.

Lemma rmatch_alternation (ws : list jsstring) :
  ws <> [] ->
  forall p s q,
    In q (rmatch (alternation ws) p s) <->
    exists w, In w ws /\ In q (rmatch (literal w) p s).
Proof.
  induction ws as [|w ws IH]; [congruence|]. intros _ p s q.
  destruct ws as [|w' ws].
  - simpl. split.
    + intros H. exists w. auto.
    + intros (w0 & [<-|[]] & H). exact H.
  - change (alternation (w :: w' :: ws))
      with (Alt (literal w) (alternation (w' :: ws))).
    cbn [rmatch]. rewrite in_app_iff, IH by discriminate.
    split.
    + intros [H|(w0 & Hin & H)].
      * exists w. split; [left; reflexivity|exact H].
      * exists w0. split; [right; exact Hin|exact H].
    + intros (w0 & [<-|Hin] & H); [left; exact H|].
      right. exists w0. auto.
Qed.

Lemma search_spec (r : regex) :
  forall s p,
    search r p s = true <->
    exists pre rest, s = pre ++ rest /\ rmatch r (last_seen p pre) rest <> [].
Proof.
  induction s as [|x xs IH]; intros p; simpl.
  - destruct (rmatch r p []) eqn:E.
    + split; [discriminate|].
      intros (pre & rest & Hs & Hm). symmetry in Hs.
      apply app_eq_nil in Hs as [-> ->]. simpl in Hm. congruence.
    + split; [|reflexivity]. intros _. exists [], []. simpl.
      split; [reflexivity|congruence].
  - destruct (rmatch r p (x :: xs)) eqn:E.
    + rewrite IH. split.
      * intros (pre & rest & Hs & Hm). exists (x :: pre), rest.
        simpl. split; [congruence|exact Hm].
      * intros (pre & rest & Hs & Hm). destruct pre as [|y pre].
        -- simpl in *. subst rest. congruence.
        -- simpl in *. injection Hs as -> ->. exists pre, rest. auto.
    + split; [|reflexivity]. intros _. exists [], (x :: xs). simpl.
      split; [reflexivity|congruence].
Qed.

Lemma same_case_word (w k : jsstring) :
  same_ignoring_case w k ->
  forallb is_word_char k = true -> forallb is_word_char w = true.
Proof.
  unfold same_ignoring_case. revert k.
  induction w as [|x w IH]; intros [|c k] H Hk; try discriminate; auto.
  simpl in *. injection H as Hx Hw.
  apply andb_true_iff in Hk as [Hc Hk].
  apply andb_true_iff. split; [|eauto].
  now rewrite <- canonicalize_word, Hx, canonicalize_word.
Qed.

Lemma same_case_nonempty (w k : jsstring) :
  same_ignoring_case w k -> k <> [] -> w <> [].
Proof.
  unfold same_ignoring_case. intros H Hk ->. destruct k; simpl in *; congruence.
Qed.

Lemma word_after_app (w post : jsstring) :
  w <> [] -> forallb is_word_char w = true -> word_after (w ++ post) = true.
Proof.
  destruct w as [|x w]; [congruence|]. simpl. intros _ H.
  now apply andb_true_iff in H as [H _].
Qed.

Lemma word_before_last_seen (p : option ascii) (w : jsstring) :
  w <> [] -> forallb is_word_char w = true ->
  word_before (last_seen p w) = true.
Proof.
  revert p. induction w as [|x w IH]; [congruence|]. intros p _ H.
  simpl in *. apply andb_true_iff in H as [Hx Hw].
  destruct w as [|y w]; [exact Hx|]. apply IH; [discriminate|exact Hw].
Qed.

Lemma writeOperators_words :
  forall op, In op writeOperators ->
             op <> [] /\ forallb is_word_char op = true.
Proof.
  intros op H. simpl in H.
  repeat (destruct H as [<-|H]; [split; [discriminate|reflexivity]|]).
  destruct H.
Qed.

Lemma rmatch_cat (r1 r2 : regex) (p : option ascii) (s : jsstring) :
  rmatch (Cat r1 r2) p s =
  flat_map (fun q => rmatch r2 (fst q) (snd q)) (rmatch r1 p s).
Proof. reflexivity. Qed.

Lemma rmatch_boundary (p : option ascii) (s : jsstring) :
  rmatch WordBoundary p s =
  if xorb (word_before p) (word_after s) then [(p, s)] else [].
Proof. reflexivity. Qed.

Lemma nonempty_has_member (A : Type) (l : list A) :
  l <> [] <-> exists x, In x l.
Proof.
  destruct l as [|x l]; split.
  - congruence.
  - intros [x []].
  - intros _. exists x. left. reflexivity.
  - discriminate.
Qed.

Lemma write_regex_at (p : option ascii) (rest : jsstring) :
  rmatch write_regex p rest <> [] <->
  exists w post op,
    rest = w ++ post /\ In op writeOperators /\ same_ignoring_case w op /\
    word_before p = false /\ word_after post = false.
Proof.
  unfold write_regex. rewrite nonempty_has_member. split.
  - intros (e & He).
    rewrite rmatch_cat in He. apply in_flat_map in He as (q0 & Hq0 & He).
    rewrite rmatch_boundary in Hq0.
    destruct (xorb (word_before p) (word_after rest)) eqn:B; [|destruct Hq0].
    destruct Hq0 as [<-|[]]. cbn [fst snd] in He.
    rewrite rmatch_cat in He. apply in_flat_map in He as (q & Hq & He).
    apply rmatch_alternation in Hq as (op & Hop & Hq); [|discriminate].
    apply rmatch_literal in Hq as (w & Hs & Hw & Hf).
    destruct (writeOperators_words _ Hop) as [Hne Hwd].
    pose proof (same_case_nonempty _ _ Hw Hne) as Hwne.
    pose proof (same_case_word _ _ Hw Hwd) as Hww.
    rewrite rmatch_boundary in He.
    destruct (xorb (word_before (fst q)) (word_after (snd q))) eqn:B2;
      [|destruct He].
    exists w, (snd q), op. repeat split; auto.
    + rewrite Hs, (word_after_app _ _ Hwne Hww) in B.
      destruct (word_before p); [discriminate|reflexivity].
    + rewrite Hf, (word_before_last_seen p _ Hwne Hww) in B2.
      destruct (word_after (snd q)); [discriminate|reflexivity].
  - intros (w & post & op & Hs & Hop & Hw & Hp & Hpost).
    destruct (writeOperators_words _ Hop) as [Hne Hwd].
    pose proof (same_case_nonempty _ _ Hw Hne) as Hwne.
    pose proof (same_case_word _ _ Hw Hwd) as Hww.
    subst rest. exists (last_seen p w, post).
    rewrite rmatch_cat. apply in_flat_map. exists (p, w ++ post). split.
    { rewrite rmatch_boundary, Hp, (word_after_app _ _ Hwne Hww).
      left. reflexivity. }
    cbn [fst snd]. rewrite rmatch_cat. apply in_flat_map.
    exists (last_seen p w, post). split.
    + apply rmatch_alternation; [discriminate|]. exists op. split; auto.
      apply rmatch_literal. exists w. auto.
    + cbn [fst snd]. rewrite rmatch_boundary.
      rewrite (word_before_last_seen p _ Hwne Hww), Hpost. left. reflexivity.
Qed.

(** C3.  [containsWriteOperations] answers true exactly on the queries
    in which one of CREATE, SET, DELETE, REMOVE, MERGE occurs, in any
    letter case, with no word character directly before or after it;
    and it classifies the three queries of the specification as read,
    write and read. *)
Theorem containsWriteOperations_standalone_token :
  (forall q, containsWriteOperations q = true <-> standalone_write_token q)
  /\ containsWriteOperations (lit "MATCH (n) RETURN n") = false
  /\ containsWriteOperations (lit "MERGE (n:X) RETURN n") = true
  /\ containsWriteOperations
       (lit "MATCH (n) WHERE n.name='CREATEfoo' RETURN n") = false.
Proof.
  split; [|repeat split; reflexivity].
  intros q. unfold containsWriteOperations, regex_test, standalone_write_token.
  rewrite search_spec. split.
  - intros (pre & rest & Hq & Hm).
    apply write_regex_at in Hm as (w & post & op & Hr & Hop & Hw & Hp & Hpost).
    exists pre, w, post, op. subst. repeat split; auto.
    now rewrite <- ends_in_word_last_seen.
  - intros (pre & w & post & op & Hq & Hop & Hw & Hp & Hpost).
    exists pre, (w ++ post). split; [exact Hq|].
    apply write_regex_at. exists w, post, op. repeat split; auto.
    now rewrite ends_in_word_last_seen.
Qed.

(** ** The effect combinators *)

Ltac unfold_m :=
  unfold bind, ret, throw, try_catch, try_finally, session, session_close,
    executeRead, executeWrite, transaction, tx_run, record_event, callLLM in *.

Lemma new_events_app (w w' : World) (evs : list Event) :
  log w' = log w ++ evs -> new_events w w' = evs.
Proof.
  intros H. unfold new_events. rewrite H.
  rewrite skipn_app, skipn_all, Nat.sub_diag. reflexivity.
Qed.

(** ** The driver calls of the adapter *)

(** [executeCypherQuery]: one session, one statement, in every case. *)
Lemma executeCypherQuery_spec (q : jsstring) (ps : Params) (wr : bool)
    (env : Environment) (w : World) :
  let id := List.length (log w) in
  let stmt := CypherStatement q ps in
  (exists e,
      store_fault env (log w ++ [SessionOpened id]) stmt = Some e /\
      executeCypherQuery q ps wr env w =
      (Throw e,
       mkWorld (store w)
         (log w ++ [SessionOpened id; Ran wr stmt true; SessionClosed id])))
  \/
  (store_fault env (log w ++ [SessionOpened id]) stmt = None /\
   executeCypherQuery q ps wr env w =
   (Ok (snd (run_cypher wr q ps env (record_event (SessionOpened id) w))),
    mkWorld (fst (run_cypher wr q ps env (record_event (SessionOpened id) w)))
      (log w ++ [SessionOpened id; Ran wr stmt false; SessionClosed id]))).
Proof.
  cbv zeta. unfold executeCypherQuery. unfold_m.
  destruct wr; cbn [log store];
    (destruct (store_fault env
                 (log w ++ [SessionOpened (List.length (log w))])
                 (CypherStatement q ps)) as [e|] eqn:F;
     [ left; exists e; split; [reflexivity|];
       cbn [log store]; rewrite <- !app_assoc; reflexivity
     | right; split; [reflexivity|];
       destruct (run_cypher _ q ps env _) as [st rows];
       cbn [log store fst snd]; rewrite <- !app_assoc; reflexivity ]).
Qed.

Lemma open_sessions_bracket (id : nat) (evs : list Event) :
  (forall e, In e evs -> exists wr stmt failed, e = Ran wr stmt failed) ->
  open_sessions ([SessionOpened id] ++ evs ++ [SessionClosed id]) = [] /\
  open_sessions ([SessionOpened id] ++ evs) = [id].
Proof.
  intros H. unfold open_sessions. cbn [app fold_left open_after].
  assert (K : fold_left open_after evs [id] = [id]).
  { induction evs as [|e evs IH]; [reflexivity|].
    destruct (H e (or_introl eq_refl)) as (wr & stmt & failed & ->).
    cbn [fold_left open_after]. apply IH. intros e' He'. apply H. now right. }
  split; [|exact K].
  rewrite fold_left_app, K. cbn [fold_left open_after filter].
  now rewrite Nat.eqb_refl.
Qed.

Lemma executeCypherQuery_closes_session (q : jsstring) (ps : Params)
    (wr : bool) (env : Environment) (w : World) :
  open_sessions (new_events w (snd (executeCypherQuery q ps wr env w))) = [].
Proof.
  destruct (executeCypherQuery_spec q ps wr env w)
    as [(e & _ & ->)|(_ & ->)]; cbn [snd];
    (erewrite new_events_app by (cbn [log]; reflexivity));
    apply (open_sessions_bracket _ [_]);
    intros e' [<-|[]]; eauto.
Qed.

(** [loadGraph]: the store is left as it is, and the graph is the one
    of the store unless the store fails the statement. *)
Lemma loadGraph_spec (env : Environment) (w : World) :
  let id := List.length (log w) in
  (exists e,
      loadGraph env w =
      (Throw e,
       mkWorld (store w)
         (log w ++ [SessionOpened id; Ran false LoadGraphStatement true;
                    SessionClosed id])))
  \/
  loadGraph env w =
  (Ok (fold_left
         (fun kg row =>
            mkGraph (entities kg ++ [fst row]) (relations kg ++ snd row))
         (load_rows (store w)) (mkGraph [] [])),
   mkWorld (store w)
     (log w ++ [SessionOpened id; Ran false LoadGraphStatement false;
                SessionClosed id])).
Proof.
  cbv zeta. unfold loadGraph. unfold_m. cbn [log store].
  destruct (store_fault env
              (log w ++ [SessionOpened (List.length (log w))])
              LoadGraphStatement) as [e|].
  - left. exists e. cbn [log store]. rewrite <- !app_assoc. reflexivity.
  - right. cbn [log store]. rewrite <- !app_assoc. reflexivity.
Qed.

Lemma loadGraph_closes_session (env : Environment) (w : World) :
  open_sessions (new_events w (snd (loadGraph env w))) = [].
Proof.
  destruct (loadGraph_spec env w) as [(e & ->)| ->]; cbn [snd];
    (erewrite new_events_app by (cbn [log]; reflexivity));
    apply (open_sessions_bracket _ [_]);
    intros e' [<-|[]]; eauto.
Qed.

Lemma deleteEntities_closes_session (names : list jsstring)
    (env : Environment) (w : World) :
  open_sessions (new_events w (snd (deleteEntities names env w))) = [].
Proof.
  destruct names as [|n names].
  - cbn. unfold new_events. now rewrite skipn_all.
  - unfold deleteEntities. unfold_m. cbn [log store].
    destruct (store_fault env _ _) as [e|].
    + cbn [log store snd].
      erewrite new_events_app by (cbn [log]; rewrite <- !app_assoc; reflexivity).
      apply (open_sessions_bracket _ [_]). intros e' [<-|[]]; eauto.
    + destruct (detach_delete _ _) as [st k]. cbn [log store snd].
      erewrite new_events_app by (cbn [log]; rewrite <- !app_assoc; reflexivity).
      apply (open_sessions_bracket _ [_]). intros e' [<-|[]]; eauto.
Qed.

(** [saveGraph]: both statements take effect, or none does. *)
Lemma saveGraph_spec (g : KnowledgeGraph) (env : Environment) (w : World) :
  let id := List.length (log w) in
  exists evs,
    (forall e, In e evs -> exists wr stmt failed, e = Ran wr stmt failed) /\
    ((exists e,
         saveGraph g env w =
         (Throw e, mkWorld (store w) (log w ++ [SessionOpened id] ++ evs)))
     \/
     saveGraph g env w =
     (Ok saved_message,
      mkWorld (merge_relations (relations g)
                 (merge_entities (entities g) (store w)))
        (log w ++ [SessionOpened id] ++ evs))).
Proof.
  cbv zeta. unfold saveGraph. unfold_m. cbn [log store].
  destruct (store_fault env _ (MergeEntitiesStatement _)) as [e|].
  - eexists [_]. split; [intros e' [<-|[]]; eauto|].
    left. exists e. cbn [log store]. rewrite <- !app_assoc. reflexivity.
  - cbn [log store].
    destruct (store_fault env _ (MergeRelationsStatement _)) as [e|].
    + eexists [_; _]. split; [intros e' [<-|[<-|[]]]; eauto|].
      left. exists e. cbn [log store]. rewrite <- !app_assoc. reflexivity.
    + eexists [_; _]. split; [intros e' [<-|[<-|[]]]; eauto|].
      right. cbn [log store]. rewrite <- !app_assoc. reflexivity.
Qed.

(** C5.  On every path of [saveGraph], whatever the store answers, the
    session that [saveGraph] opened is still open when it returns or
    throws: the operation never closes it. *)
Theorem saveGraph_leaves_session_open :
  forall (g : KnowledgeGraph) (env : Environment) (w : World),
    open_sessions (new_events w (snd (saveGraph g env w)))
    = [List.length (log w)].
Proof.
  intros g env w.
  destruct (saveGraph_spec g env w) as (evs & Hevs & [(e & ->)| ->]);
    cbn [snd];
    (erewrite new_events_app by (cbn [log]; reflexivity));
    apply (open_sessions_bracket _ evs Hevs).
Qed.

(** ** The tool [safe_cypher_query] *)



(** C10.  While ALLOW_CYPHER_QUERY_USER_INSISTS is 'true', a call
    without params, whatever its query, returns the payload
    'Error executing Cypher query' with the message of the TypeError
    and the code UNKNOWN; the write policy is not consulted and nothing
    is sent to the store. *)
Theorem safe_cypher_query_without_params_fails :
  forall (args : SafeCypherArgs) (env : Environment) (w : World),
    is_true (ALLOW_CYPHER_QUERY_USER_INSISTS env) = true ->
    params args = None ->
    safe_cypher_query args env w
    = (Ok (ErrorResponse (lit "Error executing Cypher query")
             (lit "Cannot read properties of undefined (reading 'force')")
             (lit "UNKNOWN")),
       w).
Proof.
  intros args env w Ha Hp.
  unfold safe_cypher_query, read_user_insists. unfold_m.
  rewrite Ha, Hp. reflexivity.
Qed.

Lemma safe_cypher_query_without_params_fails_witness :
  safe_cypher_query
    (mkSafeArgs (lit "MATCH (n:Memory) RETURN n.name LIMIT 5") None None)
    insisting
    (mkWorld empty_store [])
  = (Ok (ErrorResponse (lit "Error executing Cypher query")
           (lit "Cannot read properties of undefined (reading 'force')")
           (lit "UNKNOWN")),
     mkWorld empty_store []).
Proof.
  apply safe_cypher_query_without_params_fails; reflexivity.
Defined.

(** ** The security check wrapped around a query *)

(** [wrapWithSecurityCheck] puts the name, as it is, between two double
    quotes of a fixed text, and the query, as it is, after it. *)
Lemma wrapWithSecurityCheck_text :
  forall q n,
    wrapWithSecurityCheck q n
    = (newline
       ++ lit "    // Security check to ensure only authorized operations are performed"
       ++ newline
       ++ lit "    MATCH (security:SecurityNode {name: " ++ [ascii_of_nat 34])
      ++ n
      ++ ([ascii_of_nat 34] ++ lit "})" ++ newline
          ++ lit "    WITH security" ++ newline
          ++ lit "    WHERE security IS NOT NULL" ++ newline
          ++ lit "    // Original query follows" ++ newline
          ++ lit "    ")
      ++ q
      ++ newline ++ lit "  ".
Proof.
  intros q n. unfold wrapWithSecurityCheck.
  rewrite <- !app_assoc. reflexivity.
Qed.

(** ** The statements of the adapter on the store *)

Lemma load_fold (rows : list (Entity * list Relation)) :
  forall es rs,
    fold_left
      (fun kg row =>
         mkGraph (entities kg ++ [fst row]) (relations kg ++ snd row))
      rows (mkGraph es rs)
    = mkGraph (es ++ map fst rows) (rs ++ flat_map snd rows).
Proof.
  induction rows as [|row rows IH]; intros es rs; cbn [fold_left map flat_map].
  - now rewrite !app_nil_r.
  - rewrite IH. cbn [entities relations].
    now rewrite <- !app_assoc.
Qed.

Lemma load_rows_graph (st : Store) :
  fold_left
    (fun kg row =>
       mkGraph (entities kg ++ [fst row]) (relations kg ++ snd row))
    (load_rows st) (mkGraph [] [])
  = graph_of st.
Proof.
  rewrite load_fold. unfold graph_of, load_rows. cbn [app]. f_equal.
  - rewrite map_map. reflexivity.
  - induction (nodes st) as [|n ns IH]; [reflexivity|].
    cbn [map flat_map fst snd]. now rewrite IH.
Qed.

(** What [loadGraph] returns and leaves behind. *)
Lemma loadGraph_result (env : Environment) (w : World) :
  store (snd (loadGraph env w)) = store w /\
  (forall g, fst (loadGraph env w) = Ok g -> g = graph_of (store w)).
Proof.
  destruct (loadGraph_spec env w) as [(e & ->)| ->]; cbn [fst snd store];
    split; try reflexivity.
  - discriminate.
  - intros g [= <-]. apply load_rows_graph.
Qed.

Lemma saveGraph_store (g : KnowledgeGraph) (env : Environment) (w : World) :
  store (snd (saveGraph g env w)) = store w \/
  store (snd (saveGraph g env w))
  = merge_relations (relations g) (merge_entities (entities g) (store w)).
Proof.
  destruct (saveGraph_spec g env w) as (evs & _ & [(e & ->)| ->]);
    cbn [snd store]; auto.
Qed.

Lemma merge_entity_relationships (st : Store) (e : Entity) :
  relationships (merge_entity st e) = relationships st.
Proof.
  unfold merge_entity. destruct (existsb _ _); reflexivity.
Qed.

Lemma merge_entities_relationships (es : list Entity) :
  forall st, relationships (merge_entities es st) = relationships st.
Proof.
  unfold merge_entities.
  induction es as [|e es IH]; intros st; cbn [fold_left]; [reflexivity|].
  now rewrite IH, merge_entity_relationships.
Qed.

Lemma merge_relationship_keeps (ty : jsstring) (st : Store)
    (ends : MemoryNode * MemoryNode) :
  nodes (merge_relationship ty st ends) = nodes st /\
  forall r, In r (relationships st) ->
            In r (relationships (merge_relationship ty st ends)).
Proof.
  unfold merge_relationship. destruct (existsb _ _); cbn [nodes relationships].
  - auto.
  - split; [reflexivity|]. intros r H. apply in_or_app. now left.
Qed.

Lemma merge_relationships_keep (ty : jsstring)
    (pairs : list (MemoryNode * MemoryNode)) :
  forall st,
    nodes (fold_left (merge_relationship ty) pairs st) = nodes st /\
    forall r, In r (relationships st) ->
              In r (relationships (fold_left (merge_relationship ty) pairs st)).
Proof.
  induction pairs as [|p pairs IH]; intros st; cbn [fold_left]; [auto|].
  destruct (IH (merge_relationship ty st p)) as [Hn Hr].
  destruct (merge_relationship_keeps ty st p) as [Hn' Hr'].
  split; [congruence|auto].
Qed.

Lemma merge_relation_keeps (st : Store) (r0 : Relation) :
  nodes (merge_relation st r0) = nodes st /\
  forall r, In r (relationships st) ->
            In r (relationships (merge_relation st r0)).
Proof.
  unfold merge_relation. destruct (from r0), (to r0); auto.
  apply merge_relationships_keep.
Qed.

Lemma merge_relations_keep (rs : list Relation) :
  forall st,
    nodes (merge_relations rs st) = nodes st /\
    forall r, In r (relationships st) ->
              In r (relationships (merge_relations rs st)).
Proof.
  unfold merge_relations.
  induction rs as [|r0 rs IH]; intros st; cbn [fold_left]; [auto|].
  destruct (IH (merge_relation st r0)) as [Hn Hr].
  destruct (merge_relation_keeps st r0) as [Hn' Hr'].
  split; [congruence|auto].
Qed.

(** Whatever graph [saveGraph] is given, every relationship of the
    store is still there afterwards. *)
Lemma saveGraph_removes_no_relationship (g : KnowledgeGraph)
    (env : Environment) (w : World) (r : Relationship) :
  In r (relationships (store w)) ->
  In r (relationships (store (snd (saveGraph g env w)))).
Proof.
  intros H. destruct (saveGraph_store g env w) as [-> | ->]; [exact H|].
  apply merge_relations_keep. now rewrite merge_entities_relationships.
Qed.

Lemma bind_store {A B : Type} (m : M A) (k : A -> M B)
    (env : Environment) (w : World) :
  (exists a, fst (m env w) = Ok a /\
             bind m k env w = k a env (snd (m env w)))
  \/ (exists e, fst (m env w) = Throw e /\
                bind m k env w = (Throw e, snd (m env w))).
Proof.
  unfold bind. destruct (m env w) as [[a|e] w']; cbn [fst snd]; eauto.
Qed.

Lemma deleteRelations_removes_no_relationship (rels : list Relation)
    (env : Environment) (w : World) (r : Relationship) :
  In r (relationships (store w)) ->
  In r (relationships (store (snd (deleteRelations rels env w)))).
Proof.
  intros H. unfold deleteRelations.
  destruct (loadGraph_result env w) as [Hs _].
  destruct (bind_store loadGraph
              (fun graph =>
                 saveGraph
                   (mkGraph (entities graph)
                      (filter (fun r0 =>
                                 negb (existsb (fun d => same_relation r0 d)
                                         rels))
                         (relations graph))) ;;; ret tt) env w)
    as [(g & _ & ->)|(e & _ & ->)]; cbn [snd]; [|now rewrite Hs].
  match goal with
  | |- context [bind (saveGraph ?g') ?k env ?w'] =>
      destruct (bind_store (saveGraph g') k env w')
        as [(a & _ & ->)|(e & _ & ->)]; cbn [snd ret];
      apply saveGraph_removes_no_relationship; now rewrite Hs
  end.
Qed.

(** C4.  In a store where Alice and Bob are linked by a relationship
    that carries from Alice, to Bob and relationType LIKES,
    [deleteRelations] of that relation completes, and the graph that
    [loadGraph] returns afterwards still contains the relation. *)
Theorem deleteRelations_leaves_the_relation :
  fst (deleteRelations [alice_likes_bob] (quiet no_answer)
         (mkWorld liked_store []))
  = Ok tt
  /\ exists g,
       fst (loadGraph (quiet no_answer)
              (snd (deleteRelations [alice_likes_bob] (quiet no_answer)
                      (mkWorld liked_store []))))
       = Ok g
       /\ In alice_likes_bob (relations g)
       /\ existsb (same_relation alice_likes_bob) (relations g) = true.
Proof.
  split; [vm_compute; reflexivity|].
  eexists. split; [vm_compute; reflexivity|].
  split; [left; reflexivity|vm_compute; reflexivity].
Qed.

(** The same through the adapter alone: Alice and Bob are created and
    related, the relation is deleted, and the relationship from Alice
    to Bob is still in the store; [loadGraph] hands it out as before,
    as an object with its relationType only. *)
Lemma deleteRelations_changes_nothing :
  let env := quiet no_answer in
  let w1 := snd (createEntities [alice; bob] env (mkWorld empty_store [])) in
  let w2 := snd (createRelations [alice_likes_bob] env w1) in
  let w3 := snd (deleteRelations [alice_likes_bob] env w2) in
  relationships (store w2)
  = [mkRelationship 1 2 memory_type (mkRelation None None (lit "LIKES"))]
  /\ fst (deleteRelations [alice_likes_bob] env w2) = Ok tt
  /\ store w3 = store w2
  /\ relations (graph_of (store w3))
     = [mkRelation None None (lit "LIKES")].
Proof. vm_compute. repeat split; reflexivity. Qed.

(** ** [searchNodes] *)

Lemma starts_with_spec (t : jsstring) :
  forall s, starts_with t s = true <-> exists post, s = t ++ post.
Proof.
  induction t as [|a t IH]; intros s; cbn [starts_with app].
  - split; [intros _; now exists s|reflexivity].
  - destruct s as [|b s].
    + split; [discriminate|]. intros (post & H). discriminate.
    + rewrite andb_true_iff, Ascii.eqb_eq, IH. split.
      * intros (-> & post & ->). now exists post.
      * intros (post & [= -> ->]). split; [reflexivity|now exists post].
Qed.

Lemma includes_spec (t : jsstring) :
  forall s, includes s t = true <-> Substring t s.
Proof.
  unfold Substring.
  induction s as [|b s IH]; cbn [includes]; rewrite orb_true_iff.
  - rewrite starts_with_spec. split.
    + intros [(post & H)|H]; [|discriminate]. exists [], post. exact H.
    + intros (pre & post & H). left.
      destruct pre; [now exists post|discriminate].
  - rewrite starts_with_spec, IH. split.
    + intros [(post & H)|(pre & post & H)].
      * exists [], post. exact H.
      * exists (b :: pre), post. cbn [app]. now rewrite H.
    + intros (pre & post & H). destruct pre as [|c pre].
      * left. now exists post.
      * right. injection H as _ H. now exists pre, post.
Qed.

Lemma str_mem_spec (x : jsstring) (l : list jsstring) :
  str_mem x l = true <-> In x l.
Proof.
  unfold str_mem. rewrite existsb_exists. split.
  - intros (y & Hy & E). apply streq_true in E. now subst.
  - intros H. exists x. split; [exact H|apply streq_refl].
Qed.

Lemma matches_query_spec (q : jsstring) (e : Entity) :
  matches_query q e = true <->
  Substring (toLowerCase (name e)) (toLowerCase q)
  \/ Substring (toLowerCase (entityType e)) (toLowerCase q)
  \/ exists o, In o (observations e)
               /\ Substring (toLowerCase q) (toLowerCase o).
Proof.
  unfold matches_query.
  rewrite !orb_true_iff, !includes_spec, existsb_exists.
  setoid_rewrite includes_spec. tauto.
Qed.

Lemma has_name_spec (es : list Entity) (x : option jsstring) :
  has_name (map name es) x = true <->
  exists e, In e es /\ x = Some (name e).
Proof.
  destruct x as [n|]; cbn [has_name].
  - rewrite str_mem_spec, in_map_iff. split.
    + intros (e & <- & He). now exists e.
    + intros (e & He & [= ->]). now exists e.
  - split; [discriminate|]. intros (e & _ & H). discriminate.
Qed.

(** C8, as the code has it.  When the graph loads, [searchNodes]
    returns the loaded entities whose lower-cased name occurs in the
    lower-cased query, or whose lower-cased entityType occurs in the
    lower-cased query, or one of whose lower-cased observations
    contains the lower-cased query, and the loaded relations whose
    from and to are names of returned entities. *)
Theorem searchNodes_returns_matching_subgraph :
  forall (q : jsstring) (env : Environment) (w w1 : World)
         (loaded : KnowledgeGraph),
    loadGraph env w = (Ok loaded, w1) ->
    exists g,
      searchNodes q env w = (Ok g, w1) /\
      (forall e,
          In e (entities g) <->
          In e (entities loaded) /\
          (Substring (toLowerCase (name e)) (toLowerCase q)
           \/ Substring (toLowerCase (entityType e)) (toLowerCase q)
           \/ exists o, In o (observations e)
                        /\ Substring (toLowerCase q) (toLowerCase o))) /\
      (forall r,
          In r (relations g) <->
          In r (relations loaded) /\
          (exists a, In a (entities g) /\ from r = Some (name a)) /\
          (exists b, In b (entities g) /\ to r = Some (name b))).
Proof.
  intros q env w w1 loaded H.
  eexists. split.
  - unfold searchNodes, bind. rewrite H. reflexivity.
  - cbn [entities relations]. split.
    + intros e. now rewrite filter_In, matches_query_spec.
    + intros r. rewrite filter_In, andb_true_iff, !has_name_spec. tauto.
Qed.

Lemma searchNodes_returns_matching_subgraph_witness :
  exists g,
    searchNodes (lit "who is alice") (quiet no_answer)
      (mkWorld liked_store [])
    = (Ok g, snd (loadGraph (quiet no_answer) (mkWorld liked_store []))) /\
    (forall e,
        In e (entities g) <->
        In e (entities (graph_of liked_store)) /\
        (Substring (toLowerCase (name e)) (toLowerCase (lit "who is alice"))
         \/ Substring (toLowerCase (entityType e))
              (toLowerCase (lit "who is alice"))
         \/ exists o, In o (observations e)
                      /\ Substring (toLowerCase (lit "who is alice"))
                           (toLowerCase o))) /\
    (forall r,
        In r (relations g) <->
        In r (relations (graph_of liked_store)) /\
        (exists a, In a (entities g) /\ from r = Some (name a)) /\
        (exists b, In b (entities g) /\ to r = Some (name b))).
Proof.
  apply (searchNodes_returns_matching_subgraph (lit "who is alice")
           (quiet no_answer) (mkWorld liked_store [])).
  vm_compute. reflexivity.
Defined.

(** C8, as the claim has it, fails: the entity Alice is not returned
    for the query ali, although her name contains the query. *)
Lemma searchNodes_misses_name_containing_query :
  ~ search_matches_either_way.
Proof.
  intros H.
  destruct (H (lit "ali") (quiet no_answer) (mkWorld liked_store [])
              (graph_of liked_store)
              (snd (loadGraph (quiet no_answer) (mkWorld liked_store []))))
    as (g & Hg & He & _).
  { vm_compute. reflexivity. }
  assert (E : g = mkGraph [] []).
  { vm_compute in Hg. now injection Hg as <-. }
  subst g. apply (He alice). split.
  - left. reflexivity.
  - left. right. exists [], (lit "ce"). reflexivity.
Qed.

(** ** Observations *)

Lemma no_duplicate_observations_nodes (st : Store) :
  no_duplicate_observations st <-> nodup_entities (map properties (nodes st)).
Proof.
  unfold no_duplicate_observations, nodup_entities, graph_of.
  cbn [entities]. now rewrite Forall_forall.
Qed.

Lemma merge_entity_nodup (st : Store) (e : Entity) :
  nodup_entities (map properties (nodes st)) ->
  NoDup (observations e) ->
  nodup_entities (map properties (nodes (merge_entity st e))).
Proof.
  unfold nodup_entities, merge_entity. intros Hst He.
  destruct (existsb _ _); cbn [nodes].
  - induction (nodes st) as [|n ns IH]; cbn [map] in *; [constructor|].
    inversion Hst as [|? ? Hn Hns]; subst.
    constructor; [|now apply IH].
    destruct (streq _ _); cbn [properties]; assumption.
  - rewrite map_app. apply Forall_app. split; [exact Hst|].
    cbn [map properties]. now constructor.
Qed.

Lemma merge_entities_nodup (es : list Entity) :
  forall st,
    nodup_entities (map properties (nodes st)) ->
    nodup_entities es ->
    nodup_entities (map properties (nodes (merge_entities es st))).
Proof.
  unfold merge_entities.
  induction es as [|e es IH]; intros st Hst Hes; cbn [fold_left];
    [exact Hst|].
  inversion Hes as [|? ? He Hes']; subst.
  apply IH; [|exact Hes']. now apply merge_entity_nodup.
Qed.

(** Saving a graph without repeated observations keeps the store without
    repeated observations. *)
Lemma saveGraph_nodup (g : KnowledgeGraph) (env : Environment) (w : World) :
  no_duplicate_observations (store w) ->
  nodup_entities (entities g) ->
  no_duplicate_observations (store (snd (saveGraph g env w))).
Proof.
  rewrite !no_duplicate_observations_nodes. intros Hw Hg.
  destruct (saveGraph_store g env w) as [-> | ->]; [exact Hw|].
  destruct (merge_relations_keep (relations g)
              (merge_entities (entities g) (store w))) as [-> _].
  now apply merge_entities_nodup.
Qed.

Lemma nodup_append_new (old extra : list jsstring) :
  NoDup old -> NoDup extra ->
  NoDup (old ++ filter (fun c => negb (str_mem c old)) extra).
Proof.
  intros Hold Hextra. induction Hextra as [|c extra Hc Hextra IH].
  - cbn [filter]. now rewrite app_nil_r.
  - cbn [filter]. destruct (str_mem c old) eqn:E; cbn [negb]; [exact IH|].
    eapply NoDup_Add; [apply Add_app|].
    split; [exact IH|]. rewrite in_app_iff, filter_In. intros [H|[H _]].
    + apply str_mem_spec in H. congruence.
    + contradiction.
Qed.

Lemma update_first_found (P : Entity -> Prop) (p : Entity -> bool)
    (f : Entity -> Entity) (l : list Entity) (x : Entity) :
  find p l = Some x -> Forall P l -> P (f x) ->
  Forall P (update_first p f l).
Proof.
  intros Hfind Hl Hfx. induction l as [|e l IH]; [discriminate|].
  inversion Hl as [|? ? He Hl']; subst. cbn [find update_first] in *.
  destruct (p e).
  - injection Hfind as ->. now constructor.
  - constructor; [exact He|]. now apply IH.
Qed.

Lemma add_each_nodup (reqs : list ObservationRequest) :
  forall ents final results,
    nodup_entities ents ->
    Forall (fun o => NoDup (contents o)) reqs ->
    add_each ents reqs = Ok (final, results) ->
    nodup_entities final.
Proof.
  induction reqs as [|o reqs IH]; intros ents final results Hents Hreqs H;
    cbn [add_each] in H.
  - now injection H as <- _.
  - inversion Hreqs as [|? ? Ho Hreqs']; subst.
    destruct (find _ ents) as [entity|] eqn:F; [|discriminate].
    destruct (add_each _ reqs) as [[final' results']|] eqn:R; [|discriminate].
    injection H as <- _.
    refine (IH _ _ _ _ Hreqs' R).
    apply (update_first_found _ _ _ _ _ F Hents). cbn [observations].
    apply nodup_append_new; [|exact Ho].
    apply find_some in F as [Hin _].
    unfold nodup_entities in Hents. rewrite Forall_forall in Hents.
    now apply Hents.
Qed.

Lemma loaded_nodup (env : Environment) (w : World) (g : KnowledgeGraph) :
  no_duplicate_observations (store w) ->
  fst (loadGraph env w) = Ok g ->
  nodup_entities (entities g).
Proof.
  intros Hw Hg. destruct (loadGraph_result env w) as [_ H].
  rewrite (H g Hg). now apply no_duplicate_observations_nodes.
Qed.

Lemma hoare_bind {A B : Type} (env : Environment) (P : World -> Prop)
    (Q : Result A -> World -> Prop) (R : Result B -> World -> Prop)
    (m : M A) (k : A -> M B) :
  hoare env P m Q ->
  (forall a, hoare env (Q (Ok a)) (k a) R) ->
  (forall e w, Q (Throw e) w -> R (Throw e) w) ->
  hoare env P (bind m k) R.
Proof.
  unfold hoare, bind. intros Hm Hk Hthrow w Hw. specialize (Hm w Hw).
  destruct (m env w) as [[a|e] w']; cbn [fst snd] in *; auto.
Qed.

Lemma hoare_ret {A : Type} (env : Environment) (P : World -> Prop)
    (Q : Result A -> World -> Prop) (a : A) :
  (forall w, P w -> Q (Ok a) w) -> hoare env P (ret a) Q.
Proof. unfold hoare, ret. auto. Qed.

Lemma hoare_throw {A : Type} (env : Environment) (P : World -> Prop)
    (Q : Result A -> World -> Prop) (e : JsError) :
  (forall w, P w -> Q (Throw e) w) -> hoare env P (throw e) Q.
Proof. unfold hoare, throw. auto. Qed.

Lemma hoare_loadGraph_nodup (env : Environment) :
  hoare env (fun w => no_duplicate_observations (store w)) loadGraph
    (fun r w => no_duplicate_observations (store w) /\
                forall g, r = Ok g -> nodup_entities (entities g)).
Proof.
  intros w Hw. destruct (loadGraph_result env w) as [Hs _].
  split; [now rewrite Hs|]. intros g Hg. now apply (loaded_nodup env w).
Qed.

Lemma hoare_saveGraph_nodup (env : Environment) (g : KnowledgeGraph)
    (P : World -> Prop) :
  (forall w, P w -> no_duplicate_observations (store w)) ->
  nodup_entities (entities g) ->
  hoare env P (saveGraph g)
    (fun _ w => no_duplicate_observations (store w)).
Proof.
  intros HP Hg w Hw. apply saveGraph_nodup; auto.
Qed.

Lemma perform_nodup (c : AdapterCall) (env : Environment) (w : World) :
  no_duplicate_observations (store w) ->
  repeats_nothing c ->
  no_duplicate_observations (store (snd (perform c env w))).
Proof.
  intros Hw Hc.
  revert w Hw.
  change (hoare env (fun w => no_duplicate_observations (store w))
            (perform c)
            (fun _ w => no_duplicate_observations (store w))).
  destruct c as [es|reqs]; cbn [perform repeats_nothing] in *.
  - eapply hoare_bind
      with (Q := fun _ w => no_duplicate_observations (store w));
      [|intros a; apply hoare_ret; intros w H; exact H
       |intros e w H; exact H].
    unfold createEntities.
    eapply hoare_bind;
      [apply hoare_loadGraph_nodup| |intros e w [H _]; exact H].
    intros g.
    eapply hoare_bind
      with (Q := fun _ w => no_duplicate_observations (store w));
      [|intros a; apply hoare_ret; intros w H; exact H
       |intros e w H; exact H].
    intros w [Hw Hg]. apply saveGraph_nodup; [exact Hw|].
    cbn [entities]. apply Forall_app. split; [now apply Hg|].
    unfold nodup_entities in *. rewrite Forall_forall in *.
    intros e He. apply filter_In in He as [He _].
    rewrite map_id in He. now apply Hc.
  - eapply hoare_bind
      with (Q := fun _ w => no_duplicate_observations (store w));
      [|intros a; apply hoare_ret; intros w H; exact H
       |intros e w H; exact H].
    unfold addObservations.
    eapply hoare_bind;
      [apply hoare_loadGraph_nodup| |intros e w [H _]; exact H].
    intros g.
    destruct (add_each (entities g) reqs) as [[ents results]|e] eqn:R.
    + eapply hoare_bind
        with (Q := fun _ w => no_duplicate_observations (store w));
        [|intros a; apply hoare_ret; intros w H; exact H
         |intros e w H; exact H].
      intros w [Hw Hg]. apply saveGraph_nodup; [exact Hw|].
      cbn [entities].
      eapply add_each_nodup; [apply (Hg g eq_refl)|exact Hc|exact R].
    + apply hoare_throw. intros w [H _]. exact H.
Qed.

Lemma perform_all_nodup (cs : list AdapterCall) (env : Environment) :
  forall w,
    no_duplicate_observations (store w) ->
    Forall repeats_nothing cs ->
    no_duplicate_observations (store (perform_all cs env w)).
Proof.
  induction cs as [|c cs IH]; intros w Hw Hcs; cbn [perform_all];
    [exact Hw|].
  inversion Hcs as [|? ? Hc Hcs']; subst.
  apply IH; [|exact Hcs']. now apply perform_nodup.
Qed.

(** C9, as the code has it.  From a store in which no entity lists an
    observation twice, every sequence of createEntities and
    addObservations requests in which no new entity and no contents
    list repeats a string ends in such a store, whichever requests
    fail on the way. *)
Theorem observations_stay_distinct :
  forall (env : Environment) (cs : list AdapterCall) (w : World),
    no_duplicate_observations (store w) ->
    Forall repeats_nothing cs ->
    no_duplicate_observations (store (perform_all cs env w)).
Proof.
  intros env cs w. apply perform_all_nodup.
Qed.

Lemma observations_stay_distinct_witness :
  no_duplicate_observations
    (store (perform_all
              [CallCreateEntities [mkEntity (lit "Carol") (lit "person")
                                     [lit "likes tea"]];
               CallAddObservations
                 [mkRequest (lit "Alice") [lit "likes tea"; lit "runs"];
                  mkRequest (lit "Alice") [lit "runs"]]]
              (quiet no_answer) (mkWorld liked_store []))).
Proof.
  apply observations_stay_distinct.
  - intros e [<-|[<-|[]]]; constructor.
  - repeat constructor; cbn; intros H;
      repeat (destruct H as [H|H]; [discriminate H|]); exact H.
Defined.

(** C9, as the claim has it, fails: one addObservations request whose
    contents repeat a string stores the string twice. *)
Lemma addObservations_stores_repeated_contents :
  ~ observations_never_duplicated.
Proof.
  intros H.
  specialize (H (quiet no_answer)
                [CallAddObservations
                   [mkRequest (lit "Alice") [lit "runs"; lit "runs"]]]
                (mkWorld liked_store [])).
  assert (Hin : In (mkEntity (lit "Alice") (lit "person")
                      [lit "runs"; lit "runs"])
                  (entities
                     (graph_of
                        (store
                           (perform_all
                              [CallAddObservations
                                 [mkRequest (lit "Alice")
                                    [lit "runs"; lit "runs"]]]
                              (quiet no_answer) (mkWorld liked_store [])))))).
  { vm_compute. left. reflexivity. }
  apply H in Hin.
  - cbn [observations] in Hin. inversion Hin as [|? ? Hn _]; subst.
    apply Hn. left. reflexivity.
  - intros e [<-|[<-|[]]]; constructor.
Qed.

(** [createEntities] stores the observations of a new entity as they
    come, repeated strings included. *)
Lemma createEntities_stores_repeated_observations :
  entities
    (graph_of
       (store
          (perform_all
             [CallCreateEntities
                [mkEntity (lit "Carol") (lit "person")
                   [lit "runs"; lit "runs"]]]
             (quiet no_answer) (mkWorld empty_store []))))
  = [mkEntity (lit "Carol") (lit "person") [lit "runs"; lit "runs"]].
Proof. vm_compute. reflexivity. Qed.

(** ** What the computations add to the log *)

Lemma emits_ret {A : Type} (P : Event -> Prop) (a : A) : emits P (ret a).
Proof. intros env w. exists []. cbn. now rewrite app_nil_r. Qed.

Lemma emits_throw {A : Type} (P : Event -> Prop) (e : JsError) :
  emits P (@throw A e).
Proof. intros env w. exists []. cbn. now rewrite app_nil_r. Qed.

Lemma emits_bind {A B : Type} (P : Event -> Prop) (m : M A) (k : A -> M B) :
  emits P m -> (forall a, emits P (k a)) -> emits P (bind m k).
Proof.
  intros Hm Hk env w. unfold bind.
  destruct (Hm env w) as (evs & Hl & Hevs).
  destruct (m env w) as [[a|e] w1]; cbn [snd] in *.
  - destruct (Hk a env w1) as (evs' & Hl' & Hevs').
    exists (evs ++ evs'). rewrite Hl', Hl, app_assoc.
    split; [reflexivity|]. apply Forall_app. auto.
  - now exists evs.
Qed.

Lemma emits_try_catch {A : Type} (P : Event -> Prop) (m : M A)
    (h : JsError -> M A) :
  emits P m -> (forall e, emits P (h e)) -> emits P (try_catch m h).
Proof.
  intros Hm Hh env w. unfold try_catch.
  destruct (Hm env w) as (evs & Hl & Hevs).
  destruct (m env w) as [[a|e] w1]; cbn [snd] in *.
  - now exists evs.
  - destruct (Hh e env w1) as (evs' & Hl' & Hevs').
    exists (evs ++ evs'). rewrite Hl', Hl, app_assoc.
    split; [reflexivity|]. apply Forall_app. auto.
Qed.

Lemma emits_try_finally {A : Type} (P : Event -> Prop) (m : M A)
    (f : M unit) :
  emits P m -> emits P f -> emits P (try_finally m f).
Proof.
  intros Hm Hf env w. unfold try_finally.
  destruct (Hm env w) as (evs & Hl & Hevs).
  destruct (m env w) as [r w1]; cbn [snd] in *.
  destruct (Hf env w1) as (evs' & Hl' & Hevs').
  exists (evs ++ evs'). rewrite app_assoc, <- Hl.
  split; [|apply Forall_app; auto].
  destruct (f env w1) as [[u|e] w2]; cbn [snd] in *; exact Hl'.
Qed.

Lemma emits_callLLM (P : Event -> Prop) (p : Prompt) :
  P (AskedLLM p) -> emits P (callLLM p).
Proof.
  intros H env w. exists [AskedLLM p]. cbn. split; [reflexivity|].
  now constructor.
Qed.

Lemma emits_executeCypherQuery (P : Event -> Prop) (q : jsstring)
    (ps : Params) (wr : bool) :
  (forall id, P (SessionOpened id)) ->
  (forall id, P (SessionClosed id)) ->
  (forall failed, P (Ran wr (CypherStatement q ps) failed)) ->
  emits P (executeCypherQuery q ps wr).
Proof.
  intros Ho Hc Hr env w.
  destruct (executeCypherQuery_spec q ps wr env w)
    as [(e & _ & ->)|(_ & ->)]; cbn [snd log];
    eexists; (split; [reflexivity|]); repeat constructor; auto.
Qed.

Lemma foreign_session_opened (id : nat) : foreign (SessionOpened id).
Proof. intros n. discriminate. Qed.

Lemma foreign_session_closed (id : nat) : foreign (SessionClosed id).
Proof. intros n. discriminate. Qed.

Lemma foreign_asked (p : Prompt) : foreign (AskedLLM p).
Proof. intros n. discriminate. Qed.

Lemma foreign_read (stmt : Statement) (failed : bool) :
  foreign (Ran false stmt failed).
Proof. intros n. discriminate. Qed.

Lemma foreign_failed (wr : bool) (stmt : Statement) :
  foreign (Ran wr stmt true).
Proof. intros n. discriminate. Qed.

Lemma foreign_subject (wr : bool) (q : jsstring) (v : ParamValue)
    (ps : Params) (failed : bool) :
  foreign (Ran wr (CypherStatement q ((lit "subject", v) :: ps)) failed).
Proof. intros n. unfold token_created. intros H. discriminate H. Qed.

Lemma foreign_link (wr : bool) (q : jsstring) (v : ParamValue)
    (ps : Params) (failed : bool) :
  foreign
    (Ran wr (CypherStatement q ((lit "securityNodeName", v) :: ps)) failed).
Proof. intros n. unfold token_created. intros H. discriminate H. Qed.

Lemma foreign_removal (n : jsstring) (failed : bool) :
  foreign (token_removal n failed).
Proof.
  intros m. unfold token_removal, token_created. intros H. discriminate H.
Qed.

Create HintDb foreign_events.
#[local] Hint Resolve foreign_session_opened foreign_session_closed
  foreign_asked foreign_read foreign_failed foreign_subject foreign_link
  : foreign_events.

(** One step of the proof that a computation adds only foreign events:
    the rule for its head construct, or a case analysis on what its
    head inspects. *)
Ltac emits_step :=
  first
    [ apply emits_ret
    | apply emits_throw
    | apply emits_callLLM; auto with foreign_events
    | apply emits_executeCypherQuery; intros; auto with foreign_events
    | apply emits_try_catch; [|intros]
    | apply emits_bind; [|intros]
    | match goal with
      | |- emits _ (match ?x with _ => _ end) => destruct x
      end ].

Lemma checkBaseOntologyExists_foreign (subj : jsstring) :
  emits foreign (checkBaseOntologyExists subj).
Proof. unfold checkBaseOntologyExists. repeat emits_step. Qed.

Lemma execute_generated_foreign (subj : jsstring) (o : OntologyStructure)
    (qs : list GeneratedQuery) :
  emits foreign (execute_generated subj o qs).
Proof.
  induction qs as [|q qs IH]; cbn [execute_generated].
  - apply emits_ret.
  - emits_step. emits_step. emits_step; [exact IH|]. emits_step.
Qed.

Lemma createOntologyConnections_foreign (subj n : jsstring) :
  emits foreign (createOntologyConnections subj n).
Proof. unfold createOntologyConnections. repeat emits_step. Qed.

Lemma createBaseOntology_foreign (subj : jsstring) (p : option jsstring)
    (n : jsstring) :
  emits foreign (createBaseOntology subj p n).
Proof.
  unfold createBaseOntology.
  repeat first [ apply execute_generated_foreign
               | apply createOntologyConnections_foreign
               | emits_step ].
Qed.

(** ** The security node *)

Lemma lookup_head {V : Type} (k : jsstring) (v : V)
    (l : list (jsstring * V)) :
  lookup k ((k, v) :: l) = Some v.
Proof. cbn [lookup]. now rewrite streq_refl. Qed.

Lemma run_cypher_create (n : jsstring) (env : Environment) (w : World) :
  fst (run_cypher true createSecurityNode_query [(lit "name", PText n)] env w)
  = mkStore (nodes (store w)) (relationships (store w))
      (tokens (store w) ++ [n]).
Proof.
  unfold run_cypher. rewrite lookup_head, streq_refl. reflexivity.
Qed.

Lemma remove_is_not_create :
  streq removeSecurityNode_query createSecurityNode_query = false.
Proof. vm_compute. reflexivity. Qed.

Lemma run_cypher_remove (n : jsstring) (env : Environment) (w : World) :
  fst (run_cypher true removeSecurityNode_query [(lit "name", PText n)] env w)
  = mkStore (nodes (store w)) (relationships (store w))
      (filter (fun t => negb (streq t n)) (tokens (store w))).
Proof.
  unfold run_cypher.
  rewrite lookup_head, remove_is_not_create, streq_refl. reflexivity.
Qed.

Lemma createSecurityNode_spec (n : jsstring) (env : Environment) (w : World) :
  let id := List.length (log w) in
  (exists e,
      createSecurityNode n env w =
      (Throw e,
       mkWorld (store w)
         (log w ++ [SessionOpened id;
                    Ran true (CypherStatement createSecurityNode_query
                                [(lit "name", PText n)]) true;
                    SessionClosed id])))
  \/
  (exists rows,
      createSecurityNode n env w =
      (Ok rows,
       mkWorld (mkStore (nodes (store w)) (relationships (store w))
                  (tokens (store w) ++ [n]))
         (log w ++ [SessionOpened id; token_created n; SessionClosed id]))).
Proof.
  cbv zeta. unfold createSecurityNode.
  destruct (executeCypherQuery_spec createSecurityNode_query
              [(lit "name", PText n)] true env w)
    as [(e & _ & ->)|(_ & ->)].
  - left. now exists e.
  - right. rewrite run_cypher_create. cbn [record_event store].
    eexists. reflexivity.
Qed.

Lemma removeSecurityNode_spec (n : jsstring) (env : Environment) (w : World) :
  let id := List.length (log w) in
  (exists e,
      removeSecurityNode n env w =
      (Throw e,
       mkWorld (store w)
         (log w ++ [SessionOpened id; token_removal n true;
                    SessionClosed id])))
  \/
  (exists rows,
      removeSecurityNode n env w =
      (Ok rows,
       mkWorld (mkStore (nodes (store w)) (relationships (store w))
                  (filter (fun t => negb (streq t n)) (tokens (store w))))
         (log w ++ [SessionOpened id; token_removal n false;
                    SessionClosed id]))).
Proof.
  cbv zeta. unfold removeSecurityNode.
  destruct (executeCypherQuery_spec removeSecurityNode_query
              [(lit "name", PText n)] true env w)
    as [(e & _ & ->)|(_ & ->)].
  - left. now exists e.
  - right. rewrite run_cypher_remove. cbn [record_event store].
    eexists. reflexivity.
Qed.

Lemma removed_token_absent (n : jsstring) (l : list jsstring) :
  ~ In n (filter (fun t => negb (streq t n)) l).
Proof.
  rewrite filter_In. intros [_ H]. now rewrite streq_refl in H.
Qed.

(** [checkBaseOntologyExists], when it returns: one read of the
    existing ontologies, then one question to the text generator. *)
Lemma checkBaseOntologyExists_returns (subj : jsstring) (env : Environment)
    (w : World) (res : ExistsResult) :
  fst (checkBaseOntologyExists subj env w) = Ok res ->
  exists rows,
    log (snd (checkBaseOntologyExists subj env w))
    = log w ++ [SessionOpened (List.length (log w));
                Ran false (CypherStatement existingOntologies_query [])
                  false;
                SessionClosed (List.length (log w));
                AskedLLM (ExistsPrompt subj rows)].
Proof.
  unfold checkBaseOntologyExists, try_catch, bind, callLLM, ret, throw.
  destruct (executeCypherQuery_spec existingOntologies_query [] false env w)
    as [(e & _ & ->)|(_ & ->)].
  - cbn. discriminate.
  - cbn [log store].
    match goal with
    | |- context [text_generator env ?l ?p] =>
        destruct (text_generator env l p) as [a|e]
    end; cbn [fst snd log record_event].
    + intros _. eexists. rewrite <- app_assoc. reflexivity.
    + discriminate.
Qed.

(** ** The ontology workflow *)


Lemma guarded_body_foreign (subj : jsstring) (args : OntologyArgs)
    (n : jsstring) :
  emits foreign
    (existsResult <- checkBaseOntologyExists subj ;;
     if exists_ existsResult && negb (force_it args)
     then ret (AlreadyRepresented subj (baseOntologies existsResult))
     else
       createResult <- createBaseOntology subj (parent args) n ;;
       ret (Created subj createResult)).
Proof.
  apply emits_bind; [apply checkBaseOntologyExists_foreign|].
  intros res. destruct (_ && _); [apply emits_ret|].
  apply emits_bind; [apply createBaseOntology_foreign|].
  intros c. apply emits_ret.
Qed.

(** The shape of every run of the workflow from the creation of the
    security node on: the creation fails and nothing else happens, or
    the node is created, the guarded steps add events that create no
    node, and the removal of the node is the last statement. *)
Lemma guarded_creation_shape (subj : jsstring) (args : OntologyArgs)
    (env : Environment) (w : World) :
  let n := fresh_security_name env (log w) in
  let id := List.length (log w) in
  let run := guarded_creation subj args env w in
  (exists e,
      run =
      (Throw e,
       mkWorld (store w)
         (log w ++ [SessionOpened id;
                    Ran true (CypherStatement createSecurityNode_query
                                [(lit "name", PText n)]) true;
                    SessionClosed id])))
  \/
  (exists mid s failed,
      Forall foreign mid /\
      log (snd run)
      = log w ++ [SessionOpened id; token_created n; SessionClosed id]
          ++ mid
          ++ [SessionOpened s; token_removal n failed; SessionClosed s] /\
      (failed = false -> ~ In n (tokens (store (snd run)))) /\
      (forall subj' found,
          fst run = Ok (AlreadyRepresented subj' found) ->
          subj' = subj /\ failed = false /\
          exists rows,
            mid = [SessionOpened (id + 3);
                   Ran false (CypherStatement existingOntologies_query [])
                     false;
                   SessionClosed (id + 3);
                   AskedLLM (ExistsPrompt subj rows)])).
Proof.
  intros n id run.
  assert (E : run =
              match createSecurityNode n env w with
              | (Ok _, w1) =>
                  try_finally
                    (existsResult <- checkBaseOntologyExists subj ;;
                     if exists_ existsResult && negb (force_it args)
                     then ret (AlreadyRepresented subj
                                 (baseOntologies existsResult))
                     else
                       createResult <-
                         createBaseOntology subj (parent args) n ;;
                       ret (Created subj createResult))
                    (removeSecurityNode n ;;; ret tt) env w1
              | (Throw e, w1) => (Throw e, w1)
              end) by reflexivity.
  clearbody run.
  destruct (createSecurityNode_spec n env w) as [(e & C)|(rows0 & C)];
    rewrite C in E; clear C.
  - left. now exists e.
  - right. fold id in E.
    set (w1 := mkWorld
                 (mkStore (nodes (store w)) (relationships (store w))
                    (tokens (store w) ++ [n]))
                 (log w ++ [SessionOpened id; token_created n;
                            SessionClosed id])) in E.
    unfold try_finally in E.
    pose proof (guarded_body_foreign subj args n env w1) as (mid & Hmid & Hf).
    match type of Hmid with
    | log (snd (?b env w1)) = _ => destruct (b env w1) as [r1 w2] eqn:B
    end.
    cbn [snd] in Hmid. unfold bind in E.
    destruct (removeSecurityNode_spec n env w2) as [(e & R)|(rows & R)];
      rewrite R in E; clear R; cbn [ret] in E; subst run.
    + exists mid, (List.length (log w2)), true.
      cbn [fst snd log store]. rewrite Hmid. unfold w1. cbn [log].
      rewrite <- !app_assoc. cbn [app].
      repeat split; try exact Hf; discriminate.
    + exists mid, (List.length (log w2)), false.
      cbn [fst snd log store tokens]. rewrite Hmid. unfold w1. cbn [log].
      rewrite <- !app_assoc. cbn [app].
      split; [exact Hf|]. split; [reflexivity|].
      split; [intros _; apply removed_token_absent|].
      intros subj' found Hr. subst r1.
      unfold bind in B.
      destruct (checkBaseOntologyExists subj env w1) as [[res|e] w1'] eqn:C;
        [|discriminate].
      pose proof (checkBaseOntologyExists_returns subj env w1 res) as Hc.
      rewrite C in Hc. cbn [fst snd] in Hc.
      destruct (Hc eq_refl) as (rows' & Hlog).
      destruct (exists_ res && negb (force_it args)).
      * cbn [ret] in B. injection B as Hsubj _ Hw2. subst w2.
        split; [now symmetry|]. split; [reflexivity|].
        exists rows'. rewrite Hlog in Hmid.
        apply app_inv_head in Hmid. rewrite <- Hmid.
        unfold w1. cbn [log]. rewrite length_app. cbn [List.length].
        reflexivity.
      * destruct (createBaseOntology _ _ _ env w1') as [[c|e] w3];
          discriminate.
Qed.

(** Every run of [handleCreateBaseOntology] ends before the security
    node is asked for, or goes on with [guarded_creation] after at most
    the check of the parent. *)
Lemma handleCreateBaseOntology_cases (args : OntologyArgs)
    (env : Environment) (w : World) :
  let run := handleCreateBaseOntology args env w in
  (exists evs,
      log (snd run) = log w ++ evs /\ Forall foreign evs /\
      forall s f, fst run <> Ok (AlreadyRepresented s f))
  \/
  (exists subj pre w1,
      log w1 = log w ++ pre /\ Forall foreign pre /\
      snd run = snd (guarded_creation subj args env w1) /\
      forall s f,
        fst run = Ok (AlreadyRepresented s f) ->
        fst (guarded_creation subj args env w1)
        = Ok (AlreadyRepresented s f)).
Proof.
  intros run. subst run. unfold handleCreateBaseOntology.
  destruct (truthy (subject args)) as [subj|].
  2:{ left. exists []. cbn. rewrite app_nil_r.
      repeat split; auto. discriminate. }
  unfold try_catch.
  destruct (truthy (parent args)) as [p|].
  - unfold bind.
    destruct (executeCypherQuery_spec parentCheck_query
                [(lit "parentName", PText (normalizeParentName p))]
                false env w) as [(e & _ & ->)|(_ & ->)].
    + left. eexists. cbn [fst snd log store ret].
      split; [reflexivity|]. split; [|discriminate].
      repeat constructor; auto with foreign_events.
    + match goal with
      | |- context [match snd ?x with _ => _ end] =>
          destruct x as [st [|row rows]]; cbn [fst snd]
      end.
      * left. eexists. cbn [fst snd log store ret].
        split; [reflexivity|]. split; [|discriminate].
        repeat constructor; auto with foreign_events.
      * right.
        match goal with
        | |- context [guarded_creation subj args env
                        (mkWorld ?st' (log w ++ ?pre))] =>
            exists subj, pre, (mkWorld st' (log w ++ pre))
        end.
        cbn [log]. split; [reflexivity|].
        split; [repeat constructor; auto with foreign_events|].
        match goal with
        | |- context [guarded_creation subj args env ?w1] =>
            destruct (guarded_creation subj args env w1) as [[r|e] w']
        end; cbn [fst snd ret]; split; try reflexivity; auto; discriminate.
  - right. exists subj, [], w. rewrite app_nil_r.
    split; [reflexivity|]. split; [constructor|].
    destruct (guarded_creation subj args env w) as [[r|e] w'];
      cbn [fst snd ret]; split; try reflexivity; auto; discriminate.
Qed.




(** C6, as the code has it.  The security node is created before the
    existence check: in every run that refuses because the subject is
    already represented and force_it is not set, the new events end
    with the creation of a security node [n], the read of the existing
    ontologies, the question to the text generator, and the removal of
    [n]; no other security node was created, and none named [n] is left
    in the store. *)
Theorem token_is_issued_before_the_existence_check :
  forall (args : OntologyArgs) (env : Environment) (w : World)
         (subj : jsstring) (found : list Row),
    fst (handleCreateBaseOntology args env w)
    = Ok (AlreadyRepresented subj found) ->
    exists n before rows s1 s2 s3,
      new_events w (snd (handleCreateBaseOntology args env w))
      = before
        ++ [SessionOpened s1; token_created n; SessionClosed s1;
            SessionOpened s2;
            Ran false (CypherStatement existingOntologies_query []) false;
            SessionClosed s2;
            AskedLLM (ExistsPrompt subj rows);
            SessionOpened s3; token_removal n false; SessionClosed s3]
      /\ Forall foreign before
      /\ ~ In n (tokens (store (snd (handleCreateBaseOntology args env w)))).
Proof.
  intros args env w subj found Hres.
  destruct (handleCreateBaseOntology_cases args env w)
    as [(evs & _ & _ & Hno)|(subj0 & pre & w1 & Hl1 & Hpre & Hs & Hr)].
  - now apply Hno in Hres.
  - apply Hr in Hres. rewrite Hs. clear Hs Hr.
    destruct (guarded_creation_shape subj0 args env w1)
      as [(e & E)|(mid & s & failed & Hmid & Hl & Hgone & Hrep)].
    + cbv zeta in E. rewrite E in Hres. discriminate Hres.
    + destruct (Hrep _ _ Hres) as (-> & -> & rows & ->).
      exists (fresh_security_name env (log w1)), pre, rows.
      do 3 eexists. split; [|split; [exact Hpre|now apply Hgone]].
      apply new_events_app. rewrite Hl, Hl1, <- !app_assoc. reflexivity.
Qed.

Lemma token_is_issued_before_the_existence_check_witness :
  exists n before rows s1 s2 s3,
    new_events (mkWorld empty_store [])
      (snd (handleCreateBaseOntology ai_request (quiet represented)
              (mkWorld empty_store [])))
    = before
      ++ [SessionOpened s1; token_created n; SessionClosed s1;
          SessionOpened s2;
          Ran false (CypherStatement existingOntologies_query []) false;
          SessionClosed s2;
          AskedLLM (ExistsPrompt (lit "AI") rows);
          SessionOpened s3; token_removal n false; SessionClosed s3]
    /\ Forall foreign before
    /\ ~ In n (tokens (store (snd (handleCreateBaseOntology ai_request
                                     (quiet represented)
                                     (mkWorld empty_store []))))).
Proof.
  apply (token_is_issued_before_the_existence_check ai_request
           (quiet represented) (mkWorld empty_store []) (lit "AI") []).
  vm_compute. reflexivity.
Defined.

(** C6, as the claim has it, fails: the request for the subject AI,
    which the text generator finds represented, is refused after a
    security node was created. *)
Lemma token_created_before_refusal :
  ~ token_issued_only_after_check.
Proof.
  intros H.
  apply (H ai_request (quiet represented) (mkWorld empty_store [])
           (lit "AI") [] ltac:(vm_compute; reflexivity)
           (lit "security-node-0")).
  vm_compute. right. left. reflexivity.
Qed.

(* ================================================================== *)
(** * Further properties of the adapter *)
(* ================================================================== *)

(** X1.  [loadGraph] (and [readGraph], which is the same function)
    sends one read statement in a session of its own and closes the
    session; it never changes the store.  When the store answers, the
    result lists the properties of the Memory nodes in their order and
    the properties of the relationships that leave them, node after
    node; when the store fails, that very error is thrown. *)
Theorem loadGraph_outcome :
  forall (env : Environment) (w : World),
    readGraph env w = loadGraph env w /\
    loadGraph env w =
    match store_fault env (log w ++ [SessionOpened (List.length (log w))])
            LoadGraphStatement with
    | Some e =>
        (Throw e,
         mkWorld (store w)
           (log w ++ [SessionOpened (List.length (log w));
                      Ran false LoadGraphStatement true;
                      SessionClosed (List.length (log w))]))
    | None =>
        (Ok (mkGraph (map properties (nodes (store w)))
               (flat_map
                  (fun n =>
                     map rel_properties
                       (filter (fun r => rel_start r =? node_id n)
                          (relationships (store w))))
                  (nodes (store w)))),
         mkWorld (store w)
           (log w ++ [SessionOpened (List.length (log w));
                      Ran false LoadGraphStatement false;
                      SessionClosed (List.length (log w))]))
    end.
Proof.
  intros env w. split; [reflexivity|].
  unfold loadGraph. unfold_m. cbn [log store].
  destruct (store_fault env _ LoadGraphStatement) as [e|];
    cbn [log store]; rewrite <- !app_assoc; cbn [app]; [reflexivity|].
  rewrite load_rows_graph. reflexivity.
Qed.

(** X2.  [saveGraph] is all or nothing: it returns its message with
    both statements applied, or it throws an error of the store and
    the store is as it was, also when the second statement fails after
    the first one ran. *)
Theorem saveGraph_all_or_nothing :
  forall (g : KnowledgeGraph) (env : Environment) (w : World),
    match fst (saveGraph g env w) with
    | Ok m =>
        m = saved_message /\
        store (snd (saveGraph g env w))
        = merge_relations (relations g) (merge_entities (entities g) (store w))
    | Throw e =>
        store (snd (saveGraph g env w)) = store w /\
        exists history stmt,
          store_fault env history stmt = Some e /\
          (stmt = MergeEntitiesStatement (entities g)
           \/ stmt = MergeRelationsStatement (relations g))
    end.
Proof.
  intros g env w. unfold saveGraph. unfold_m. cbn [log store].
  destruct (store_fault env _ (MergeEntitiesStatement _)) as [e|] eqn:F1;
    cbn [fst snd log store].
  - split; [reflexivity|]. eauto.
  - destruct (store_fault env _ (MergeRelationsStatement _)) as [e|] eqn:F2;
      cbn [fst snd log store].
    + split; [reflexivity|]. eauto.
    + split; reflexivity.
Qed.

Lemma merge_relationship_adds (ty : jsstring) (st : Store)
    (ends : MemoryNode * MemoryNode) (x : Relationship) :
  In x (relationships (merge_relationship ty st ends)) ->
  In x (relationships st)
  \/ x = mkRelationship (node_id (fst ends)) (node_id (snd ends)) memory_type
           (mkRelation None None ty).
Proof.
  unfold merge_relationship. destruct (existsb _ _); cbn [relationships].
  - auto.
  - rewrite in_app_iff. intros [H|[H|[]]]; auto.
Qed.

Lemma merge_relationship_links (ty : jsstring) (st : Store)
    (ends : MemoryNode * MemoryNode) :
  exists y,
    In y (relationships (merge_relationship ty st ends)) /\
    rel_start y = node_id (fst ends) /\ rel_end y = node_id (snd ends) /\
    rel_type y = memory_type /\ relationType (rel_properties y) = ty.
Proof.
  unfold merge_relationship. destruct (existsb _ _) eqn:E.
  - apply existsb_exists in E as (y & Hy & E).
    rewrite !andb_true_iff, !Nat.eqb_eq, !streq_true in E.
    exists y. tauto.
  - eexists. cbn [relationships]. split.
    + apply in_or_app. right. left. reflexivity.
    + cbn. auto.
Qed.

Lemma merge_relationships_add (ty : jsstring)
    (pairs : list (MemoryNode * MemoryNode)) :
  forall st x,
    In x (relationships (fold_left (merge_relationship ty) pairs st)) ->
    In x (relationships st)
    \/ exists p, In p pairs /\
                 x = mkRelationship (node_id (fst p)) (node_id (snd p))
                       memory_type (mkRelation None None ty).
Proof.
  induction pairs as [|p pairs IH]; intros st x H; cbn [fold_left] in H;
    [auto|].
  apply IH in H as [H|(q & Hq & ->)].
  - apply merge_relationship_adds in H as [H| ->]; [auto|].
    right. exists p. split; [left; reflexivity|reflexivity].
  - right. exists q. split; [right; exact Hq|reflexivity].
Qed.

Lemma merge_relationships_link (ty : jsstring)
    (pairs : list (MemoryNode * MemoryNode)) :
  forall st p,
    In p pairs ->
    exists y,
      In y (relationships (fold_left (merge_relationship ty) pairs st)) /\
      rel_start y = node_id (fst p) /\ rel_end y = node_id (snd p) /\
      rel_type y = memory_type /\ relationType (rel_properties y) = ty.
Proof.
  induction pairs as [|q pairs IH]; intros st p Hp; [destruct Hp|].
  cbn [fold_left]. destruct Hp as [->|Hp].
  - destruct (merge_relationship_links ty st p) as (y & Hy & H).
    exists y. split; [|exact H].
    now apply merge_relationships_keep.
  - now apply IH.
Qed.

Lemma named_nodes (st : Store) (s : jsstring) (n : MemoryNode) :
  In n (filter (fun m => streq (name (properties m)) s) (nodes st)) <->
  In n (nodes st) /\ name (properties n) = s.
Proof. now rewrite filter_In, streq_true. Qed.

(** The relation statement of [saveGraph], read both ways. *)
Lemma merge_relations_spec :
  forall (rs : list Relation) (st : Store),
    (forall x,
        In x (relationships (merge_relations rs st)) ->
        In x (relationships st)
        \/ exists r a b,
             In r rs /\ In a (nodes st) /\ In b (nodes st) /\
             from r = Some (name (properties a)) /\
             to r = Some (name (properties b)) /\
             x = mkRelationship (node_id a) (node_id b) memory_type
                   (mkRelation None None (relationType r)))
    /\
    (forall r a b,
        In r rs -> In a (nodes st) -> In b (nodes st) ->
        from r = Some (name (properties a)) ->
        to r = Some (name (properties b)) ->
        exists y,
          In y (relationships (merge_relations rs st)) /\
          rel_start y = node_id a /\ rel_end y = node_id b /\
          rel_type y = memory_type /\
          relationType (rel_properties y) = relationType r).
Proof.
  unfold merge_relations.
  induction rs as [|r0 rs IH]; intros st.
  - split; [auto|]. intros r a b [].
  - cbn [fold_left].
    destruct (IH (merge_relation st r0)) as [Hsound Hcomplete].
    destruct (merge_relation_keeps st r0) as [Hn Hkeep].
    rewrite Hn in Hsound, Hcomplete.
    split.
    + intros x Hx. apply Hsound in Hx as [Hx|(r & a & b & Hr & H)].
      * unfold merge_relation in Hx.
        destruct (from r0) as [f|] eqn:Ef; [|auto].
        destruct (to r0) as [t|] eqn:Et; [|auto].
        apply merge_relationships_add in Hx as [Hx|(p & Hp & ->)]; [auto|].
        destruct p as [a b]. apply in_prod_iff in Hp as [Ha Hb].
        apply named_nodes in Ha as [Ha <-].
        apply named_nodes in Hb as [Hb <-].
        right. exists r0, a, b. cbn [fst snd].
        repeat split; auto. left. reflexivity.
      * right. exists r, a, b. split; [right; exact Hr|exact H].
    + intros r a b [<-|Hr] Ha Hb Hf Ht.
      * unfold merge_relation in *. rewrite Hf, Ht in *.
        destruct (merge_relationships_link (relationType r0)
                    (list_prod
                       (filter (fun n => streq (name (properties n))
                                           (name (properties a))) (nodes st))
                       (filter (fun n => streq (name (properties n))
                                           (name (properties b))) (nodes st)))
                    st (a, b)) as (y & Hy & H).
        { apply in_prod_iff. split; apply named_nodes; auto. }
        exists y. split; [|exact H].
        now apply (merge_relations_keep rs).
      * now apply Hcomplete.
Qed.

(** X3.  The relation statement of [saveGraph] adds links between
    Memory nodes that exist and nothing else.  A relationship found in
    the store afterwards was there before, or it runs, with the type
    Memory and the relationType of a saved relation, from a node named
    as the from of that relation to a node named as its to; and for
    every saved relation whose two ends name nodes such a relationship
    is there afterwards.  A relation one of whose ends names no node is
    skipped without an error. *)
Theorem merge_relations_links :
  forall (rs : list Relation) (st : Store),
    (forall x,
        In x (relationships (merge_relations rs st)) ->
        In x (relationships st)
        \/ exists r a b,
             In r rs /\ In a (nodes st) /\ In b (nodes st) /\
             from r = Some (name (properties a)) /\
             to r = Some (name (properties b)) /\
             x = mkRelationship (node_id a) (node_id b) memory_type
                   (mkRelation None None (relationType r)))
    /\
    (forall r a b,
        In r rs -> In a (nodes st) -> In b (nodes st) ->
        from r = Some (name (properties a)) ->
        to r = Some (name (properties b)) ->
        exists y,
          In y (relationships (merge_relations rs st)) /\
          rel_start y = node_id a /\ rel_end y = node_id b /\
          rel_type y = memory_type /\
          relationType (rel_properties y) = relationType r).
Proof.
  intros rs st. exact (merge_relations_spec rs st).
Qed.

Lemma merge_relations_links_witness :
  exists y,
    In y (relationships (merge_relations [alice_likes_bob] two_nodes)) /\
    rel_start y = 1 /\ rel_end y = 2 /\
    rel_type y = memory_type /\
    relationType (rel_properties y) = lit "LIKES".
Proof.
  apply (proj2 (merge_relations_links [alice_likes_bob] two_nodes)
           alice_likes_bob (mkNode 1 alice) (mkNode 2 bob)).
  - left. reflexivity.
  - left. reflexivity.
  - right. left. reflexivity.
  - reflexivity.
  - reflexivity.
Defined.

(** ** Operations that load, change the graph and save *)

(** The outcome of an operation of the form load, save, return. *)
Lemma load_then_save {A : Type} (f : KnowledgeGraph -> KnowledgeGraph)
    (k : KnowledgeGraph -> A) (env : Environment) (w : World) :
  let run := (graph <- loadGraph ;; saveGraph (f graph) ;;; ret (k graph))
               env w in
  let g := graph_of (store w) in
  match fst run with
  | Ok a =>
      a = k g /\
      store (snd run)
      = merge_relations (relations (f g))
          (merge_entities (entities (f g)) (store w))
  | Throw e => store (snd run) = store w
  end.
Proof.
  intros run g.
  assert (E : run =
              match loadGraph env w with
              | (Ok a, w') =>
                  match saveGraph (f a) env w' with
                  | (Ok _, w'') => (Ok (k a), w'')
                  | (Throw e, w'') => (Throw e, w'')
                  end
              | (Throw e, w') => (Throw e, w')
              end) by reflexivity.
  clearbody run. subst g.
  destruct (loadGraph_spec env w) as [(e & L)| L]; rewrite L in E; clear L.
  - subst run. reflexivity.
  - rewrite load_rows_graph in E.
    match type of E with
    | context [saveGraph ?g' env ?w'] =>
        destruct (saveGraph_spec g' env w') as (evs & _ & [(e & S)| S]);
          rewrite S in E; clear S
    end; subst run; cbn [fst snd store]; auto.
Qed.

Lemma merge_entity_names (st : Store) (e : Entity) (s : jsstring) :
  In s (map node_name (nodes (merge_entity st e))) <->
  In s (map node_name (nodes st)) \/ s = name e.
Proof.
  unfold merge_entity.
  destruct (existsb _ (nodes st)) eqn:E; cbn [nodes].
  - apply existsb_exists in E as (m & Hm & E). apply streq_true in E.
    assert (K : map node_name
                  (map (fun n => if streq (name (properties n)) (name e)
                                 then mkNode (node_id n) e else n) (nodes st))
                = map node_name (nodes st)).
    { rewrite map_map. apply map_ext. intros n. unfold node_name.
      destruct (streq _ _) eqn:S; [|reflexivity].
      apply streq_true in S. cbn [properties]. now symmetry. }
    rewrite K. split; [auto|]. intros [H| ->]; [exact H|].
    apply in_map_iff. exists m. split; [exact E|exact Hm].
  - rewrite map_app, in_app_iff. cbn [map In node_name properties].
    intuition auto.
Qed.

Lemma merge_entities_names (es : list Entity) :
  forall st s,
    In s (map node_name (nodes (merge_entities es st))) <->
    In s (map node_name (nodes st)) \/ In s (map name es).
Proof.
  unfold merge_entities.
  induction es as [|e es IH]; intros st s; cbn [fold_left map In].
  - tauto.
  - rewrite IH, merge_entity_names. intuition auto.
Qed.

Lemma graph_of_names (st : Store) :
  map name (entities (graph_of st)) = map node_name (nodes st).
Proof. unfold graph_of. cbn [entities]. now rewrite map_map. Qed.

Lemma known_name (es : list Entity) (e : Entity) :
  existsb (fun existingEntity => streq (name existingEntity) (name e)) es
  = true <-> In (name e) (map name es).
Proof.
  rewrite existsb_exists, in_map_iff.
  split; intros (x & H1 & H2).
  - apply streq_true in H2. now exists x.
  - exists x. split; [exact H2|]. now apply streq_true.
Qed.

Lemma filter_none {A : Type} (f : A -> bool) (l : list A) :
  (forall x, In x l -> f x = false) -> filter f l = [].
Proof.
  induction l as [|x l IH]; intros H; [reflexivity|]. cbn [filter].
  rewrite (H x (or_introl eq_refl)). apply IH. intros y Hy. apply H. now right.
Qed.

(** What [createEntities] returns and stores when it returns. *)
Lemma createEntities_returns (es added : list Entity) (env : Environment)
    (w w1 : World) :
  createEntities es env w = (Ok added, w1) ->
  added = filter (fun e =>
                    negb (existsb (fun existingEntity =>
                                     streq (name existingEntity) (name e))
                            (entities (graph_of (store w)))))
            es
  /\ store w1
     = merge_relations (relations (graph_of (store w)))
         (merge_entities (entities (graph_of (store w)) ++ added) (store w)).
Proof.
  intros H.
  set (f := fun graph =>
              mkGraph
                (entities graph
                 ++ filter (fun e =>
                              negb (existsb
                                      (fun existingEntity =>
                                         streq (name existingEntity) (name e))
                                      (entities graph)))
                      (map (fun entity => entity) es))
                (relations graph)).
  set (k := fun graph =>
              filter (fun e =>
                        negb (existsb
                                (fun existingEntity =>
                                   streq (name existingEntity) (name e))
                                (entities graph)))
                (map (fun entity => entity) es)).
  change (createEntities es env w)
    with ((graph <- loadGraph ;; saveGraph (f graph) ;;; ret (k graph)) env w)
    in H.
  pose proof (load_then_save f k env w) as K.
  cbv zeta in K. rewrite H in K. cbn [fst snd] in K.
  unfold f, k in K. cbn [entities relations] in K. rewrite map_id in K.
  destruct K as [-> ->]. split; reflexivity.
Qed.

(** X5.  [createEntities] is idempotent on names: when a call has
    returned, every entity of the request has a node of its name, and
    the same request made again, if it returns, reports no entity as
    added. *)
Theorem createEntities_again_adds_nothing :
  forall (es added added' : list Entity) (env env' : Environment)
         (w w1 w2 : World),
    createEntities es env w = (Ok added, w1) ->
    createEntities es env' w1 = (Ok added', w2) ->
    (forall e, In e es -> In (name e) (map node_name (nodes (store w1))))
    /\ added' = [].
Proof.
  intros es added added' env env' w w1 w2 H1 H2.
  apply createEntities_returns in H1 as [Ha Hs].
  apply createEntities_returns in H2 as [Ha' _].
  assert (K : forall e, In e es ->
                        In (name e) (map node_name (nodes (store w1)))).
  { intros e He. rewrite Hs.
    destruct (merge_relations_keep (relations (graph_of (store w)))
                (merge_entities (entities (graph_of (store w)) ++ added)
                   (store w))) as [-> _].
    apply merge_entities_names. right. rewrite map_app, in_app_iff.
    destruct (existsb (fun x => streq (name x) (name e))
                (entities (graph_of (store w)))) eqn:E.
    - left. now apply known_name.
    - right. apply in_map. rewrite Ha. apply filter_In. split; [exact He|].
      now rewrite E. }
  split; [exact K|].
  rewrite Ha'. apply filter_none. intros e He.
  apply negb_false_iff, known_name. rewrite graph_of_names. now apply K.
Qed.

Lemma createEntities_again_adds_nothing_witness :
  (forall e, In e [alice; bob] ->
             In (name e)
                (map node_name
                   (nodes (store (snd (createEntities [alice; bob]
                                         (quiet no_answer)
                                         (mkWorld empty_store [])))))))
  /\ fst (createEntities [alice; bob] (quiet no_answer)
            (snd (createEntities [alice; bob] (quiet no_answer)
                    (mkWorld empty_store []))))
     = Ok [].
Proof.
  destruct (createEntities_again_adds_nothing [alice; bob] [alice; bob] []
              (quiet no_answer) (quiet no_answer)
              (mkWorld empty_store [])
              (snd (createEntities [alice; bob] (quiet no_answer)
                      (mkWorld empty_store [])))
              (snd (createEntities [alice; bob] (quiet no_answer)
                      (snd (createEntities [alice; bob] (quiet no_answer)
                              (mkWorld empty_store []))))))
    as [H _].
  - vm_compute. reflexivity.
  - vm_compute. reflexivity.
  - split; [exact H|vm_compute; reflexivity].
Defined.

Lemma same_name_same_node (l : list MemoryNode) (m n : MemoryNode) :
  NoDup (map node_name l) -> In m l -> In n l ->
  node_name m = node_name n -> m = n.
Proof.
  induction l as [|x l IH]; intros Hnd Hm Hn E; [destruct Hm|].
  cbn [map] in Hnd. inversion Hnd as [|? ? Hx Hl]; subst.
  destruct Hm as [->|Hm], Hn as [->|Hn]; auto.
  - exfalso. apply Hx. rewrite E. now apply in_map.
  - exfalso. apply Hx. rewrite <- E. now apply in_map.
Qed.






(** ** [addObservations] *)

Lemma find_by_name (s : jsstring) (ents : list Entity) :
  find (fun e => streq (name e) s) ents = None <-> ~ In s (map name ents).
Proof.
  induction ents as [|e ents IH]; cbn [find map In]; [tauto|].
  destruct (streq (name e) s) eqn:E.
  - apply streq_true in E. split; [discriminate|]. intros H. exfalso. auto.
  - rewrite IH. split.
    + intros H [K|K]; [|auto]. apply streq_true in K. congruence.
    + intros H K. apply H. now right.
Qed.

Lemma update_first_names (p : Entity -> bool) (f : Entity -> Entity)
    (l : list Entity) :
  (forall e, name (f e) = name e) ->
  map name (update_first p f l) = map name l.
Proof.
  intros Hf. induction l as [|e l IH]; [reflexivity|].
  cbn [update_first]. destruct (p e); cbn [map]; [now rewrite Hf|].
  now rewrite IH.
Qed.

Lemma add_each_unknown (reqs : list ObservationRequest) :
  forall ents,
    (exists o, In o reqs /\ ~ In (entityName o) (map name ents)) ->
    exists o,
      In o reqs /\ ~ In (entityName o) (map name ents) /\
      add_each ents reqs = Throw (not_found (entityName o)).
Proof.
  induction reqs as [|o reqs IH]; intros ents (o0 & Hin & Hmiss);
    [destruct Hin|].
  cbn [add_each].
  destruct (find (fun e => streq (name e) (entityName o)) ents)
    as [entity|] eqn:F.
  - destruct Hin as [->|Hin].
    + apply find_by_name in Hmiss. congruence.
    + match goal with
      | |- context [add_each ?ents' reqs] =>
          destruct (IH ents') as (o1 & Hin1 & Hmiss1 & ->)
      end.
      * exists o0. split; [exact Hin|].
        now rewrite update_first_names by reflexivity.
      * rewrite update_first_names in Hmiss1 by reflexivity.
        exists o1. split; [now right|]. split; [exact Hmiss1|reflexivity].
  - exists o. split; [now left|]. split; [|reflexivity].
    now apply find_by_name.
Qed.

(** X7.  When a request of [addObservations] names an entity that the
    loaded graph does not contain, the call throws 'Entity with name
    ... not found' for such a request and stops there: nothing is saved,
    not even what the requests before it added, and no statement
    follows the load. *)
Theorem addObservations_unknown_entity :
  forall (reqs : list ObservationRequest) (env : Environment)
         (w w0 : World) (g : KnowledgeGraph),
    loadGraph env w = (Ok g, w0) ->
    (exists o, In o reqs /\ ~ In (entityName o) (map name (entities g))) ->
    exists o,
      In o reqs /\ ~ In (entityName o) (map name (entities g)) /\
      addObservations reqs env w = (Throw (not_found (entityName o)), w0).
Proof.
  intros reqs env w w0 g Hl Hmiss.
  destruct (add_each_unknown reqs (entities g) Hmiss) as (o & Hin & Ho & E).
  exists o. split; [exact Hin|]. split; [exact Ho|].
  unfold addObservations, bind. rewrite Hl, E. reflexivity.
Qed.

Lemma addObservations_unknown_entity_witness :
  exists o,
    In o [mkRequest (lit "Alice") [lit "runs"];
          mkRequest (lit "Zed") [lit "sleeps"]] /\
    ~ In (entityName o) (map name (entities (graph_of two_nodes))) /\
    addObservations [mkRequest (lit "Alice") [lit "runs"];
                     mkRequest (lit "Zed") [lit "sleeps"]]
      (quiet no_answer) (mkWorld two_nodes [])
    = (Throw (not_found (entityName o)),
       snd (loadGraph (quiet no_answer) (mkWorld two_nodes []))).
Proof.
  apply (addObservations_unknown_entity
           [mkRequest (lit "Alice") [lit "runs"];
            mkRequest (lit "Zed") [lit "sleeps"]]
           (quiet no_answer) (mkWorld two_nodes [])).
  - vm_compute. reflexivity.
  - exists (mkRequest (lit "Zed") [lit "sleeps"]).
    split; [right; left; reflexivity|].
    cbn. intros H. repeat (destruct H as [H|H]; [discriminate H|]). exact H.
Defined.

(** Saving the loaded entities after a change that keeps their names
    writes each of them to the node it was loaded from, when no two
    nodes share a name. *)
Lemma merge_entities_write_back (es : list Entity) :
  forall (todo done : list MemoryNode) (st : Store),
    nodes st = done ++ todo ->
    NoDup (map node_name (done ++ todo)) ->
    map name es = map node_name todo ->
    nodes (merge_entities es st) = done ++ write_back todo es.
Proof.
  unfold merge_entities, write_back.
  induction es as [|e es IH]; intros todo done st Hst Hnd Hn;
    destruct todo as [|n todo]; try discriminate; cbn [fold_left].
  - exact Hst.
  - cbn [map] in Hn. injection Hn as He Hn.
    assert (Hm : nodes (merge_entity st e)
                 = (done ++ [mkNode (node_id n) e]) ++ todo).
    { unfold merge_entity.
      assert (E : existsb (fun m => streq (name (properties m)) (name e))
                    (nodes st) = true).
      { apply existsb_exists. exists n. split.
        - rewrite Hst. apply in_or_app. right. now left.
        - apply streq_true. now symmetry. }
      rewrite E. cbn [nodes]. rewrite Hst, map_app. cbn [map].
      rewrite <- app_assoc. cbn [app].
      assert (Hn' : streq (name (properties n)) (name e) = true)
        by (apply streq_true; now symmetry).
      rewrite Hn'.
      assert (Hother : forall l,
                 (forall m, In m l -> In m (done ++ n :: todo)) ->
                 ~ In n l ->
                 map (fun m => if streq (name (properties m)) (name e)
                               then mkNode (node_id m) e else m) l = l).
      { intros l Hl Hnl. rewrite <- (map_id l) at 2. apply map_ext_in.
        intros m Hm.
        destruct (streq (name (properties m)) (name e)) eqn:S;
          [|reflexivity].
        apply streq_true in S. exfalso. apply Hnl.
        rewrite <- (same_name_same_node (done ++ n :: todo) m n Hnd);
          auto.
        - apply in_or_app. right. now left.
        - unfold node_name in He |- *. congruence. }
      rewrite map_app in Hnd. apply NoDup_remove_2 in Hnd.
      rewrite <- map_app in Hnd.
      assert (Hnot : ~ In n (done ++ todo)).
      { intros H. apply Hnd. now apply in_map. }
      rewrite !Hother; auto.
      - intros m Hm. apply in_or_app. right. now right.
      - intros H. apply Hnot. apply in_or_app. now right.
      - intros m Hm. apply in_or_app. now left.
      - intros H. apply Hnot. apply in_or_app. now left. }
    rewrite (IH todo (done ++ [mkNode (node_id n) e]) (merge_entity st e));
      auto.
    + cbn [combine map fst snd]. now rewrite <- app_assoc.
    + rewrite <- app_assoc. cbn [app].
      rewrite !map_app in *. cbn [map] in *.
      unfold node_name at 2. cbn [properties]. now rewrite He.
Qed.

Lemma grows_refl (e : Entity) : grows e e.
Proof. repeat split. exists []. now rewrite app_nil_r. Qed.

Lemma grows_trans (a b c : Entity) : grows a b -> grows b c -> grows a c.
Proof.
  intros (N1 & T1 & x & O1) (N2 & T2 & y & O2).
  repeat split; try congruence.
  exists (x ++ y). now rewrite O2, O1, app_assoc.
Qed.

Lemma update_first_grows (p : Entity -> bool) (f : Entity -> Entity)
    (l : list Entity) :
  (forall e, grows e (f e)) -> Forall2 grows l (update_first p f l).
Proof.
  intros Hf. induction l as [|e l IH]; cbn [update_first]; [constructor|].
  destruct (p e); constructor; auto using grows_refl.
  clear. induction l; constructor; auto using grows_refl.
Qed.

Lemma Forall2_grows_trans (a b c : list Entity) :
  Forall2 grows a b -> Forall2 grows b c -> Forall2 grows a c.
Proof.
  intros H. revert c. induction H as [|x y a b Hxy _ IH]; intros c Hc;
    inversion Hc; subst; constructor; eauto using grows_trans.
Qed.

Lemma Forall2_grows_names (a b : list Entity) :
  Forall2 grows a b -> map name b = map name a.
Proof.
  induction 1 as [|x y a b (N & _) _ IH]; cbn [map]; congruence.
Qed.

Lemma add_each_grows (reqs : list ObservationRequest) :
  forall ents final results,
    add_each ents reqs = Ok (final, results) ->
    Forall2 grows ents final /\
    map added_to results = map entityName reqs.
Proof.
  induction reqs as [|o reqs IH]; intros ents final results H;
    cbn [add_each] in H.
  - injection H as <- <-. split; [|reflexivity].
    induction ents; constructor; auto using grows_refl.
  - destruct (find _ ents) as [entity|]; [|discriminate].
    destruct (add_each _ reqs) as [[final' results']|] eqn:R; [|discriminate].
    injection H as <- <-. apply IH in R as [Hg Hr].
    split; [|cbn [map added_to]; now rewrite Hr].
    eapply Forall2_grows_trans; [|exact Hg].
    apply update_first_grows. intros e.
    repeat split. cbn [observations]. eauto.
Qed.

(** What [addObservations] returns and stores when it returns. *)
Lemma addObservations_returns (reqs : list ObservationRequest)
    (results : list ObservationResult) (env : Environment) (w w1 : World) :
  addObservations reqs env w = (Ok results, w1) ->
  exists final,
    add_each (entities (graph_of (store w))) reqs = Ok (final, results) /\
    store w1 = merge_relations (relations (graph_of (store w)))
                 (merge_entities final (store w)).
Proof.
  unfold addObservations, bind.
  destruct (loadGraph_spec env w) as [(e & ->)| ->]; [discriminate|].
  rewrite load_rows_graph.
  destruct (add_each _ reqs) as [[final results']|e]; [|discriminate].
  match goal with
  | |- context [saveGraph ?g' env ?w'] =>
      destruct (saveGraph_spec g' env w') as (evs & _ & [(e & ->)| ->])
  end; [discriminate|].
  cbn [ret entities relations store]. intros [= <- <-].
  exists final. split; reflexivity.
Qed.

Lemma write_back_grows (ns : list MemoryNode) (es : list Entity) :
  Forall2 grows (map properties ns) es ->
  Forall2 (fun n n' => node_id n' = node_id n
                       /\ grows (properties n) (properties n'))
    ns (write_back ns es).
Proof.
  unfold write_back. revert es.
  induction ns as [|n ns IH]; intros es H; inversion H; subst;
    cbn [combine map]; constructor; auto.
Qed.

(** X8.  [addObservations] only appends: when no two nodes of the store
    share a name and the call returns, the store has the same nodes in
    the same order, each with its name, its entityType and its former
    observations in their order, followed by what was added; and there
    is one result per request, in the order of the requests. *)
Theorem addObservations_only_appends :
  forall (reqs : list ObservationRequest) (results : list ObservationResult)
         (env : Environment) (w w1 : World),
    NoDup (map node_name (nodes (store w))) ->
    addObservations reqs env w = (Ok results, w1) ->
    Forall2 (fun n n' => node_id n' = node_id n
                         /\ grows (properties n) (properties n'))
      (nodes (store w)) (nodes (store w1))
    /\ map added_to results = map entityName reqs.
Proof.
  intros reqs results env w w1 Hnd H.
  apply addObservations_returns in H as (final & Ha & ->).
  apply add_each_grows in Ha as [Hg Hr]. split; [|exact Hr].
  destruct (merge_relations_keep (relations (graph_of (store w)))
              (merge_entities final (store w))) as [-> _].
  rewrite (merge_entities_write_back final (nodes (store w)) [] (store w));
    auto.
  - cbn [app]. now apply write_back_grows.
  - rewrite (Forall2_grows_names _ _ Hg). apply graph_of_names.
Qed.

Lemma addObservations_only_appends_witness :
  Forall2 (fun n n' => node_id n' = node_id n
                       /\ grows (properties n) (properties n'))
    (nodes two_nodes)
    (nodes (store (snd (addObservations
                          [mkRequest (lit "Bob") [lit "runs"; lit "reads"]]
                          (quiet no_answer) (mkWorld two_nodes [])))))
  /\ map added_to [mkAdded (lit "Bob") [lit "runs"; lit "reads"]]
     = map entityName [mkRequest (lit "Bob") [lit "runs"; lit "reads"]].
Proof.
  apply (addObservations_only_appends
           [mkRequest (lit "Bob") [lit "runs"; lit "reads"]]
           [mkAdded (lit "Bob") [lit "runs"; lit "reads"]]
           (quiet no_answer) (mkWorld two_nodes [])).
  - cbn. repeat constructor; cbn; intros H;
      repeat (destruct H as [H|H]; [discriminate H|]); exact H.
  - vm_compute. reflexivity.
Defined.









(** ** [deleteObservations] *)

Lemma indexOf_nth (x : jsstring) (l : list jsstring) (i : nat) :
  indexOf x l = Some i -> i < List.length l /\ nth i l [] = x.
Proof.
  revert i. induction l as [|y l IH]; intros i; cbn [indexOf];
    [discriminate|].
  destruct (streq y x) eqn:E.
  - intros [= <-]. apply streq_true in E. cbn. split; [lia|exact E].
  - destruct (indexOf x l) as [j|]; [|discriminate].
    intros [= <-]. destruct (IH j eq_refl) as [H1 H2].
    cbn. split; [lia|exact H2].
Qed.

Lemma indexOf_present (x : jsstring) (l : list jsstring) :
  In x l -> exists i, indexOf x l = Some i.
Proof.
  induction l as [|y l IH]; intros H; [destruct H|]. cbn [indexOf].
  destruct (streq y x) eqn:E; [eauto|].
  destruct H as [->|H]; [now rewrite streq_refl in E|].
  destruct (IH H) as (i & ->). cbn. eauto.
Qed.

Lemma indicesToRemove_spec (obs req : list jsstring) (i : nat) :
  In i (indicesToRemove obs req) <->
  exists x, In x req /\ indexOf x obs = Some i.
Proof.
  unfold indicesToRemove. rewrite in_flat_map. split.
  - intros (x & Hx & H). exists x. split; [exact Hx|].
    destruct (indexOf x obs) as [j|]; [|destruct H].
    destruct H as [->|[]]. reflexivity.
  - intros (x & Hx & H). exists x. split; [exact Hx|].
    rewrite H. now left.
Qed.

Lemma indicesToRemove_nodup (obs req : list jsstring) :
  NoDup req -> NoDup (indicesToRemove obs req).
Proof.
  induction 1 as [|x req Hx Hreq IH]; [constructor|].
  change (indicesToRemove obs (x :: req))
    with (match indexOf x obs with Some i => [i] | None => [] end
          ++ indicesToRemove obs req).
  destruct (indexOf x obs) as [i|] eqn:E; [|exact IH].
  cbn [app]. constructor; [|exact IH].
  intros H. apply indicesToRemove_spec in H as (y & Hy & Ey).
  apply indexOf_nth in E as [_ E]. apply indexOf_nth in Ey as [_ Ey].
  congruence.
Qed.

Lemma insert_desc_in (i j : nat) (l : list nat) :
  In j (insert_desc i l) <-> j = i \/ In j l.
Proof.
  induction l as [|k l IH]; cbn [insert_desc In]; [intuition auto|].
  destruct (k <=? i); cbn [In]; [intuition auto|].
  rewrite IH. intuition auto.
Qed.

Lemma sort_desc_in (j : nat) (l : list nat) :
  In j (sort_desc l) <-> In j l.
Proof.
  unfold sort_desc. induction l as [|i l IH]; cbn [fold_right In]; [tauto|].
  rewrite insert_desc_in, IH. intuition auto.
Qed.

Lemma insert_desc_sorted (i : nat) (l : list nat) :
  StronglySorted (fun a b => b < a) l -> ~ In i l ->
  StronglySorted (fun a b => b < a) (insert_desc i l).
Proof.
  induction 1 as [|k l Hs IH Hk]; intros Hi; cbn [insert_desc].
  - constructor; constructor.
  - destruct (k <=? i) eqn:E.
    + apply Nat.leb_le in E.
      assert (k < i) by (assert (k <> i) by (intros ->; apply Hi; now left);
                         lia).
      constructor; [now constructor|].
      constructor; [assumption|].
      rewrite Forall_forall in *. intros b Hb. specialize (Hk b Hb). lia.
    + apply Nat.leb_gt in E. constructor.
      * apply IH. intros H. apply Hi. now right.
      * rewrite Forall_forall in *. intros b Hb.
        apply insert_desc_in in Hb as [->|Hb]; auto.
Qed.

Lemma sort_desc_sorted (l : list nat) :
  NoDup l -> StronglySorted (fun a b => b < a) (sort_desc l).
Proof.
  unfold sort_desc. induction 1 as [|i l Hi _ IH]; cbn [fold_right].
  - constructor.
  - apply insert_desc_sorted; [exact IH|].
    intros H. apply Hi. now apply sort_desc_in.
Qed.

Lemma splice_one_nth (j : nat) (l : list jsstring) :
  NoDup l -> j < List.length l ->
  splice_one j l = filter (fun o => negb (streq o (nth j l []))) l.
Proof.
  intros Hnd. revert j. induction Hnd as [|x l Hx Hnd IH]; intros j Hj;
    [cbn in Hj; lia|].
  destruct j as [|j]; cbn [splice_one nth filter].
  - rewrite streq_refl. cbn [negb].
    symmetry. rewrite <- (filter_ext_in (fun _ => true)).
    + clear. induction l as [|y l IH]; cbn; [reflexivity|now rewrite IH].
    + intros y Hy. symmetry. apply negb_true_iff.
      destruct (streq y x) eqn:E; [|reflexivity].
      apply streq_true in E. subst. contradiction.
  - cbn in Hj. assert (Hj' : j < List.length l) by lia.
    destruct (streq x (nth j l [])) eqn:E.
    + apply streq_true in E. exfalso. apply Hx. rewrite E.
      now apply nth_In.
    + cbn [negb]. f_equal. now apply IH.
Qed.

Lemma splice_one_before (i j : nat) (l : list jsstring) :
  i < j -> nth i (splice_one j l) [] = nth i l [].
Proof.
  revert i j. induction l as [|x l IH]; intros i j H;
    [now destruct j|].
  destruct j as [|j]; [lia|]. cbn [splice_one].
  destruct i as [|i]; [reflexivity|]. cbn [nth]. apply IH. lia.
Qed.

Lemma splice_one_length (j : nat) (l : list jsstring) :
  j < List.length l -> List.length (splice_one j l) = List.length l - 1.
Proof.
  revert j. induction l as [|x l IH]; intros j H; [cbn in H; lia|].
  destruct j as [|j]; cbn [splice_one]; cbn [List.length] in *; [lia|].
  rewrite IH by lia. lia.
Qed.

Lemma filter_filter {A : Type} (f g : A -> bool) (l : list A) :
  filter f (filter g l) = filter (fun x => g x && f x) l.
Proof.
  induction l as [|x l IH]; [reflexivity|]. cbn [filter].
  destruct (g x); cbn [filter andb]; [destruct (f x)|]; now rewrite IH.
Qed.

(** Removing positions from the highest to the lowest removes the
    values that stood there. *)
Lemma splice_descending (js : list nat) :
  forall l,
    StronglySorted (fun a b => b < a) js ->
    NoDup l ->
    (forall j, In j js -> j < List.length l) ->
    fold_left (fun l index => splice_one index l) js l
    = filter (fun o => negb (str_mem o (map (fun j => nth j l []) js))) l.
Proof.
  induction js as [|j js IH]; intros l Hs Hnd Hlt; cbn [fold_left map].
  - cbn. symmetry. clear.
    induction l as [|y l IH]; cbn; [reflexivity|now rewrite IH].
  - inversion Hs as [|? ? Hs' Hj]; subst.
    rewrite Forall_forall in Hj.
    assert (Hjl : j < List.length l) by (apply Hlt; now left).
    rewrite IH; auto.
    + rewrite (splice_one_nth j l Hnd Hjl), filter_filter.
      apply filter_ext_in. intros o Ho.
      unfold str_mem. cbn [existsb]. rewrite negb_orb. f_equal.
      f_equal. f_equal. apply map_ext_in. intros i Hi.
      rewrite <- (splice_one_nth j l Hnd Hjl).
      apply splice_one_before. now apply Hj.
    + rewrite (splice_one_nth j l Hnd Hjl). now apply NoDup_filter.
    + intros i Hi. rewrite splice_one_length by exact Hjl.
      specialize (Hj i Hi). lia.
Qed.

(** One request removes the observations it lists, and nothing else,
    when neither list repeats a value. *)
Lemma remove_observations_filter (obs req : list jsstring) :
  NoDup obs -> NoDup req ->
  remove_observations obs req
  = filter (fun o => negb (str_mem o req)) obs.
Proof.
  intros Hobs Hreq. unfold remove_observations.
  rewrite splice_descending.
  - apply filter_ext_in. intros o Ho. f_equal.
    apply eq_true_iff_eq. rewrite !str_mem_spec, in_map_iff. split.
    + intros (j & <- & Hj). apply sort_desc_in, indicesToRemove_spec in Hj.
      destruct Hj as (x & Hx & E). apply indexOf_nth in E as [_ ->].
      exact Hx.
    + intros Hr. destruct (indexOf_present o obs Ho) as (j & E).
      exists j. split; [now apply indexOf_nth in E|].
      apply sort_desc_in, indicesToRemove_spec. eauto.
  - apply sort_desc_sorted. now apply indicesToRemove_nodup.
  - exact Hobs.
  - intros j Hj. apply sort_desc_in, indicesToRemove_spec in Hj.
    destruct Hj as (x & _ & E). now apply indexOf_nth in E.
Qed.

Lemma streq_sym (a b : jsstring) : streq a b = streq b a.
Proof.
  apply eq_true_iff_eq. rewrite !streq_true. split; congruence.
Qed.

Lemma update_first_unique (s : jsstring) (f : Entity -> Entity)
    (l : list Entity) :
  NoDup (map name l) ->
  update_first (fun e => streq (name e) s) f l
  = map (fun e => if streq (name e) s then f e else e) l.
Proof.
  induction l as [|e l IH]; intros Hnd; [reflexivity|].
  cbn [map] in Hnd. inversion Hnd as [|? ? He Hl]; subst.
  cbn [update_first map]. destruct (streq (name e) s) eqn:E.
  - f_equal. rewrite <- (map_id l) at 1. apply map_ext_in. intros x Hx.
    destruct (streq (name x) s) eqn:Ex; [|reflexivity].
    apply streq_true in E, Ex. exfalso. apply He. rewrite E, <- Ex.
    now apply in_map.
  - f_equal. now apply IH.
Qed.

Lemma filter_all {A : Type} (l : list A) : filter (fun _ => true) l = l.
Proof. induction l as [|x l IH]; cbn; [reflexivity|now rewrite IH]. Qed.

(** All the requests of [deleteObservations] together, on entities of
    distinct names whose observations are distinct. *)
Lemma delete_each_filter (ds : list DeletionRequest) :
  forall ents,
    NoDup (map name ents) ->
    Forall (fun e => NoDup (observations e)) ents ->
    Forall (fun d => NoDup (deletion_observations d)) ds ->
    delete_each ents ds
    = map (fun e =>
             mkEntity (name e) (entityType e)
               (filter (fun o => negb (asked_to_delete ds (name e) o))
                  (observations e)))
        ents.
Proof.
  induction ds as [|d ds IH]; intros ents Hn Ho Hd; cbn [delete_each].
  - rewrite <- (map_id ents) at 1. apply map_ext. intros e.
    unfold asked_to_delete. cbn [existsb negb]. rewrite filter_all.
    now destruct e.
  - inversion Hd as [|? ? Hd1 Hd']; subst.
    rewrite update_first_unique by exact Hn.
    rewrite IH; auto.
    + rewrite map_map. apply map_ext_in. intros e He.
      rewrite Forall_forall in Ho. specialize (Ho e He).
      unfold asked_to_delete. cbn [existsb].
      rewrite (streq_sym (deletion_entity d) (name e)).
      destruct (streq (name e) (deletion_entity d));
        cbn [name entityType observations andb orb]; [|reflexivity].
      rewrite remove_observations_filter by auto.
      rewrite filter_filter. f_equal. apply filter_ext. intros o.
      now rewrite negb_orb.
    + rewrite map_map. erewrite map_ext; [exact Hn|].
      intros e. now destruct (streq _ _).
    + rewrite Forall_forall in *. intros e He.
      apply in_map_iff in He as (x & <- & Hx).
      destruct (streq _ _); cbn [observations]; [|now apply Ho].
      rewrite remove_observations_filter by auto.
      apply NoDup_filter. now apply Ho.
Qed.

Lemma write_back_map (h : Entity -> Entity) (ns : list MemoryNode) :
  write_back ns (map h (map properties ns))
  = map (fun n => mkNode (node_id n) (h (properties n))) ns.
Proof.
  unfold write_back. induction ns as [|n ns IH]; [reflexivity|].
  cbn [map combine fst snd]. now rewrite IH.
Qed.

(** X10.  [deleteObservations] removes what it is asked to and nothing
    else: when no two nodes share a name, no node and no request lists
    an observation twice, and the call returns, every node is in its
    place with its name and entityType, and its observations are the
    former ones, in their order, without those that a request for its
    name lists.  Requests for names or observations that are not there
    change nothing. *)
Theorem deleteObservations_removes_the_requested :
  forall (ds : list DeletionRequest) (env : Environment) (w w1 : World),
    NoDup (map node_name (nodes (store w))) ->
    Forall (fun n => NoDup (observations (properties n))) (nodes (store w)) ->
    Forall (fun d => NoDup (deletion_observations d)) ds ->
    deleteObservations ds env w = (Ok tt, w1) ->
    nodes (store w1)
    = map (fun n =>
             mkNode (node_id n)
               (mkEntity (node_name n) (entityType (properties n))
                  (filter (fun o =>
                             negb (asked_to_delete ds (node_name n) o))
                     (observations (properties n)))))
        (nodes (store w)).
Proof.
  intros ds env w w1 Hn Ho Hd H.
  set (f := fun graph =>
              mkGraph (delete_each (entities graph) ds) (relations graph)).
  set (k := fun _ : KnowledgeGraph => tt).
  change (deleteObservations ds env w)
    with ((graph <- loadGraph ;; saveGraph (f graph) ;;; ret (k graph)) env w)
    in H.
  pose proof (load_then_save f k env w) as K.
  cbv zeta in K. rewrite H in K. cbn [fst snd] in K.
  unfold f in K. cbn [entities relations] in K. destruct K as [_ ->].
  match goal with
  | |- nodes (merge_relations ?rs ?st) = _ =>
      destruct (merge_relations_keep rs st) as [-> _]
  end.
  unfold graph_of at 1. cbn [entities].
  rewrite delete_each_filter; auto.
  - rewrite (merge_entities_write_back _ (nodes (store w)) [] (store w));
      auto.
    + cbn [app]. apply write_back_map.
    + rewrite !map_map. reflexivity.
  - now rewrite map_map.
  - rewrite Forall_forall in *. intros e He.
    apply in_map_iff in He as (n & <- & Hin). now apply Ho.
Qed.

Lemma deleteObservations_removes_the_requested_witness :
  nodes (store (snd (deleteObservations
                       [mkDeletion (lit "Alice") [lit "runs"; lit "none"];
                        mkDeletion (lit "Zed") [lit "runs"]]
                       (quiet no_answer)
                       (mkWorld
                          (mkStore
                             [mkNode 1 (mkEntity (lit "Alice") (lit "person")
                                          [lit "reads"; lit "runs";
                                           lit "sings"])]
                             [] [])
                          []))))
  = map (fun n =>
           mkNode (node_id n)
             (mkEntity (node_name n) (entityType (properties n))
                (filter (fun o =>
                           negb (asked_to_delete
                                   [mkDeletion (lit "Alice")
                                      [lit "runs"; lit "none"];
                                    mkDeletion (lit "Zed") [lit "runs"]]
                                   (node_name n) o))
                   (observations (properties n)))))
      [mkNode 1 (mkEntity (lit "Alice") (lit "person")
                   [lit "reads"; lit "runs"; lit "sings"])].
Proof.
  apply (deleteObservations_removes_the_requested
           [mkDeletion (lit "Alice") [lit "runs"; lit "none"];
            mkDeletion (lit "Zed") [lit "runs"]]
           (quiet no_answer)
           (mkWorld
              (mkStore
                 [mkNode 1 (mkEntity (lit "Alice") (lit "person")
                              [lit "reads"; lit "runs"; lit "sings"])]
                 [] [])
              [])).
  - cbn. repeat constructor. intros [].
  - repeat constructor; cbn; intros H;
      repeat (destruct H as [H|H]; [discriminate H|]); exact H.
  - repeat constructor; cbn; intros H;
      repeat (destruct H as [H|H]; [discriminate H|]); exact H.
  - vm_compute. reflexivity.
Defined.

Lemma splice_one_middle (pre rest : list jsstring) (z : jsstring) :
  splice_one (List.length pre) (pre ++ z :: rest) = pre ++ rest.
Proof.
  induction pre as [|x pre IH]; [reflexivity|]. cbn. now rewrite IH.
Qed.

Lemma indexOf_first (pre rest : list jsstring) (x : jsstring) :
  ~ In x pre -> indexOf x (pre ++ x :: rest) = Some (List.length pre).
Proof.
  induction pre as [|y pre IH]; intros H; cbn [app indexOf].
  - now rewrite streq_refl.
  - destruct (streq y x) eqn:E.
    + apply streq_true in E. exfalso. apply H. now left.
    + rewrite IH; [reflexivity|]. intros K. apply H. now right.
Qed.

(** X11.  A request of [deleteObservations] that lists the same
    observation twice removes, with that observation, the one that
    follows it in the list of the entity: the index found for the
    observation is removed twice. *)
Theorem remove_observations_listed_twice :
  forall (pre post : list jsstring) (x y : jsstring),
    ~ In x pre ->
    remove_observations (pre ++ x :: y :: post) [x; x] = pre ++ post.
Proof.
  intros pre post x y H. unfold remove_observations, indicesToRemove.
  cbn [flat_map]. rewrite (indexOf_first pre (y :: post) x H).
  cbn [app sort_desc fold_right insert_desc].
  rewrite Nat.leb_refl. cbn [fold_left].
  now rewrite splice_one_middle, splice_one_middle.
Qed.

Lemma remove_observations_listed_twice_witness :
  remove_observations
    ([lit "reads"] ++ lit "runs" :: lit "sings" :: [lit "swims"])
    [lit "runs"; lit "runs"]
  = [lit "reads"] ++ [lit "swims"].
Proof.
  apply remove_observations_listed_twice.
  cbn. intros H. repeat (destruct H as [H|H]; [discriminate H|]). exact H.
Defined.

(** ** [deleteEntities] and [openNodes] *)

Lemma detach_delete_spec (names : list jsstring) (st : Store) :
  (forall n, In n (nodes (fst (detach_delete names st))) <->
             In n (nodes st) /\ ~ In (node_name n) names)
  /\ (forall r, In r (relationships (fst (detach_delete names st))) <->
                In r (relationships st) /\
                forall n, In n (nodes st) ->
                          In (node_name n) names ->
                          rel_start r <> node_id n
                          /\ rel_end r <> node_id n)
  /\ tokens (fst (detach_delete names st)) = tokens st.
Proof.
  unfold detach_delete. cbn [fst nodes relationships tokens].
  split; [|split; [|reflexivity]].
  - intros n. rewrite filter_In, negb_true_iff.
    unfold node_name. rewrite <- str_mem_spec.
    destruct (str_mem _ _); intuition congruence.
  - intros r. rewrite filter_In, negb_true_iff, orb_false_iff.
    assert (G : forall i,
               existsb (Nat.eqb i)
                 (map node_id
                    (filter (fun n => str_mem (name (properties n)) names)
                       (nodes st))) = false <->
               forall n, In n (nodes st) ->
                         In (node_name n) names -> i <> node_id n).
    { intros i. split.
      - intros E n Hn Hs ->.
        assert (K : existsb (Nat.eqb (node_id n))
                      (map node_id
                         (filter (fun n => str_mem (name (properties n))
                                             names)
                            (nodes st))) = true).
        { apply existsb_exists. exists (node_id n).
          split; [|apply Nat.eqb_refl].
          apply in_map. apply filter_In. split; [exact Hn|].
          now apply str_mem_spec. }
        congruence.
      - intros K. destruct (existsb _ _) eqn:E; [|reflexivity].
        apply existsb_exists in E as (j & Hj & E).
        apply Nat.eqb_eq in E. subst j.
        apply in_map_iff in Hj as (n & Hi & Hn).
        apply filter_In in Hn as [Hn Hs]. apply str_mem_spec in Hs.
        exfalso. now apply (K n Hn Hs). }
    rewrite !G. split.
    + intros (Hr & H1 & H2). split; [exact Hr|]. intros n Hn Hs.
      split; auto.
    + intros (Hr & K). split; [exact Hr|].
      split; intros n Hn Hs; now apply (K n Hn Hs).
Qed.

(** X12.  [deleteEntities] cascades: when the call returns, the nodes
    of the store are those that were there and are not named in the
    request, and the relationships are those that were there and
    neither leave nor reach a node named in the request; the security
    nodes are as they were.  A name that no node carries is ignored. *)
Theorem deleteEntities_cascades :
  forall (names : list jsstring) (env : Environment) (w w1 : World),
    deleteEntities names env w = (Ok tt, w1) ->
    (forall n, In n (nodes (store w1)) <->
               In n (nodes (store w)) /\ ~ In (node_name n) names)
    /\ (forall r, In r (relationships (store w1)) <->
                  In r (relationships (store w)) /\
                  forall n, In n (nodes (store w)) ->
                            In (node_name n) names ->
                            rel_start r <> node_id n
                            /\ rel_end r <> node_id n)
    /\ tokens (store w1) = tokens (store w).
Proof.
  intros names env w w1 H.
  destruct names as [|s names].
  { cbn in H. injection H as <-. split; [|split; [|reflexivity]].
    - intros n. split; [intros K; split; [exact K|intros []]
                       |now intros [K _]].
    - intros r. split; [intros K; split; [exact K|intros n _ []]
                       |now intros [K _]]. }
  generalize (detach_delete_spec (s :: names) (store w)).
  unfold deleteEntities in H. unfold_m. cbn [log store] in H.
  destruct (store_fault env _ _) as [e|]; [discriminate|].
  injection H as <-. cbn [store]. intros K. exact K.
Qed.

Lemma deleteEntities_cascades_witness :
  (forall n, In n (nodes (store (snd (deleteEntities [lit "Alice"]
                                        (quiet no_answer)
                                        (mkWorld liked_store [])))))
             <-> In n (nodes liked_store)
                 /\ ~ In (node_name n) [lit "Alice"])
  /\ (forall r, In r (relationships
                        (store (snd (deleteEntities [lit "Alice"]
                                       (quiet no_answer)
                                       (mkWorld liked_store [])))))
                <-> In r (relationships liked_store) /\
                    forall n, In n (nodes liked_store) ->
                              In (node_name n) [lit "Alice"] ->
                              rel_start r <> node_id n
                              /\ rel_end r <> node_id n)
  /\ tokens (store (snd (deleteEntities [lit "Alice"] (quiet no_answer)
                           (mkWorld liked_store []))))
     = tokens liked_store.
Proof.
  apply (deleteEntities_cascades [lit "Alice"] (quiet no_answer)
           (mkWorld liked_store [])).
  vm_compute. reflexivity.
Defined.

(** X13.  When the graph loads, [openNodes] returns the loaded entities
    whose name is one of the given names, and the loaded relations
    whose from and to are both names of returned entities; the store is
    not changed. *)
Theorem openNodes_returns_named_subgraph :
  forall (names : list jsstring) (env : Environment) (w w1 : World)
         (loaded : KnowledgeGraph),
    loadGraph env w = (Ok loaded, w1) ->
    exists g,
      openNodes names env w = (Ok g, w1) /\
      store w1 = store w /\
      (forall e, In e (entities g) <->
                 In e (entities loaded) /\ In (name e) names) /\
      (forall r, In r (relations g) <->
                 In r (relations loaded) /\
                 (exists a, In a (entities g) /\ from r = Some (name a)) /\
                 (exists b, In b (entities g) /\ to r = Some (name b))).
Proof.
  intros names env w w1 loaded H.
  eexists. split; [|split].
  - unfold openNodes, bind. rewrite H. reflexivity.
  - destruct (loadGraph_result env w) as [Hs _]. now rewrite H in Hs.
  - cbn [entities relations]. split.
    + intros e. now rewrite filter_In, str_mem_spec.
    + intros r. rewrite filter_In, andb_true_iff, !has_name_spec. tauto.
Qed.

Lemma openNodes_returns_named_subgraph_witness :
  exists g,
    openNodes [lit "Alice"; lit "Zed"] (quiet no_answer)
      (mkWorld liked_store [])
    = (Ok g, snd (loadGraph (quiet no_answer) (mkWorld liked_store []))) /\
    store (snd (loadGraph (quiet no_answer) (mkWorld liked_store [])))
    = store (mkWorld liked_store []) /\
    (forall e, In e (entities g) <->
               In e (entities (graph_of liked_store))
               /\ In (name e) [lit "Alice"; lit "Zed"]) /\
    (forall r, In r (relations g) <->
               In r (relations (graph_of liked_store)) /\
               (exists a, In a (entities g) /\ from r = Some (name a)) /\
               (exists b, In b (entities g) /\ to r = Some (name b))).
Proof.
  apply (openNodes_returns_named_subgraph [lit "Alice"; lit "Zed"]
           (quiet no_answer) (mkWorld liked_store [])).
  vm_compute. reflexivity.
Defined.

(** ** The security node, issued and revoked *)

Lemma run_cypher_remove_rows (n : jsstring) (env : Environment) (w : World) :
  snd (run_cypher true removeSecurityNode_query [(lit "name", PText n)] env w)
  = [[(lit "nodesDeleted",
       VNumber (List.length (filter (fun t => streq t n)
                               (tokens (store w)))))]].
Proof.
  unfold run_cypher.
  rewrite lookup_head, remove_is_not_create, streq_refl. reflexivity.
Qed.

Lemma removeSecurityNode_returns (n : jsstring) (env : Environment)
    (w w1 : World) (rows : list Row) :
  removeSecurityNode n env w = (Ok rows, w1) ->
  store w1 = mkStore (nodes (store w)) (relationships (store w))
               (filter (fun t => negb (streq t n)) (tokens (store w)))
  /\ rows = [[(lit "nodesDeleted",
               VNumber (List.length (filter (fun t => streq t n)
                                       (tokens (store w)))))]].
Proof.
  unfold removeSecurityNode.
  destruct (executeCypherQuery_spec removeSecurityNode_query
              [(lit "name", PText n)] true env w)
    as [(e & _ & ->)|(_ & ->)]; [discriminate|].
  rewrite run_cypher_remove, run_cypher_remove_rows.
  cbn [record_event store]. intros [= <- <-]. split; reflexivity.
Qed.

Lemma filter_absent (n : jsstring) (l : list jsstring) :
  ~ In n l ->
  filter (fun t => negb (streq t n)) l = l /\
  filter (fun t => streq t n) l = [].
Proof.
  induction l as [|t l IH]; intros H; [split; reflexivity|].
  cbn [filter]. destruct (streq t n) eqn:E.
  - apply streq_true in E. exfalso. apply H. now left.
  - cbn [negb]. destruct IH as [-> ->]; [|split; reflexivity].
    intros K. apply H. now right.
Qed.

(** X14.  Revoking a token that is not there is not an error: when no
    SecurityNode is named [n] and the store does not fail the
    statement, [removeSecurityNode] returns one record that counts 0
    deleted nodes, and the store is as it was. *)
Theorem removeSecurityNode_absent :
  forall (n : jsstring) (env : Environment) (w w1 : World) (rows : list Row),
    ~ In n (tokens (store w)) ->
    removeSecurityNode n env w = (Ok rows, w1) ->
    store w1 = store w /\ rows = [[(lit "nodesDeleted", VNumber 0)]].
Proof.
  intros n env w w1 rows Hn H.
  apply removeSecurityNode_returns in H as [-> ->].
  destruct (filter_absent n _ Hn) as [-> ->].
  split; [now destruct (store w)|reflexivity].
Qed.

Lemma removeSecurityNode_absent_witness :
  store (snd (removeSecurityNode (lit "gone") (quiet no_answer)
                (mkWorld liked_store [])))
  = store (mkWorld liked_store [])
  /\ [[(lit "nodesDeleted", VNumber 0)]]
     = [[(lit "nodesDeleted", VNumber 0)]].
Proof.
  apply (removeSecurityNode_absent (lit "gone") (quiet no_answer)
           (mkWorld liked_store [])).
  - intros [].
  - vm_compute. reflexivity.
Defined.

(** X15.  Issuing and then revoking a token restores the store: when no
    SecurityNode is named [n], [createSecurityNode] returns and
    [removeSecurityNode] returns after it, the token was there in
    between, the store is afterwards what it was before, and the
    removal reports one deleted node. *)
Theorem token_issued_then_revoked :
  forall (n : jsstring) (env env' : Environment) (w w1 w2 : World)
         (rows rows' : list Row),
    ~ In n (tokens (store w)) ->
    createSecurityNode n env w = (Ok rows, w1) ->
    removeSecurityNode n env' w1 = (Ok rows', w2) ->
    In n (tokens (store w1)) /\ store w2 = store w
    /\ rows' = [[(lit "nodesDeleted", VNumber 1)]].
Proof.
  intros n env env' w w1 w2 rows rows' Hn Hc Hr.
  destruct (createSecurityNode_spec n env w) as [(e & E)|(rows0 & E)];
    rewrite E in Hc; [discriminate|]. injection Hc as _ <-.
  apply removeSecurityNode_returns in Hr as [-> ->].
  cbn [store nodes relationships tokens].
  rewrite !filter_app. destruct (filter_absent n _ Hn) as [-> ->].
  cbn [filter]. rewrite streq_refl. cbn [negb app List.length].
  rewrite app_nil_r. split; [|split].
  - apply in_or_app. right. now left.
  - now destruct (store w).
  - reflexivity.
Qed.

Lemma token_issued_then_revoked_witness :
  In (lit "t1")
     (tokens (store (snd (createSecurityNode (lit "t1") (quiet no_answer)
                            (mkWorld liked_store [])))))
  /\ store (snd (removeSecurityNode (lit "t1") (quiet no_answer)
                   (snd (createSecurityNode (lit "t1") (quiet no_answer)
                           (mkWorld liked_store [])))))
     = store (mkWorld liked_store [])
  /\ [[(lit "nodesDeleted", VNumber 1)]]
     = [[(lit "nodesDeleted", VNumber 1)]].
Proof.
  apply (token_issued_then_revoked (lit "t1") (quiet no_answer)
           (quiet no_answer) (mkWorld liked_store [])
           (snd (createSecurityNode (lit "t1") (quiet no_answer)
                   (mkWorld liked_store [])))
           (snd (removeSecurityNode (lit "t1") (quiet no_answer)
                   (snd (createSecurityNode (lit "t1") (quiet no_answer)
                           (mkWorld liked_store [])))))
           [[(lit "s.name", VText (lit "t1"))]]
           [[(lit "nodesDeleted", VNumber 1)]]).
  - intros [].
  - vm_compute. reflexivity.
  - vm_compute. reflexivity.
Defined.

(* ================================================================== *)
(** * Further properties of the tool [safe_cypher_query] *)
(* ================================================================== *)

(** The handler, step by step: the reading of [user_insists], the
    refusal, and the one call of [executeCypherQuery]. *)
Lemma safe_cypher_query_unfold (args : SafeCypherArgs) (env : Environment)
    (w : World) :
  let token := truthy (securityNodeName args) in
  let hasWriteOps := containsWriteOperations (query args) in
  let allowUnsafeQueries := is_true (NEO4J_UNSAFE_MEMORY_CYPHERS env) in
  let preparedQuery :=
    match token with
    | Some n =>
        if hasWriteOps && negb allowUnsafeQueries
        then wrapWithSecurityCheck (query args) n
        else query args
    | None => query args
    end in
  let ps := match params args with Some p => p | None => [] end in
  let failure (error : JsError) :=
    ErrorResponse (lit "Error executing Cypher query") (message error)
      match truthy (code error) with
      | Some c => c
      | None => lit "UNKNOWN"
      end in
  safe_cypher_query args env w =
  match read_user_insists args env w with
  | (Throw error, _) => (Ok (failure error), w)
  | (Ok user_insists, _) =>
      if hasWriteOps && negb (is_some token) && negb allowUnsafeQueries
         && negb user_insists
      then (Ok (SecurityRefusal hasWriteOps token allowUnsafeQueries
                  user_insists), w)
      else
        match executeCypherQuery preparedQuery ps hasWriteOps env w with
        | (Ok result, w1) =>
            (Ok (QueryResponse result (List.length result)
                   (if hasWriteOps then lit "write" else lit "read")
                   (if hasWriteOps && (List.length result =? 0)
                    then if is_some token && negb allowUnsafeQueries
                         then Some not_found_note
                         else Some no_effect_note
                    else None)),
             w1)
        | (Throw error, w1) => (Ok (failure error), w1)
        end
  end.
Proof.
  cbv zeta. unfold safe_cypher_query, try_catch, bind, ret.
  assert (R : snd (read_user_insists args env w) = w).
  { unfold read_user_insists.
    destruct (is_true (ALLOW_CYPHER_QUERY_USER_INSISTS env));
      [destruct (params args)|]; reflexivity. }
  destruct (read_user_insists args env w) as [[ui|e] w0]; cbn [snd] in R;
    subst w0; [|reflexivity].
  destruct (_ && negb ui); [reflexivity|].
  destruct (executeCypherQuery _ _ _ env w) as [[rows|e] w1]; reflexivity.
Qed.


(** X16.  The handler of [safe_cypher_query] never throws, whatever the
    arguments, the environment and the store do: it always returns a
    payload, and when it returns no session is left open. *)
Theorem safe_cypher_query_never_throws :
  forall (args : SafeCypherArgs) (env : Environment) (w : World),
    (exists payload, fst (safe_cypher_query args env w) = Ok payload)
    /\ open_sessions (new_events w (snd (safe_cypher_query args env w))) = [].
Proof.
  intros args env w.
  assert (N : open_sessions (new_events w w) = []).
  { unfold new_events. now rewrite skipn_all. }
  pose proof (safe_cypher_query_unfold args env w) as U. cbv zeta in U.
  rewrite U. clear U.
  destruct (read_user_insists args env w) as [[ui|e] w0].
  - destruct (_ && negb ui).
    + cbn [fst snd]. split; [eexists; reflexivity|exact N].
    + match goal with
      | |- context [executeCypherQuery ?q ?ps ?wr env w] =>
          pose proof (executeCypherQuery_closes_session q ps wr env w) as C;
          destruct (executeCypherQuery q ps wr env w) as [[rows|e] w1]
      end; cbn [fst snd] in *; (split; [eexists; reflexivity|exact C]).
  - cbn [fst snd]. split; [eexists; reflexivity|exact N].
Qed.





(** X19.  While ALLOW_CYPHER_QUERY_USER_INSISTS is 'true', a write
    query without security node name whose params carry force 'true' is
    sent as it is in a write transaction, also when
    NEO4J_UNSAFE_MEMORY_CYPHERS is not 'true'. *)
Theorem safe_cypher_query_user_insists :
  forall (args : SafeCypherArgs) (env : Environment) (w : World)
         (p : Params),
    containsWriteOperations (query args) = true ->
    truthy (securityNodeName args) = None ->
    is_true (ALLOW_CYPHER_QUERY_USER_INSISTS env) = true ->
    params args = Some p ->
    force_is_true p = true ->
    exists failed,
      new_events w (snd (safe_cypher_query args env w))
      = [SessionOpened (List.length (log w));
         Ran true (CypherStatement (query args) p) failed;
         SessionClosed (List.length (log w))].
Proof.
  intros args env w p Hw Ht Ha Hp Hf.
  pose proof (safe_cypher_query_unfold args env w) as U. cbv zeta in U.
  rewrite U. clear U.
  unfold read_user_insists. rewrite Ha, Hp, Hf, Hw, Ht.
  rewrite !andb_false_r.
  destruct (executeCypherQuery_spec (query args) p true env w)
    as [(e & _ & ->)|(_ & ->)]; cbn [snd]; eexists;
    (erewrite new_events_app by (cbn [log]; reflexivity)); reflexivity.
Qed.

Lemma safe_cypher_query_user_insists_witness :
  exists failed,
    new_events (mkWorld empty_store [])
      (snd (safe_cypher_query
              (mkSafeArgs (lit "CREATE (n:Test) RETURN n") None
                 (Some [(lit "force", PText (lit "true"))]))
              insisting (mkWorld empty_store [])))
    = [SessionOpened 0;
       Ran true
         (CypherStatement (lit "CREATE (n:Test) RETURN n")
            [(lit "force", PText (lit "true"))])
         failed;
       SessionClosed 0].
Proof.
  apply (safe_cypher_query_user_insists
           (mkSafeArgs (lit "CREATE (n:Test) RETURN n") None
              (Some [(lit "force", PText (lit "true"))]))
           insisting (mkWorld empty_store [])
           [(lit "force", PText (lit "true"))]); reflexivity.
Defined.

(** X20.  A payload with a result reports the number of rows of that
    result and the type of the query as the classifier sees it, and it
    carries a message exactly when a write query returned no row: the
    message about the security node when a name was given and
    NEO4J_UNSAFE_MEMORY_CYPHERS is not 'true', the other one
    otherwise. *)
Theorem safe_cypher_query_payload :
  forall (args : SafeCypherArgs) (env : Environment) (w : World)
         (result : list Row) (rowCount : nat) (queryType : jsstring)
         (note : option jsstring),
    fst (safe_cypher_query args env w)
    = Ok (QueryResponse result rowCount queryType note) ->
    rowCount = List.length result
    /\ queryType = (if containsWriteOperations (query args)
                    then lit "write" else lit "read")
    /\ (note <> None <->
        containsWriteOperations (query args) = true /\ result = [])
    /\ (note = Some not_found_note <->
        containsWriteOperations (query args) = true /\ result = []
        /\ truthy (securityNodeName args) <> None
        /\ is_true (NEO4J_UNSAFE_MEMORY_CYPHERS env) = false).
Proof.
  intros args env w result rowCount queryType note H.
  pose proof (safe_cypher_query_unfold args env w) as U. cbv zeta in U.
  rewrite U in H. clear U.
  destruct (read_user_insists args env w) as [[ui|e] w0];
    [|discriminate].
  destruct (_ && negb ui); [discriminate|].
  destruct (executeCypherQuery _ _ _ env w) as [[rows|e] w1];
    [|discriminate].
  cbn [fst] in H. injection H as <- <- <- <-.
  split; [reflexivity|]. split; [reflexivity|].
  assert (D : not_found_note <> no_effect_note) by (vm_compute; discriminate).
  destruct (containsWriteOperations (query args));
    destruct rows as [|row rows]; cbn [List.length Nat.eqb andb];
    destruct (truthy (securityNodeName args)) as [n|];
    destruct (is_true (NEO4J_UNSAFE_MEMORY_CYPHERS env));
    cbn [is_some negb andb]; (split; split);
    try discriminate; try congruence; try tauto;
    try (intros (? & ? & ? & ?); congruence);
    try (intros [? ?]; congruence);
    try (intros; repeat split; congruence).
Qed.

Lemma safe_cypher_query_payload_witness :
  0 = List.length (@nil Row)
  /\ lit "write"
     = (if containsWriteOperations (lit "CREATE (n:Test) RETURN n")
        then lit "write" else lit "read")
  /\ (Some not_found_note <> None <->
      containsWriteOperations (lit "CREATE (n:Test) RETURN n") = true
      /\ @nil Row = [])
  /\ (Some not_found_note = Some not_found_note <->
      containsWriteOperations (lit "CREATE (n:Test) RETURN n") = true
      /\ @nil Row = []
      /\ truthy (Some (lit "t1")) <> None
      /\ is_true (NEO4J_UNSAFE_MEMORY_CYPHERS (quiet no_answer)) = false).
Proof.
  apply (safe_cypher_query_payload
           (mkSafeArgs (lit "CREATE (n:Test) RETURN n") (Some (lit "t1"))
              None)
           (quiet no_answer) (mkWorld empty_store [])).
  vm_compute. reflexivity.
Defined.

(** X21.  When the store fails the statement that the handler sent,
    the handler returns the payload 'Error executing Cypher query' with
    the message of the error of the store and its code, or UNKNOWN when
    the error has no code; the store is as it was. *)
Theorem safe_cypher_query_reports_store_error :
  forall (args : SafeCypherArgs) (env : Environment) (w : World)
         (wr : bool) (stmt : Statement),
    In (Ran wr stmt true)
       (new_events w (snd (safe_cypher_query args env w))) ->
    exists error,
      store_fault env (log w ++ [SessionOpened (List.length (log w))]) stmt
      = Some error
      /\ fst (safe_cypher_query args env w)
         = Ok (ErrorResponse (lit "Error executing Cypher query")
                 (message error)
                 match truthy (code error) with
                 | Some c => c
                 | None => lit "UNKNOWN"
                 end)
      /\ store (snd (safe_cypher_query args env w)) = store w.
Proof.
  intros args env w wr stmt H.
  assert (N : new_events w w = []).
  { unfold new_events. now rewrite skipn_all. }
  pose proof (safe_cypher_query_unfold args env w) as U. cbv zeta in U.
  rewrite U in H |- *. clear U.
  destruct (read_user_insists args env w) as [[ui|e] w0].
  2:{ cbn [snd] in H. rewrite N in H. destruct H. }
  destruct (_ && negb ui).
  { cbn [snd] in H. rewrite N in H. destruct H. }
  match goal with
  | |- context [executeCypherQuery ?q ?ps ?b env w] =>
      destruct (executeCypherQuery_spec q ps b env w)
        as [(e & F & E)|(_ & E)]; rewrite E in H |- *; clear E
  end; cbn [fst snd] in H |- *;
    (erewrite new_events_app in H by (cbn [log]; reflexivity)).
  - destruct H as [H|[H|[H|[]]]]; try discriminate H.
    injection H as _ <-. exists e. auto.
  - destruct H as [H|[H|[H|[]]]]; discriminate H.
Qed.

Lemma safe_cypher_query_reports_store_error_witness :
  exists error,
    store_fault unreachable ([] ++ [SessionOpened 0])
      (CypherStatement (lit "MATCH (n) RETURN n") [])
    = Some error
    /\ fst (safe_cypher_query
              (mkSafeArgs (lit "MATCH (n) RETURN n") None None)
              unreachable (mkWorld empty_store []))
       = Ok (ErrorResponse (lit "Error executing Cypher query")
               (message error)
               match truthy (code error) with
               | Some c => c
               | None => lit "UNKNOWN"
               end)
    /\ store (snd (safe_cypher_query
                     (mkSafeArgs (lit "MATCH (n) RETURN n") None None)
                     unreachable (mkWorld empty_store [])))
       = store (mkWorld empty_store []).
Proof.
  apply (safe_cypher_query_reports_store_error
           (mkSafeArgs (lit "MATCH (n) RETURN n") None None)
           unreachable (mkWorld empty_store []) false
           (CypherStatement (lit "MATCH (n) RETURN n") [])).
  vm_compute. right. left. reflexivity.
Defined.

(* ================================================================== *)
(** * Further properties of utils/cypher-utils.js *)
(* ================================================================== *)

Lemma containsWriteOperations_spec (q : jsstring) :
  containsWriteOperations q = true <->
  exists pre w post op,
    q = pre ++ w ++ post /\ In op writeOperators /\
    same_ignoring_case w op /\
    word_before (last_seen None pre) = false /\ word_after post = false.
Proof.
  unfold containsWriteOperations, regex_test. rewrite search_spec. split.
  - intros (pre & rest & Hq & Hm).
    apply write_regex_at in Hm as (w & post & op & Hr & Hop & Hw & Hp & Hpost).
    exists pre, w, post, op. subst. auto.
  - intros (pre & w & post & op & Hq & Hop & Hw & Hp & Hpost).
    exists pre, (w ++ post). split; [exact Hq|].
    apply write_regex_at. exists w, post, op. auto.
Qed.

Lemma last_seen_canonicalize (u v : jsstring) :
  map canonicalize u = map canonicalize v ->
  forall p q, word_before p = word_before q ->
              word_before (last_seen p u) = word_before (last_seen q v).
Proof.
  revert v. induction u as [|x u IH]; intros [|y v] H p q Hpq;
    try discriminate; [exact Hpq|].
  cbn [map] in H. injection H as Hx Hu. cbn [last_seen].
  apply IH; [exact Hu|]. cbn [word_before].
  now rewrite <- (canonicalize_word x), Hx, canonicalize_word.
Qed.

Lemma word_after_canonicalize (u v : jsstring) :
  map canonicalize u = map canonicalize v -> word_after u = word_after v.
Proof.
  destruct u as [|x u], v as [|y v]; try discriminate; [reflexivity|].
  cbn [map word_after]. intros H. injection H as Hx _.
  now rewrite <- (canonicalize_word x), Hx, canonicalize_word.
Qed.

Lemma write_token_ignores_case (q q' : jsstring) :
  same_ignoring_case q q' ->
  containsWriteOperations q = true -> containsWriteOperations q' = true.
Proof.
  unfold same_ignoring_case. intros H.
  rewrite !containsWriteOperations_spec.
  intros (pre & w & post & op & Hq & Hop & Hw & Hp & Hpost). subst q.
  rewrite !map_app in H. symmetry in H.
  apply map_eq_app in H as (pre' & rest' & -> & Hpre & H).
  apply map_eq_app in H as (w' & post' & -> & Hw' & Hpost').
  exists pre', w', post', op. split; [reflexivity|]. split; [exact Hop|].
  split; [unfold same_ignoring_case in *; congruence|]. split.
  - rewrite (last_seen_canonicalize pre' pre Hpre None None eq_refl).
    exact Hp.
  - now rewrite (word_after_canonicalize post' post Hpost').
Qed.

(** X22.  The classifier does not see the case of the letters a to z:
    two queries that differ only in that case are classified alike. *)
Theorem containsWriteOperations_ignores_case :
  forall (q q' : jsstring),
    same_ignoring_case q q' ->
    containsWriteOperations q = containsWriteOperations q'.
Proof.
  intros q q' H.
  pose proof (write_token_ignores_case q q' H) as A.
  assert (H' : same_ignoring_case q' q) by (unfold same_ignoring_case in *;
                                            congruence).
  pose proof (write_token_ignores_case q' q H') as B.
  destruct (containsWriteOperations q), (containsWriteOperations q');
    auto; [symmetry; auto].
Qed.

Lemma containsWriteOperations_ignores_case_witness :
  containsWriteOperations (lit "Merge (n:X) return n")
  = containsWriteOperations (lit "MERGE (n:X) RETURN n").
Proof.
  apply (containsWriteOperations_ignores_case (lit "Merge (n:X) return n")
           (lit "MERGE (n:X) RETURN n")).
  vm_compute. reflexivity.
Defined.

Lemma last_seen_nonempty (p q : option ascii) (u : jsstring) :
  u <> [] -> last_seen p u = last_seen q u.
Proof. destruct u; [congruence|reflexivity]. Qed.

(** A write operator found in a text is still found when the text is
    put between a text that ends outside a word and a text that begins
    outside a word. *)
Lemma write_token_in_context (l q r : jsstring) :
  word_before (last_seen None l) = false ->
  word_after r = false ->
  containsWriteOperations q = true ->
  containsWriteOperations (l ++ q ++ r) = true.
Proof.
  intros Hl Hr. rewrite !containsWriteOperations_spec.
  intros (pre & w & post & op & Hq & Hop & Hw & Hp & Hpost). subst q.
  exists (l ++ pre), w, (post ++ r), op.
  split; [now rewrite <- !app_assoc|].
  split; [exact Hop|]. split; [exact Hw|]. split.
  - rewrite last_seen_app. destruct pre as [|x pre]; [exact Hl|].
    rewrite (last_seen_nonempty _ None) by discriminate. exact Hp.
  - destruct post as [|x post]; [exact Hr|exact Hpost].
Qed.

(** X23.  Wrapping keeps a write query a write query: the text that
    [wrapWithSecurityCheck] builds around a query with a write operator
    is itself classified as write, whatever the name is. *)
Theorem wrapWithSecurityCheck_keeps_write_query :
  forall (q n : jsstring),
    containsWriteOperations q = true ->
    containsWriteOperations (wrapWithSecurityCheck q n) = true.
Proof.
  intros q n H. rewrite wrapWithSecurityCheck_text.
  match goal with
  | |- containsWriteOperations (?a ++ n ++ ?b ++ q ++ ?c) = true =>
      replace (a ++ n ++ b ++ q ++ c) with (((a ++ n) ++ b) ++ q ++ c)
        by (now rewrite <- !app_assoc)
  end.
  apply write_token_in_context; [|reflexivity|exact H].
  rewrite last_seen_app. reflexivity.
Qed.

Lemma wrapWithSecurityCheck_keeps_write_query_witness :
  containsWriteOperations
    (wrapWithSecurityCheck (lit "CREATE (n:Test) RETURN n") (lit "t1"))
  = true.
Proof.
  apply (wrapWithSecurityCheck_keeps_write_query
           (lit "CREATE (n:Test) RETURN n") (lit "t1")).
  reflexivity.
Defined.

(* ================================================================== *)
(** * Further properties of tools/base-ontology.js *)
(* ================================================================== *)

(** What [guarded_creation] can return: the refusal, when the request
    is not forced, or the report of a creation. *)
Lemma guarded_creation_replies (subj : jsstring) (args : OntologyArgs)
    (env : Environment) (w : World) (reply : OntologyReply) :
  fst (guarded_creation subj args env w) = Ok reply ->
  (exists found,
      reply = AlreadyRepresented subj found /\ force_it args = false)
  \/ (exists details, reply = Created subj details).
Proof.
  unfold guarded_creation, bind, generateSecurityNodeName, try_finally, ret.
  destruct (createSecurityNode _ env w) as [[rows|e] w1]; [|discriminate].
  destruct (checkBaseOntologyExists subj env w1) as [[res|e] w2].
  - destruct (exists_ res && negb (force_it args)) eqn:E.
    + destruct (removeSecurityNode _ env w2) as [[rows'|e] w3];
        cbn [fst]; [|discriminate].
      intros [= <-]. left. eexists. split; [reflexivity|].
      destruct (force_it args); [|reflexivity].
      now rewrite andb_false_r in E.
    + destruct (createBaseOntology _ _ _ env w2) as [[d|e] w3];
        destruct (removeSecurityNode _ env w3) as [[rows'|e'] w4];
        cbn [fst]; try discriminate.
      intros [= <-]. right. eexists. reflexivity.
  - destruct (removeSecurityNode _ env w2) as [[rows'|e'] w3]; discriminate.
Qed.

(** The handler, step by step. *)
Lemma handleCreateBaseOntology_unfold (args : OntologyArgs)
    (env : Environment) (w : World) :
  let failure (error : JsError) :=
    CreationFailed (lit "Error creating Base Ontology: " ++ message error) in
  let caught (run : Result OntologyReply * World) :=
    match run with
    | (Ok reply, w1) => (Ok reply, w1)
    | (Throw error, w1) => (Ok (failure error), w1)
    end in
  handleCreateBaseOntology args env w =
  match truthy (subject args) with
  | None => (Ok MissingSubject, w)
  | Some subj =>
      match truthy (parent args) with
      | Some p =>
          match executeCypherQuery parentCheck_query
                  [(lit "parentName", PText (normalizeParentName p))]
                  false env w with
          | (Ok [], w1) => (Ok (ParentMissing p), w1)
          | (Ok (_ :: _), w1) => caught (guarded_creation subj args env w1)
          | (Throw error, w1) => (Ok (failure error), w1)
          end
      | None => caught (guarded_creation subj args env w)
      end
  end.
Proof.
  cbv zeta. unfold handleCreateBaseOntology.
  destruct (truthy (subject args)) as [subj|]; [|reflexivity].
  unfold try_catch, bind, ret.
  destruct (truthy (parent args)) as [p|]; [|reflexivity].
  destruct (executeCypherQuery _ _ _ env w) as [[[|row rows]|e] w1];
    reflexivity.
Qed.

(** X24.  [handleCreateBaseOntology] never throws: whatever the store
    and the text generator do, it returns a reply. *)
Theorem handleCreateBaseOntology_never_throws :
  forall (args : OntologyArgs) (env : Environment) (w : World),
    exists reply, fst (handleCreateBaseOntology args env w) = Ok reply.
Proof.
  intros args env w.
  pose proof (handleCreateBaseOntology_unfold args env w) as U.
  cbv zeta in U. rewrite U. clear U.
  destruct (truthy (subject args)) as [subj|]; [|eexists; reflexivity].
  destruct (truthy (parent args)) as [p|].
  - destruct (executeCypherQuery _ _ _ env w) as [[[|row rows]|e] w1];
      try (eexists; reflexivity).
    destruct (guarded_creation subj args env w1) as [[r|e] w2];
      eexists; reflexivity.
  - destruct (guarded_creation subj args env w) as [[r|e] w2];
      eexists; reflexivity.
Qed.

(** X25.  The reply that the subject is missing is given for a request
    without subject, or with the empty one, and for no other; nothing
    was sent to the store and nothing was asked of the text generator
    before it. *)
Theorem handleCreateBaseOntology_missing_subject :
  forall (args : OntologyArgs) (env : Environment) (w : World),
    fst (handleCreateBaseOntology args env w) = Ok MissingSubject ->
    truthy (subject args) = None
    /\ snd (handleCreateBaseOntology args env w) = w.
Proof.
  intros args env w.
  pose proof (handleCreateBaseOntology_unfold args env w) as U.
  cbv zeta in U. rewrite U. clear U.
  destruct (truthy (subject args)) as [subj|]; [|auto].
  assert (G : forall w0,
             fst match guarded_creation subj args env w0 with
                 | (Ok reply, w1) => (Ok reply, w1)
                 | (Throw error, w1) =>
                     (Ok (CreationFailed
                            (lit "Error creating Base Ontology: "
                             ++ message error)), w1)
                 end <> Ok MissingSubject).
  { intros w0.
    pose proof (guarded_creation_replies subj args env w0) as R.
    destruct (guarded_creation subj args env w0) as [[r|e] w2];
      cbn [fst] in *; [|discriminate].
    intros [= ->].
    destruct (R _ eq_refl) as [(f & H & _)|(d & H)]; discriminate H. }
  destruct (truthy (parent args)) as [p|].
  - destruct (executeCypherQuery _ _ _ env w) as [[[|row rows]|e] w1];
      try discriminate.
    intros H. now apply G in H.
  - intros H. now apply G in H.
Qed.

Lemma handleCreateBaseOntology_missing_subject_witness :
  truthy (subject (mkOntologyArgs (Some []) None true)) = None
  /\ snd (handleCreateBaseOntology (mkOntologyArgs (Some []) None true)
            (quiet no_answer) (mkWorld empty_store []))
     = mkWorld empty_store [].
Proof.
  apply (handleCreateBaseOntology_missing_subject
           (mkOntologyArgs (Some []) None true) (quiet no_answer)
           (mkWorld empty_store [])).
  reflexivity.
Defined.

(** X26.  The reply that the parent does not exist comes before any
    write: in a run that gives it, the request names that parent, and
    all that happened is the one read that looks the parent up under
    its name without the prefix '(BO): ', which returned no row.  No
    security node was created and the text generator was not asked. *)
Theorem handleCreateBaseOntology_parent_missing :
  forall (args : OntologyArgs) (env : Environment) (w : World)
         (p : jsstring),
    fst (handleCreateBaseOntology args env w) = Ok (ParentMissing p) ->
    truthy (parent args) = Some p
    /\ new_events w (snd (handleCreateBaseOntology args env w))
       = [SessionOpened (List.length (log w));
          Ran false
            (CypherStatement parentCheck_query
               [(lit "parentName", PText (normalizeParentName p))])
            false;
          SessionClosed (List.length (log w))].
Proof.
  intros args env w p.
  pose proof (handleCreateBaseOntology_unfold args env w) as U.
  cbv zeta in U. rewrite U. clear U.
  destruct (truthy (subject args)) as [subj|]; [|discriminate].
  assert (G : forall w0,
             fst match guarded_creation subj args env w0 with
                 | (Ok reply, w1) => (Ok reply, w1)
                 | (Throw error, w1) =>
                     (Ok (CreationFailed
                            (lit "Error creating Base Ontology: "
                             ++ message error)), w1)
                 end <> Ok (ParentMissing p)).
  { intros w0.
    pose proof (guarded_creation_replies subj args env w0) as R.
    destruct (guarded_creation subj args env w0) as [[r|e] w2];
      cbn [fst] in *; [|discriminate].
    intros [= ->].
    destruct (R _ eq_refl) as [(f & H & _)|(d & H)]; discriminate H. }
  destruct (truthy (parent args)) as [p0|].
  - destruct (executeCypherQuery_spec parentCheck_query
                [(lit "parentName", PText (normalizeParentName p0))]
                false env w) as [(e & _ & E)|(_ & E)]; rewrite E; clear E.
    + discriminate.
    + destruct (snd (run_cypher _ _ _ env _)) as [|row rows].
      * cbn [fst snd]. intros [= <-]. split; [reflexivity|].
        apply new_events_app. reflexivity.
      * intros H. now apply G in H.
  - intros H. now apply G in H.
Qed.

Lemma handleCreateBaseOntology_parent_missing_witness :
  truthy (parent ai_under_science) = Some (lit "(BO): Science")
  /\ new_events (mkWorld empty_store [])
       (snd (handleCreateBaseOntology ai_under_science (quiet no_answer)
               (mkWorld empty_store [])))
     = [SessionOpened 0;
        Ran false
          (CypherStatement parentCheck_query
             [(lit "parentName",
               PText (normalizeParentName (lit "(BO): Science")))])
          false;
        SessionClosed 0].
Proof.
  apply (handleCreateBaseOntology_parent_missing ai_under_science
           (quiet no_answer) (mkWorld empty_store [])
           (lit "(BO): Science")).
  reflexivity.
Defined.

(** X27.  A forced request is never refused as already represented:
    with force_it set and a subject given, the reply is that the parent
    does not exist, the report of a creation for that subject, or the
    report of an error. *)
Theorem handleCreateBaseOntology_forced :
  forall (args : OntologyArgs) (env : Environment) (w : World)
         (subj : jsstring) (reply : OntologyReply),
    force_it args = true ->
    truthy (subject args) = Some subj ->
    fst (handleCreateBaseOntology args env w) = Ok reply ->
    (exists p, reply = ParentMissing p)
    \/ (exists details, reply = Created subj details)
    \/ (exists m, reply = CreationFailed m).
Proof.
  intros args env w subj reply Hf Hs.
  pose proof (handleCreateBaseOntology_unfold args env w) as U.
  cbv zeta in U. rewrite U. clear U. rewrite Hs.
  assert (G : forall w0,
             fst match guarded_creation subj args env w0 with
                 | (Ok reply, w1) => (Ok reply, w1)
                 | (Throw error, w1) =>
                     (Ok (CreationFailed
                            (lit "Error creating Base Ontology: "
                             ++ message error)), w1)
                 end = Ok reply ->
             (exists p, reply = ParentMissing p)
             \/ (exists details, reply = Created subj details)
             \/ (exists m, reply = CreationFailed m)).
  { intros w0.
    pose proof (guarded_creation_replies subj args env w0) as R.
    destruct (guarded_creation subj args env w0) as [[r|e] w2];
      cbn [fst] in *.
    - intros [= ->].
      destruct (R _ eq_refl) as [(f & _ & H)|(d & H)]; [congruence|].
      right. left. now exists d.
    - intros [= <-]. right. right. eexists. reflexivity. }
  destruct (truthy (parent args)) as [p|]; [|apply G].
  destruct (executeCypherQuery _ _ _ env w) as [[[|row rows]|e] w1];
    cbn [fst].
  - intros [= <-]. left. now exists p.
  - apply G.
  - intros [= <-]. right. right. eexists. reflexivity.
Qed.

Lemma handleCreateBaseOntology_forced_witness :
  (exists p,
      Created (lit "AI")
        (mkDetails (GeneratedStructure (mkJson true None None None)) [])
      = ParentMissing p)
  \/ (exists details,
         Created (lit "AI")
        (mkDetails (GeneratedStructure (mkJson true None None None)) [])
         = Created (lit "AI") details)
  \/ (exists m,
         Created (lit "AI")
        (mkDetails (GeneratedStructure (mkJson true None None None)) [])
         = CreationFailed m).
Proof.
  apply (handleCreateBaseOntology_forced ai_forced (quiet represented)
           (mkWorld empty_store []) (lit "AI")).
  - reflexivity.
  - reflexivity.
  - vm_compute. reflexivity.
Defined.

(** ** The generated statements *)

Lemma statements_sent_app (a b : list Event) :
  statements_sent (a ++ b) = statements_sent a ++ statements_sent b.
Proof. unfold statements_sent. apply flat_map_app. Qed.

Lemma execute_generated_cons (subj : jsstring) (o : OntologyStructure)
    (q : GeneratedQuery) (qs : list GeneratedQuery) (env : Environment)
    (w : World) :
  execute_generated subj o (q :: qs) env w =
  match executeCypherQuery (gquery q)
          [(lit "subject", PText subj);
           (lit "ontologyStructureJson", PJson o)] true env w with
  | (Ok result, w1) =>
      match execute_generated subj o qs env w1 with
      | (Ok results, w2) => (Ok ((description q, result) :: results), w2)
      | (Throw error, w2) => (Throw error, w2)
      end
  | (Throw error, w1) => (Throw error, w1)
  end.
Proof. reflexivity. Qed.

Lemma execute_generated_log (subj : jsstring) (o : OntologyStructure)
    (qs : list GeneratedQuery) (env : Environment) :
  forall w,
    match execute_generated subj o qs env w with
    | (Ok results, w1) =>
        map fst results = map description qs /\
        exists evs,
          log w1 = log w ++ evs /\
          statements_sent evs
          = map (fun q => (true, generated_statement subj o q, false)) qs
    | (Throw error, w1) =>
        exists done q rest results w0 evs,
          qs = done ++ q :: rest /\
          execute_generated subj o done env w = (Ok results, w0) /\
          store w1 = store w0 /\
          log w1 = log w ++ evs /\
          statements_sent evs
          = map (fun q => (true, generated_statement subj o q, false)) done
            ++ [(true, generated_statement subj o q, true)]
    end.
Proof.
  induction qs as [|q0 qs IH]; intros w.
  - cbn. split; [reflexivity|]. exists []. now rewrite app_nil_r.
  - rewrite execute_generated_cons.
    destruct (executeCypherQuery_spec (gquery q0)
                [(lit "subject", PText subj);
                 (lit "ontologyStructureJson", PJson o)] true env w)
      as [(e & _ & E)|(_ & E)].
    + rewrite E.
      exists [], q0, qs, [], w. eexists.
      split; [reflexivity|]. split; [reflexivity|].
      split; [reflexivity|]. split; [reflexivity|]. reflexivity.
    + rewrite E.
      match goal with
      | |- context [execute_generated subj o qs env ?w1] =>
          specialize (IH w1);
          destruct (execute_generated subj o qs env w1)
            as [[results|e] w2] eqn:R
      end.
      * destruct IH as (Hd & evs & Hl & Hs). cbn [map fst].
        split; [now rewrite Hd|].
        eexists (_ ++ evs). cbn [log] in Hl. rewrite Hl.
        split; [now rewrite app_assoc|].
        rewrite statements_sent_app, Hs. reflexivity.
      * destruct IH as (done & q & rest & results & w0 & evs
                        & Hq & Hdone & Hst & Hl & Hs).
        exists (q0 :: done), q, rest. do 2 eexists. eexists (_ ++ evs).
        split; [now rewrite Hq|].
        split; [rewrite execute_generated_cons, E, Hdone; reflexivity|].
        split; [exact Hst|]. cbn [log] in Hl. rewrite Hl.
        split; [now rewrite app_assoc|].
        rewrite statements_sent_app, Hs. reflexivity.
Qed.

(** X28.  The generated statements are sent in their order, each in a
    write transaction of its own with the subject and the structure as
    params.  When all succeed, the results carry the descriptions of
    the queries in that order.  When the store fails one, the error is
    thrown, the statements after it are not sent, and the statements
    before it are not undone: the store is as the run of those alone
    leaves it. *)
Theorem execute_generated_in_order :
  forall (subj : jsstring) (o : OntologyStructure)
         (qs : list GeneratedQuery) (env : Environment) (w : World),
    match execute_generated subj o qs env w with
    | (Ok results, w1) =>
        map fst results = map description qs /\
        statements_sent (new_events w w1)
        = map (fun q => (true, generated_statement subj o q, false)) qs
    | (Throw error, w1) =>
        exists done q rest results w0,
          qs = done ++ q :: rest /\
          execute_generated subj o done env w = (Ok results, w0) /\
          store w1 = store w0 /\
          statements_sent (new_events w w1)
          = map (fun q => (true, generated_statement subj o q, false)) done
            ++ [(true, generated_statement subj o q, true)]
    end.
Proof.
  intros subj o qs env w.
  pose proof (execute_generated_log subj o qs env w) as H.
  destruct (execute_generated subj o qs env w) as [[results|e] w1].
  - destruct H as (Hd & evs & Hl & Hs). split; [exact Hd|].
    now rewrite (new_events_app _ _ _ Hl).
  - destruct H as (done & q & rest & results & w0 & evs
                   & Hq & Hdone & Hst & Hl & Hs).
    exists done, q, rest, results, w0.
    rewrite (new_events_app _ _ _ Hl). auto.
Qed.

(** ** The connections to the other ontologies *)

(** An event that is not a write statement, or is one whose text
    contains MATCH and CREATE and whose only param is the subject. *)
Lemma createOntologyConnections_emits (subj n : jsstring) :
  emits (fun ev =>
           forall stmt failed,
             ev = Ran true stmt failed ->
             exists q,
               stmt = CypherStatement q [(lit "subject", PText subj)]
               /\ Substring (lit "MATCH") q /\ Substring (lit "CREATE") q)
    (createOntologyConnections subj n).
Proof.
  unfold createOntologyConnections.
  apply emits_try_catch; [|intros; apply emits_ret].
  apply emits_bind.
  { apply emits_executeCypherQuery; intros; discriminate. }
  intros [|row rows]; [apply emits_ret|].
  apply emits_bind; [apply emits_callLLM; intros; discriminate|].
  intros response. cbv zeta.
  destruct (filter high_confidence _); [apply emits_ret|].
  apply emits_bind; [apply emits_callLLM; intros; discriminate|].
  intros cypher.
  destruct (truthy (text cypher)) as [connectionsQuery|];
    [|apply emits_ret].
  destruct (includes connectionsQuery (lit "MATCH")
            && includes connectionsQuery (lit "CREATE")) eqn:E;
    [|apply emits_ret].
  apply andb_true_iff in E as [E1 E2].
  apply includes_spec in E1. apply includes_spec in E2.
  apply emits_bind; [|intros; apply emits_ret].
  apply emits_executeCypherQuery; try (intros; discriminate).
  intros failed stmt failed' [= <- _]. now exists connectionsQuery.
Qed.

(** X29.  [createOntologyConnections] never throws, whatever the store
    and the text generator do; and the only write statement it can
    send is a text of the text generator that contains MATCH and
    CREATE, with the subject as its only param. *)
Theorem createOntologyConnections_is_contained :
  forall (subj n : jsstring) (env : Environment) (w : World),
    (exists w1, createOntologyConnections subj n env w = (Ok tt, w1))
    /\ forall stmt failed,
         In (Ran true stmt failed)
            (new_events w (snd (createOntologyConnections subj n env w))) ->
         exists q,
           stmt = CypherStatement q [(lit "subject", PText subj)]
           /\ Substring (lit "MATCH") q /\ Substring (lit "CREATE") q.
Proof.
  intros subj n env w. split.
  - unfold createOntologyConnections, try_catch, ret.
    match goal with
    | |- context [match ?b env w with _ => _ end] =>
        destruct (b env w) as [[[]|e] w1]
    end; eexists; reflexivity.
  - destruct (createOntologyConnections_emits subj n env w)
      as (evs & Hl & Hevs).
    rewrite (new_events_app _ _ _ Hl). intros stmt failed Hin.
    rewrite Forall_forall in Hevs. now apply (Hevs _ Hin stmt failed).
Qed.

(* ================================================================== *)
(** * Further properties of the adapter: [createRelations] *)
(* ================================================================== *)






(* ================================================================== *)
(** * Properties of utils/uuid-utils.js *)
(* ================================================================== *)

Lemma replacement_digit (c : ascii) (r : nat) :
  r < 16 ->
  uuid_utils.replacement c r = [digit_for c r]
  /\ In (digit_for c r) (lit "0123456789abcdef")
  /\ (Ascii.eqb c "x" = false -> In (digit_for c r) (lit "89ab")).
Proof.
  intros H. unfold digit_for, uuid_utils.replacement.
  destruct (Ascii.eqb c "x").
  - do 16 (destruct r as [|r];
           [split; [reflexivity|split; [|discriminate]];
            cbn; repeat (first [left; reflexivity|right])|]).
    lia.
  - assert (E : Nat.land r 3 = r mod 4).
    { change 3 with (Nat.ones 2). apply Nat.land_ones. }
    rewrite E.
    pose proof (Nat.mod_upper_bound r 4 ltac:(discriminate)) as B.
    destruct (r mod 4) as [|[|[|[|m]]]]; try lia;
      (split; [reflexivity|split; [|intros _]];
       cbn; repeat (first [left; reflexivity|right])).
Qed.

Lemma hex_digit_plain (c : ascii) :
  In c (lit "0123456789abcdef") -> plain_char c = true.
Proof.
  cbn. intros H.
  repeat (destruct H as [<-|H]; [reflexivity|]). destruct H.
Qed.

Lemma replace_xy_fill (draw : nat -> nat) (template : jsstring) :
  (forall k, draw k < 16) ->
  forall k, uuid_utils.replace_xy template draw k = fill template draw k.
Proof.
  intros Hd. induction template as [|c rest IH]; intros k; [reflexivity|].
  cbn [uuid_utils.replace_xy fill].
  destruct (Ascii.eqb c "x" || Ascii.eqb c "y").
  - destruct (replacement_digit c (draw k) (Hd k)) as [-> _].
    cbn [app]. now rewrite IH.
  - now rewrite IH.
Qed.

Lemma fill_plain (draw : nat -> nat) (template : jsstring) :
  (forall k, draw k < 16) ->
  forallb plain_char template = true ->
  forall k, forallb plain_char (fill template draw k) = true.
Proof.
  intros Hd. induction template as [|c rest IH]; intros H k; [reflexivity|].
  cbn [forallb] in H. apply andb_true_iff in H as [Hc Hrest].
  cbn [fill]. destruct (Ascii.eqb c "x" || Ascii.eqb c "y"); cbn [forallb].
  - rewrite IH by exact Hrest.
    destruct (replacement_digit c (draw k) (Hd k)) as (_ & Hin & _).
    now rewrite (hex_digit_plain _ Hin).
  - now rewrite Hc, IH.
Qed.

Lemma decimal_plain (d : Decimal.uint) :
  forallb plain_char (lit (DecimalString.NilEmpty.string_of_uint d)) = true.
Proof.
  induction d; cbn [DecimalString.NilEmpty.string_of_uint lit
                      list_ascii_of_string forallb];
    try reflexivity; fold (lit (DecimalString.NilEmpty.string_of_uint d));
    now rewrite IHd.
Qed.

(** X30.  The identifiers have the shape of a version 4 UUID, and the
    names of the security nodes are plain.  Whatever the random source
    draws, [generateUUID] returns 36 characters with hyphens at the
    positions 8, 13, 18 and 23, a 4 at the position 14 and one of 8, 9,
    a, b at the position 19; and [generateSecurityNodeName] returns a
    text that begins with security-node- and consists of digits,
    letters from a to z and hyphens only, so that no character of it
    ends the quoted name in the text of [wrapWithSecurityCheck]. *)
Theorem generateSecurityNodeName_shape :
  forall (now : N) (draw : nat -> nat),
    (forall k, draw k < 16) ->
    List.length (uuid_utils.generateUUID draw) = 36
    /\ (forall i, In i [8; 13; 18; 23] ->
                  nth i (uuid_utils.generateUUID draw) " "%char = "-"%char)
    /\ nth 14 (uuid_utils.generateUUID draw) " "%char = "4"%char
    /\ In (nth 19 (uuid_utils.generateUUID draw) " "%char) (lit "89ab")
    /\ starts_with (lit "security-node-")
         (uuid_utils.generateSecurityNodeName now draw) = true
    /\ forallb plain_char (uuid_utils.generateSecurityNodeName now draw)
       = true.
Proof.
  intros now draw Hd.
  unfold uuid_utils.generateSecurityNodeName, uuid_utils.generateUUID.
  rewrite (replace_xy_fill draw _ Hd).
  split; [reflexivity|]. split.
  { intros i [<-|[<-|[<-|[<-|[]]]]]; reflexivity. }
  split; [reflexivity|]. split.
  { change (In (digit_for "y" (draw 15)) (lit "89ab")).
    now apply (replacement_digit "y" (draw 15) (Hd 15)). }
  split; [reflexivity|].
  rewrite !forallb_app. rewrite fill_plain by (exact Hd || reflexivity).
  rewrite andb_true_r. cbn [andb].
  assert (P : forallb plain_char (lit "security-node-") = true)
    by reflexivity.
  rewrite P. cbn [andb].
  unfold DecimalString.NilZero.string_of_uint.
  destruct (N.to_uint now) eqn:E; try reflexivity;
    rewrite <- E; apply decimal_plain.
Qed.

Lemma generateSecurityNodeName_shape_witness :
  List.length (uuid_utils.generateUUID always_ten) = 36
  /\ (forall i, In i [8; 13; 18; 23] ->
                nth i (uuid_utils.generateUUID always_ten) " "%char
                = "-"%char)
  /\ nth 14 (uuid_utils.generateUUID always_ten) " "%char = "4"%char
  /\ In (nth 19 (uuid_utils.generateUUID always_ten) " "%char) (lit "89ab")
  /\ starts_with (lit "security-node-")
       (uuid_utils.generateSecurityNodeName some_time always_ten) = true
  /\ forallb plain_char
       (uuid_utils.generateSecurityNodeName some_time always_ten) = true.
Proof.
  apply (generateSecurityNodeName_shape some_time always_ten).
  intros k. unfold always_ten. lia.
Defined.
